(** * optionpricing: option contracts, pricing engines, numerical Greeks and
    the implied-volatility solver.

    A shallow embedding of the Python package [optionpricing].  Python floats
    are read as real numbers ([R]): [math.exp], [math.log], [math.sqrt] are
    [exp], [ln], [sqrt]; rounding, overflow, [nan] and [inf] are outside the
    model.  The standard normal law of [scipy.stats.norm] and the generator
    behind [numpy.random] are libraries the package calls; they enter as
    interfaces ([NormalDist], [Generator]) that state what is used of them. *)

From Stdlib Require Import Reals Lra Lia ZArith List Bool.
Import ListNotations.
Open Scope R_scope.

(** ** Exceptions and results *)

(** The message of an [ImpliedVolatilityError], by the place that raises it. *)
Inductive iv_reason : Set :=
| BelowIntrinsic        (* "Market price ... is below intrinsic value ..." *)
| PriceNotPositive      (* "Market price must be positive" *)
| VegaTooSmall          (* "Vega too small for Newton-Raphson" *)
| NewtonNoConvergence   (* "Newton-Raphson failed to converge after ..." *)
| BisectionNoConvergence. (* "Bisection method failed to converge after ..." *)

Inductive error : Set :=
| ValidationError                      (* pydantic's, raised by [Option(...)] *)
| InvalidOptionError                   (* utils/exceptions.py *)
| ImpliedVolatilityError (why : iv_reason)
| ZeroDivisionError
| ValueError
| IndexError.

Inductive result (A : Type) : Type :=
| Ok (a : A)
| Err (e : error).
Arguments Ok {A} a.
Arguments Err {A} e.

(** ** models/base.py *)

Inductive OptionType : Set := CALL | PUT.
Inductive ExerciseStyle : Set := EUROPEAN | AMERICAN.

Record Option : Type := mkOption {
  spot_price : R;
  strike_price : R;
  time_to_expiry : R;
  volatility : R;
  risk_free_rate : R;
  option_type : OptionType;
  exercise_style : ExerciseStyle;
  dividend_yield : R
}.

(** [Field(gt=0)] and [Field(ge=0)]. *)
Definition gt0 (x : R) : bool := if Rlt_dec 0 x then true else false.
Definition ge0 (x : R) : bool := if Rle_dec 0 x then true else false.

(** [validate_time_to_expiry]: raises when [v <= 0]. *)
Definition validate_time_to_expiry (v : R) : bool :=
  if Rle_dec v 0 then false else true.

(** [Option(spot_price=..., ...)]: pydantic checks every field and raises one
    validation error when any check fails. *)
Definition Option_new (spot strike time vol rate : R) (ty : OptionType)
    (style : ExerciseStyle) (div : R) : result Option :=
  if gt0 spot && gt0 strike && (gt0 time && validate_time_to_expiry time)
     && gt0 vol && ge0 div
  then Ok (mkOption spot strike time vol rate ty style div)
  else Err ValidationError.

(** The invariant the constructor establishes. *)
Definition valid_option (o : Option) : Prop :=
  0 < spot_price o /\ 0 < strike_price o /\ 0 < time_to_expiry o /\
  0 < volatility o /\ 0 <= dividend_yield o.

(** The contract rebuilt from [o.model_dump()] with one field replaced: a
    fresh call of the validating constructor. *)
Definition with_spot_price (o : Option) (x : R) : result Option :=
  Option_new x (strike_price o) (time_to_expiry o) (volatility o)
    (risk_free_rate o) (option_type o) (exercise_style o) (dividend_yield o).
Definition with_time_to_expiry (o : Option) (x : R) : result Option :=
  Option_new (spot_price o) (strike_price o) x (volatility o)
    (risk_free_rate o) (option_type o) (exercise_style o) (dividend_yield o).
Definition with_volatility (o : Option) (x : R) : result Option :=
  Option_new (spot_price o) (strike_price o) (time_to_expiry o) x
    (risk_free_rate o) (option_type o) (exercise_style o) (dividend_yield o).
Definition with_risk_free_rate (o : Option) (x : R) : result Option :=
  Option_new (spot_price o) (strike_price o) (time_to_expiry o) (volatility o)
    x (option_type o) (exercise_style o) (dividend_yield o).
Definition with_exercise_style (o : Option) (s : ExerciseStyle) : Option :=
  mkOption (spot_price o) (strike_price o) (time_to_expiry o) (volatility o)
    (risk_free_rate o) (option_type o) s (dividend_yield o).
Definition with_option_type (o : Option) (t : OptionType) : Option :=
  mkOption (spot_price o) (strike_price o) (time_to_expiry o) (volatility o)
    (risk_free_rate o) t (exercise_style o) (dividend_yield o).

Record Greeks : Type := mkGreeks {
  g_delta : R; g_gamma : R; g_theta : R; g_vega : R; g_rho : R
}.

(** ** utils/constants.py *)

Definition CALENDAR_DAYS_PER_YEAR : R := 365.
Definition DEFAULT_NUM_SIMULATIONS : Z := 10000.
Definition DEFAULT_RANDOM_SEED : Z := 42.
Definition DEFAULT_NUM_STEPS : Z := 100.
Definition IV_SOLVER_TOLERANCE : R := 1 / 100000.
Definition IV_SOLVER_MAX_ITERATIONS : Z := 50.
Definition IV_INITIAL_GUESS : R := 3 / 10.
Definition IV_MIN_VALUE : R := 1 / 1000.
Definition IV_MAX_VALUE : R := 5.

(** ** scipy.stats.norm *)

(** What the package calls of [scipy.stats.norm]: the distribution function
    [cdf], the density [pdf] and the quantile function [ppf]. *)
Record Distribution : Type := {
  cdf : R -> R;
  pdf : R -> R;
  ppf : R -> R
}.

(** The standard normal law over the reals: the three functions with the
    symmetry, the strict positivity and the quantile sign of the exact law. *)
Record NormalDist : Type := {
  law :> Distribution;
  cdf_sym : forall x, cdf law x + cdf law (- x) = 1;
  cdf_pos : forall x, 0 < cdf law x;
  pdf_pos : forall x, 0 < pdf law x;
  ppf_pos : forall p, 1 / 2 < p < 1 -> 0 < ppf law p
}.

(** ** models/black_scholes.py *)

Module BlackScholes.
Section WithNorm.
Context (norm : Distribution).

(** [BlackScholesModel.__init__]: the model holds its option; American
    exercise is refused. *)
Definition init (o : Option) : result Option :=
  match exercise_style o with
  | EUROPEAN => Ok o
  | AMERICAN => Err InvalidOptionError
  end.

Definition _calculate_d1_d2 (o : Option) : R * R :=
  let S := spot_price o in
  let K := strike_price o in
  let T := time_to_expiry o in
  let r := risk_free_rate o in
  let q := dividend_yield o in
  let sigma := volatility o in
  let sqrt_T := sqrt T in
  let sigma_sqrt_T := sigma * sqrt_T in
  let d1 := (ln (S / K) + (r - q + (1 / 2) * sigma ^ 2) * T) / sigma_sqrt_T in
  let d2 := d1 - sigma_sqrt_T in
  (d1, d2).

Definition price (o : Option) : R :=
  let '(d1, d2) := _calculate_d1_d2 o in
  let S := spot_price o in
  let K := strike_price o in
  let T := time_to_expiry o in
  let r := risk_free_rate o in
  let q := dividend_yield o in
  let pv_S := S * exp (- q * T) in
  let pv_K := K * exp (- r * T) in
  match option_type o with
  | CALL => pv_S * cdf norm d1 - pv_K * cdf norm d2
  | PUT => pv_K * cdf norm (- d2) - pv_S * cdf norm (- d1)
  end.

Definition delta (o : Option) : R :=
  let '(d1, _) := _calculate_d1_d2 o in
  let q := dividend_yield o in
  let T := time_to_expiry o in
  let discount := exp (- q * T) in
  match option_type o with
  | CALL => discount * cdf norm d1
  | PUT => - discount * cdf norm (- d1)
  end.

Definition gamma (o : Option) : R :=
  let '(d1, _) := _calculate_d1_d2 o in
  let S := spot_price o in
  let T := time_to_expiry o in
  let q := dividend_yield o in
  let sigma := volatility o in
  let discount := exp (- q * T) in
  let sqrt_T := sqrt T in
  let phi_d1 := pdf norm d1 in
  (discount * phi_d1) / (S * sigma * sqrt_T).

Definition theta (o : Option) : R :=
  let '(d1, d2) := _calculate_d1_d2 o in
  let S := spot_price o in
  let K := strike_price o in
  let T := time_to_expiry o in
  let r := risk_free_rate o in
  let q := dividend_yield o in
  let sigma := volatility o in
  let sqrt_T := sqrt T in
  let phi_d1 := pdf norm d1 in
  let term1 := - (S * sigma * exp (- q * T) * phi_d1) / (2 * sqrt_T) in
  let theta_per_year :=
    match option_type o with
    | CALL =>
        let term2 := q * S * exp (- q * T) * cdf norm d1 in
        let term3 := - r * K * exp (- r * T) * cdf norm d2 in
        term1 + term2 + term3
    | PUT =>
        let term2 := - q * S * exp (- q * T) * cdf norm (- d1) in
        let term3 := r * K * exp (- r * T) * cdf norm (- d2) in
        term1 + term2 + term3
    end in
  theta_per_year / CALENDAR_DAYS_PER_YEAR.

Definition vega (o : Option) : R :=
  let '(d1, _) := _calculate_d1_d2 o in
  let S := spot_price o in
  let T := time_to_expiry o in
  let q := dividend_yield o in
  let sqrt_T := sqrt T in
  let phi_d1 := pdf norm d1 in
  let discount := exp (- q * T) in
  S * discount * sqrt_T * phi_d1 / 100.

Definition rho (o : Option) : R :=
  let '(_, d2) := _calculate_d1_d2 o in
  let K := strike_price o in
  let T := time_to_expiry o in
  let r := risk_free_rate o in
  let pv_K := K * exp (- r * T) in
  match option_type o with
  | CALL => pv_K * T * cdf norm d2 / 100
  | PUT => - pv_K * T * cdf norm (- d2) / 100
  end.

Definition greeks (o : Option) : Greeks :=
  mkGreeks (delta o) (gamma o) (theta o) (vega o) (rho o).

End WithNorm.
End BlackScholes.

(** ** models/binomial.py *)

Module Binomial.

Section Lattice.
Variable o : Option.
Variable num_steps : Z.

Definition dt : R := time_to_expiry o / IZR num_steps.
Definition up : R := exp (volatility o * sqrt dt).
Definition down : R := 1 / up.

(** [tree[i, j]] of [_build_stock_tree], for the cells it fills
    ([j <= i <= num_steps]): [j] up moves and [i - j] down moves. *)
Definition stock_tree (i j : nat) : R :=
  spot_price o * (up ^ j) * (down ^ (i - j)).

Definition _calculate_risk_neutral_probability : R :=
  let r := risk_free_rate o in
  let q := dividend_yield o in
  (exp ((r - q) * dt) - down) / (up - down).

Definition _get_payoff (stock_price : R) : R :=
  let K := strike_price o in
  match option_type o with
  | CALL => Rmax (stock_price - K) 0
  | PUT => Rmax (K - stock_price) 0
  end.

Definition discount : R := exp (- risk_free_rate o * dt).

(** The value the backward induction writes to [option_tree[i, j]], from the
    two cells of row [i + 1] it reads. *)
Definition node_value (i j : nat) (v_up v_down : R) : R :=
  let p := _calculate_risk_neutral_probability in
  let hold_value := discount * (p * v_up + (1 - p) * v_down) in
  match exercise_style o with
  | AMERICAN =>
      let exercise_value := _get_payoff (stock_tree i j) in
      Rmax hold_value exercise_value
  | EUROPEAN => hold_value
  end.

(** Row [n] of [option_tree] after the initialisation loop: cells [0..n]. *)
Definition terminal_row (n : nat) : list R :=
  map (fun j => _get_payoff (stock_tree n j)) (seq 0 (n + 1)).

(** Row [i] of [option_tree], computed from row [i + 1]: cells [0..i]. *)
Definition induction_row (i : nat) (next : list R) : list R :=
  map (fun j => node_value i j (nth (j + 1) next 0) (nth j next 0))
      (seq 0 (i + 1)).

(** [for i in range(num_steps - 1, -1, -1)]: from row [k] down to row [0]. *)
Fixpoint backward_induction (k : nat) (row : list R) : list R :=
  match k with
  | O => row
  | S i => backward_induction i (induction_row i row)
  end.

(** [price()].  [num_steps = 0] divides by zero in [T / num_steps]; below
    [-1] [np.zeros] refuses the negative shape; at [-1] the arrays are empty
    and [option_tree[0, 0]] is out of bounds. *)
Definition price : result R :=
  if (num_steps =? 0)%Z then Err ZeroDivisionError
  else if (num_steps <? -1)%Z then Err ValueError
  else if (num_steps =? -1)%Z then Err IndexError
  else
    let n := Z.to_nat num_steps in
    Ok (nth 0 (backward_induction n (terminal_row n)) 0).

End Lattice.
End Binomial.

(** ** numpy.random *)

(** The global generator of [numpy.random]: its state, [seed] and
    [standard_normal(n)], which returns [n] draws and advances the state. *)
Record Generator : Type := {
  gen_state : Type;
  seed : Z -> gen_state;
  standard_normal : nat -> gen_state -> list R * gen_state;
  standard_normal_length :
    forall n g, length (fst (standard_normal n g)) = n
}.

(** ** Computations that read and advance the generator and may raise *)

Definition Run (St A : Type) : Type := St -> result A * St.

Definition ret {St A : Type} (a : A) : Run St A := fun s => (Ok a, s).
Definition raise {St A : Type} (e : error) : Run St A := fun s => (Err e, s).
Definition lift {St A : Type} (r : result A) : Run St A := fun s => (r, s).
Definition bind {St A B : Type} (c : Run St A) (k : A -> Run St B) : Run St B :=
  fun s =>
    match c s with
    | (Ok a, s') => k a s'
    | (Err e, s') => (Err e, s')
    end.

Declare Scope run_scope.
Delimit Scope run_scope with run.
Notation "x <- c ;; k" := (bind c (fun x => k))
  (at level 61, c at next level, right associativity) : run_scope.

(** ** models/monte_carlo.py *)

Definition sum_list (l : list R) : R := fold_right Rplus 0 l.

(** [np.mean].  On an empty sample numpy answers [nan]; such runs are outside
    the model (here the quotient by 0 is a number). *)
Definition mean (l : list R) : R := sum_list l / INR (length l).

(** [np.std(l, ddof=1)]; it needs two values for the same reason. *)
Definition std_ddof1 (l : list R) : R :=
  let m := mean l in
  sqrt (sum_list (map (fun x => (x - m) ^ 2) l) / (INR (length l) - 1)).

Module MonteCarlo.

(** The attributes [__init__] stores. *)
Record config : Type := mkConfig {
  option : Option;
  num_simulations : Z;
  use_antithetic : bool;
  random_seed : Datatypes.option Z
}.

(** [MonteCarloModel(option, num_simulations, use_antithetic, random_seed)];
    an argument the caller leaves out is [None] here and takes its default. *)
Definition init (o : Option) (sims : Datatypes.option Z)
    (anti : Datatypes.option bool)
    (rseed : Datatypes.option (Datatypes.option Z)) : result config :=
  match exercise_style o with
  | AMERICAN => Err InvalidOptionError
  | EUROPEAN =>
      Ok (mkConfig o
            (match sims with Some m => m | None => DEFAULT_NUM_SIMULATIONS end)
            (match anti with Some b => b | None => true end)
            (match rseed with
             | Some s => s
             | None => Some DEFAULT_RANDOM_SEED
             end))
  end.

Section WithGenerator.
Context (gen : Generator).

(** [np.random.seed(s)] accepts [0 <= s < 2**32]. *)
Definition seed_generator (s : Z) : Run (gen_state gen) unit :=
  fun g =>
    if ((0 <=? s) && (s <? 2 ^ 32))%Z then (Ok tt, seed gen s)
    else (Err ValueError, g).

(** [np.random.standard_normal(n)]; a negative size is refused. *)
Definition draw (n : Z) : Run (gen_state gen) (list R) :=
  fun g =>
    if (n <? 0)%Z then (Err ValueError, g)
    else let '(zs, g') := standard_normal gen (Z.to_nat n) g in (Ok zs, g').

Definition _generate_price_paths (m : config) : Run (gen_state gen) (list R) :=
  (_ <- match random_seed m with
        | Some s => seed_generator s
        | None => ret tt
        end ;;
   let S := spot_price (option m) in
   let r := risk_free_rate (option m) in
   let q := dividend_yield (option m) in
   let sigma := volatility (option m) in
   let T := time_to_expiry (option m) in
   let drift := (r - q - (1 / 2) * sigma ^ 2) * T in
   let diffusion := sigma * sqrt T in
   Z_anti <- (if use_antithetic m then
                let n_paths := (num_simulations m / 2)%Z in
                Z <- draw n_paths ;;
                ret (Z ++ map Ropp Z)
              else draw (num_simulations m)) ;;
   ret (map (fun z => S * exp (drift + diffusion * z)) Z_anti))%run.

Definition _calculate_payoffs (m : config) (stock_prices : list R) : list R :=
  let K := strike_price (option m) in
  match option_type (option m) with
  | CALL => map (fun s => Rmax (s - K) 0) stock_prices
  | PUT => map (fun s => Rmax (K - s) 0) stock_prices
  end.

(** [price()], together with the [_standard_error] it stores on the model. *)
Definition price_and_standard_error (m : config)
  : Run (gen_state gen) (R * R) :=
  (ST <- _generate_price_paths m ;;
   let payoffs := _calculate_payoffs m ST in
   let r := risk_free_rate (option m) in
   let T := time_to_expiry (option m) in
   let discount_factor := exp (- r * T) in
   let price := discount_factor * mean payoffs in
   let std_payoffs := std_ddof1 payoffs in
   let standard_error :=
     discount_factor * std_payoffs / sqrt (IZR (num_simulations m)) in
   ret (price, standard_error))%run.

Definition price (m : config) : Run (gen_state gen) R :=
  (ps <- price_and_standard_error m ;; ret (fst ps))%run.

Section WithNorm.
Context (norm : NormalDist).

(** [get_confidence_interval]: both branches call [price()] again, which also
    refreshes [_standard_error]. *)
Definition get_confidence_interval (m : config) (confidence_level : R)
  : Run (gen_state gen) (R * R) :=
  (ps <- price_and_standard_error m ;;
   let price := fst ps in
   let z := ppf norm ((1 + confidence_level) / 2) in
   let margin := z * snd ps in
   ret (price - margin, price + margin))%run.

End WithNorm.
End WithGenerator.
End MonteCarlo.

(** ** The pricing-model interface ([OptionPricingModel]) *)

(** A model object: its class and the attributes its constructor stored. *)
Inductive Model : Type :=
| BlackScholesModel (o : Option)
| BinomialTreeModel (o : Option) (num_steps : Z)
| MonteCarloModel (c : MonteCarlo.config).

(** [model.option]. *)
Definition model_option (m : Model) : Option :=
  match m with
  | BlackScholesModel o => o
  | BinomialTreeModel o _ => o
  | MonteCarloModel c => MonteCarlo.option c
  end.

(** [_get_model_args] followed by [model.__class__(option, *args)]: a model
    of the same class and configuration on another contract. *)
Definition rebuild (m : Model) (o' : Option) : result Model :=
  match m with
  | BlackScholesModel _ =>
      match BlackScholes.init o' with
      | Ok o => Ok (BlackScholesModel o)
      | Err e => Err e
      end
  | BinomialTreeModel _ n => Ok (BinomialTreeModel o' n)
  | MonteCarloModel c =>
      match MonteCarlo.init o' (Some (MonteCarlo.num_simulations c))
              (Some (MonteCarlo.use_antithetic c))
              (Some (MonteCarlo.random_seed c)) with
      | Ok c' => Ok (MonteCarloModel c')
      | Err e => Err e
      end
  end.

Section Engines.
Context (norm : NormalDist) (gen : Generator).

Local Open Scope run_scope.

(** [model.price()], dispatched on the class. *)
Definition model_price (m : Model) : Run (gen_state gen) R :=
  match m with
  | BlackScholesModel o => ret (BlackScholes.price norm o)
  | BinomialTreeModel o n => lift (Binomial.price o n)
  | MonteCarloModel c => MonteCarlo.price gen c
  end.

(** ** greeks/calculator.py *)

Definition calc_delta (m : Model) (h_pct : R) : Run (gen_state gen) R :=
  let original_spot := spot_price (model_option m) in
  let h := original_spot * h_pct in
  option_up <- lift (with_spot_price (model_option m) (original_spot + h)) ;;
  option_down <- lift (with_spot_price (model_option m) (original_spot - h)) ;;
  model_up <- lift (rebuild m option_up) ;;
  model_down <- lift (rebuild m option_down) ;;
  price_up <- model_price model_up ;;
  price_down <- model_price model_down ;;
  ret ((price_up - price_down) / (2 * h)).

Definition calc_gamma (m : Model) (h_pct : R) : Run (gen_state gen) R :=
  let original_spot := spot_price (model_option m) in
  let h := original_spot * h_pct in
  price <- model_price m ;;
  option_up <- lift (with_spot_price (model_option m) (original_spot + h)) ;;
  option_down <- lift (with_spot_price (model_option m) (original_spot - h)) ;;
  model_up <- lift (rebuild m option_up) ;;
  model_down <- lift (rebuild m option_down) ;;
  price_up <- model_price model_up ;;
  price_down <- model_price model_down ;;
  ret ((price_up - 2 * price + price_down) / (h ^ 2)).

Definition calc_theta (m : Model) (h : R) : Run (gen_state gen) R :=
  let original_T := time_to_expiry (model_option m) in
  if Rle_dec original_T h then
    price <- model_price m ;;
    ret (- price / h)
  else
    option_later <-
      lift (with_time_to_expiry (model_option m) (original_T - h)) ;;
    price_now <- model_price m ;;
    model_later <- lift (rebuild m option_later) ;;
    price_later <- model_price model_later ;;
    let theta := (price_later - price_now) / h in
    let theta_per_day := theta * h * CALENDAR_DAYS_PER_YEAR in
    ret theta_per_day.

Definition calc_vega (m : Model) (h : R) : Run (gen_state gen) R :=
  let original_vol := volatility (model_option m) in
  option_up <- lift (with_volatility (model_option m) (original_vol + h)) ;;
  option_down <- lift (with_volatility (model_option m) (original_vol - h)) ;;
  model_up <- lift (rebuild m option_up) ;;
  model_down <- lift (rebuild m option_down) ;;
  price_up <- model_price model_up ;;
  price_down <- model_price model_down ;;
  ret ((price_up - price_down) / 2).

Definition calc_rho (m : Model) (h : R) : Run (gen_state gen) R :=
  let original_rate := risk_free_rate (model_option m) in
  option_up <-
    lift (with_risk_free_rate (model_option m) (original_rate + h)) ;;
  option_down <-
    lift (with_risk_free_rate (model_option m) (original_rate - h)) ;;
  model_up <- lift (rebuild m option_up) ;;
  model_down <- lift (rebuild m option_down) ;;
  price_up <- model_price model_up ;;
  price_down <- model_price model_down ;;
  ret ((price_up - price_down) / 2).

(** The default steps of the five methods. *)
Definition default_h_pct : R := 1 / 100.
Definition default_theta_h : R := 1 / 365.
Definition default_vega_h : R := 1 / 100.
Definition default_rho_h : R := 1 / 100.

(** [calculate_all_greeks]: the keyword arguments of [Greeks(...)] are
    evaluated in the order written. *)
Definition calculate_all_greeks (m : Model) : Run (gen_state gen) Greeks :=
  d <- calc_delta m default_h_pct ;;
  g <- calc_gamma m default_h_pct ;;
  t <- calc_theta m default_theta_h ;;
  v <- calc_vega m default_vega_h ;;
  r <- calc_rho m default_rho_h ;;
  ret (mkGreeks d g t v r).

(** [model.greeks()]: closed form for Black-Scholes, the calculator for the
    lattice and the simulation. *)
Definition model_greeks (m : Model) : Run (gen_state gen) Greeks :=
  match m with
  | BlackScholesModel o => ret (BlackScholes.greeks norm o)
  | BinomialTreeModel _ _ => calculate_all_greeks m
  | MonteCarloModel _ => calculate_all_greeks m
  end.

End Engines.

(** ** volatility/implied.py *)

Module ImpliedVol.
Section WithNorm.
Context (norm : NormalDist).

(** A solver returns its result together with the number of Black-Scholes
    pricings ([model.price()] calls) it has performed. *)
Definition outcome : Type := (result R * nat)%type.

Definition _calculate_intrinsic_value (spot strike time rate : R)
    (ty : OptionType) (div_yield : R) : R :=
  match ty with
  | CALL => Rmax (spot * exp (- div_yield * time)
                  - strike * exp (- rate * time)) 0
  | PUT => Rmax (strike * exp (- rate * time)
                 - spot * exp (- div_yield * time)) 0
  end.

(** [_newton_raphson]; [max_iter] counts the iterations left of
    [for i in range(max_iter)] and [priced] the pricings done so far. *)
Fixpoint _newton_raphson (spot strike time rate target_price : R)
    (ty : OptionType) (div_yield vol tolerance : R) (max_iter priced : nat)
  : outcome :=
  match max_iter with
  | O => (Err (ImpliedVolatilityError NewtonNoConvergence), priced)
  | S iters =>
      match Option_new spot strike time vol rate ty EUROPEAN div_yield with
      | Err e => (Err e, priced)
      | Ok opt =>
          match BlackScholes.init opt with
          | Err e => (Err e, priced)
          | Ok model =>
              let price := BlackScholes.price norm model in
              let vega := BlackScholes.vega norm model in
              let price_diff := price - target_price in
              if Rlt_dec (Rabs price_diff) tolerance then (Ok vol, S priced)
              else if Rlt_dec (Rabs vega) (1 / 10 ^ 10) then
                (Err (ImpliedVolatilityError VegaTooSmall), S priced)
              else
                let vol_update := price_diff / (vega * 100) in
                let vol := vol - vol_update in
                let vol := Rmax IV_MIN_VALUE (Rmin IV_MAX_VALUE vol) in
                _newton_raphson spot strike time rate target_price ty
                  div_yield vol tolerance iters (S priced)
          end
      end
  end.

(** [_bisection_method], from the bracket [vol_low, vol_high]. *)
Fixpoint bisection_loop (spot strike time rate target_price : R)
    (ty : OptionType) (div_yield tolerance vol_low vol_high : R)
    (max_iter priced : nat) : outcome :=
  match max_iter with
  | O => (Err (ImpliedVolatilityError BisectionNoConvergence), priced)
  | S iters =>
      let vol_mid := (vol_low + vol_high) / 2 in
      match Option_new spot strike time vol_mid rate ty EUROPEAN div_yield with
      | Err e => (Err e, priced)
      | Ok opt =>
          match BlackScholes.init opt with
          | Err e => (Err e, priced)
          | Ok model =>
              let price_mid := BlackScholes.price norm model in
              if Rlt_dec (Rabs (price_mid - target_price)) tolerance then
                (Ok vol_mid, S priced)
              else
                let vol_low' :=
                  if Rlt_dec price_mid target_price then vol_mid else vol_low in
                let vol_high' :=
                  if Rlt_dec price_mid target_price then vol_high else vol_mid in
                if Rlt_dec (vol_high' - vol_low') tolerance then
                  (Ok vol_mid, S priced)
                else
                  bisection_loop spot strike time rate target_price ty
                    div_yield tolerance vol_low' vol_high' iters (S priced)
          end
      end
  end.

Definition _bisection_method (spot strike time rate target_price : R)
    (ty : OptionType) (div_yield tolerance : R) (max_iter priced : nat)
  : outcome :=
  bisection_loop spot strike time rate target_price ty div_yield tolerance
    IV_MIN_VALUE IV_MAX_VALUE max_iter priced.

(** [implied_volatility].  [range(max_iterations)] is empty for a negative
    bound, hence [Z.to_nat]. *)
Definition implied_volatility (spot_price strike_price time_to_expiry
    risk_free_rate market_price : R) (ty : OptionType)
    (dividend_yield initial_guess tolerance : R) (max_iterations : Z)
  : outcome :=
  let intrinsic_value :=
    _calculate_intrinsic_value spot_price strike_price time_to_expiry
      risk_free_rate ty dividend_yield in
  if Rlt_dec market_price intrinsic_value then
    (Err (ImpliedVolatilityError BelowIntrinsic), O)
  else if Rle_dec market_price 0 then
    (Err (ImpliedVolatilityError PriceNotPositive), O)
  else if Rlt_dec (market_price - intrinsic_value) (1 / 100) then
    _bisection_method spot_price strike_price time_to_expiry risk_free_rate
      market_price ty dividend_yield tolerance (Z.to_nat max_iterations) O
  else
    match _newton_raphson spot_price strike_price time_to_expiry
            risk_free_rate market_price ty dividend_yield initial_guess
            tolerance (Z.to_nat max_iterations) O with
    | (Err (ImpliedVolatilityError _), priced) =>
        _bisection_method spot_price strike_price time_to_expiry
          risk_free_rate market_price ty dividend_yield tolerance
          (Z.to_nat max_iterations) priced
    | r => r
    end.

(** The two failures raised by the input checks of [implied_volatility]. *)
Definition input_failure (r : result R) : Prop :=
  r = Err (ImpliedVolatilityError BelowIntrinsic) \/
  r = Err (ImpliedVolatilityError PriceNotPositive).

End WithNorm.
End ImpliedVol.

(** ** Instances of the two library interfaces

    The closed examples below run the package on these: the logistic law
    (with the Gaussian density), which has the symmetry, positivity and
    quantile sign the package relies on, and a generator whose draws cycle
    through seven values. *)

Definition logistic_cdf (x : R) : R := 1 / (1 + exp (- x)).
Definition gaussian_pdf (x : R) : R := exp (- (x ^ 2) / 2) / sqrt (2 * PI).
Definition logistic_ppf (p : R) : R := ln (p / (1 - p)).

Definition logistic_law : NormalDist.
Proof.
  refine {| law := {| cdf := logistic_cdf; pdf := gaussian_pdf;
                      ppf := logistic_ppf |} |}.
  - intros x. cbn [cdf]. unfold logistic_cdf.
    rewrite Ropp_involutive.
    pose proof (exp_pos x) as Hx.
    rewrite exp_Ropp.
    field. split; lra.
  - intros x. cbn [cdf]. unfold logistic_cdf.
    pose proof (exp_pos (- x)). apply Rdiv_lt_0_compat; lra.
  - intros x. cbn [pdf]. unfold gaussian_pdf.
    apply Rdiv_lt_0_compat; [apply exp_pos |].
    apply sqrt_lt_R0. pose proof PI_RGT_0. lra.
  - intros p [Hlo Hhi]. cbn [ppf]. unfold logistic_ppf.
    rewrite <- ln_1. apply ln_increasing; [lra |].
    apply Rmult_lt_reg_r with (1 - p); [lra |].
    unfold Rdiv. rewrite Rmult_assoc, Rinv_l by lra. lra.
Defined.

(** [norm.cdf] and [norm.pdf] as binary64 returns them far from 0: the
    distribution function is exactly 1 from 8.5 on (scipy answers 1.0 from
    about 8.3) and the density exactly 0 beyond 39 (it underflows from about
    38.6); in between, the law above. *)
Definition saturated_cdf (x : R) : R :=
  if Rle_dec (17 / 2) x then 1 else logistic_cdf x.
Definition underflowed_pdf (x : R) : R :=
  if Rle_dec 39 (Rabs x) then 0 else gaussian_pdf x.
Definition binary64_law : Distribution :=
  {| cdf := saturated_cdf; pdf := underflowed_pdf; ppf := logistic_ppf |}.

Definition cycle_draw (k : Z) : R := IZR (k mod 7 - 3) / 2.

Definition cycle_generator : Generator.
Proof.
  refine {| gen_state := Z;
            seed := fun s => s;
            standard_normal := fun n g =>
              (map (fun k => cycle_draw (g + Z.of_nat k)) (seq 0 n),
               (g + Z.of_nat n)%Z) |}.
  intros n g. simpl. now rewrite length_map, length_seq.
Defined.

(** ** Sample contracts *)

(** The at-the-money contract of the test fixtures: S = K = 100, T = 1,
    sigma = 0.20, r = 0.05, q = 0, a European call. *)
Definition atm_option : Option :=
  mkOption 100 100 1 (1 / 5) (1 / 20) CALL EUROPEAN 0.

(** A one-week call 20% in the money at 3% volatility: S = 120, K = 100,
    T = 7/365, sigma = 0.03, r = 0.05, q = 0. *)
Definition itm_week_call : Option :=
  mkOption 120 100 (7 / 365) (3 / 100) (1 / 20) CALL EUROPEAN 0.

(** A call far out of the money: S = 1, K = 100, T = 1, sigma = 1, r = q = 0. *)
Definition deep_otm_call : Option :=
  mkOption 1 100 1 1 0 CALL EUROPEAN 0.

(** A two-path antithetic simulation of it, unseeded. *)
Definition deep_otm_model : MonteCarlo.config :=
  MonteCarlo.mkConfig deep_otm_call 2 true None.

(** A call at the money with unit parameters: S = K = 1, T = 1, sigma = 1,
    r = q = 0. *)
Definition unit_call : Option := mkOption 1 1 1 1 0 CALL EUROPEAN 0.

(** ** Engines that can price *)

(** A seed [np.random.seed] accepts, or no seed. *)
Definition seed_accepted (s : option Z) : Prop :=
  match s with
  | None => True
  | Some z => (0 <= z < 2 ^ 32)%Z
  end.

(** A model whose own [price()] does not raise: a valid contract, at least
    one lattice step, a non-negative simulation count and an accepted seed. *)
Definition engine_ready (m : Model) : Prop :=
  valid_option (model_option m) /\
  match m with
  | BlackScholesModel o => exercise_style o = EUROPEAN
  | BinomialTreeModel _ n => (1 <= n)%Z
  | MonteCarloModel c =>
      exercise_style (MonteCarlo.option c) = EUROPEAN /\
      (0 <= MonteCarlo.num_simulations c)%Z /\
      seed_accepted (MonteCarlo.random_seed c)
  end.

(** The engines whose [greeks()] is the numerical calculator. *)
Definition uses_calculator (m : Model) : Prop :=
  match m with
  | BlackScholesModel _ => False
  | _ => True
  end.

(** The at-the-money call with volatility 1%. *)
Definition low_vol_call : Option :=
  mkOption 100 100 1 (1 / 100) (1 / 20) CALL EUROPEAN 0.

(** ** Rows of the lattice as functions *)

(** A row of [option_tree] given by its cells as a function of the column:
    the row above it, and the row [k] levels above. *)
Definition row_above (o : Option) (N : Z) (i : nat) (f : nat -> R)
  : nat -> R :=
  fun j => Binomial.node_value o N i j (f (j + 1)%nat) (f j).

Fixpoint rows_above (o : Option) (N : Z) (k : nat) (f : nat -> R)
  : nat -> R :=
  match k with
  | O => f
  | S i => rows_above o N i (row_above o N i f)
  end.

(** Row [i] of the American and of the European lattice agree, and each
    cell is worth at least the call's exercise value and at least 0. *)
Definition level_agrees (o : Option) (N : Z) (i : nat) (fA fE : nat -> R)
  : Prop :=
  forall j, (j <= i)%nat ->
    fA j = fE j /\
    Binomial.stock_tree o N i j - strike_price o <= fE j /\
    0 <= fE j.

(** A put under a rate so high that the up-probability exceeds 1:
    S = K = 1, T = 2, sigma = 1, r = 2, q = 0. *)
Definition high_rate_put : Option := mkOption 1 1 2 1 2 PUT EUROPEAN 0.
(** A call deep in the money under a negative rate: S = 100, K = 1, T = 1,
    sigma = 1, r = -1, q = 0. *)
Definition negative_rate_call : Option :=
  mkOption 100 1 1 1 (-1) CALL EUROPEAN 0.

(** ** volatility/historical.py *)

Definition TRADING_DAYS_PER_YEAR : R := 252.

(** [np.diff]: the differences of consecutive elements. *)
Fixpoint diff (l : list R) : list R :=
  match l with
  | x :: (y :: _) as rest => (y - x) :: diff rest
  | _ => []
  end.

(** [prices[-(k):]]: the last [k] elements for a positive [k] (not more than
    the length), everything from index [-k] on otherwise. *)
Definition last_from (k : Z) (prices : list R) : list R :=
  if (0 <? k)%Z then skipn (length prices - Z.to_nat k) prices
  else skipn (Z.to_nat (- k)) prices.

(** [historical_volatility(prices, window, annualize)] on an array. *)
Definition historical_volatility (prices : list R) (window : Z)
    (annualize : bool) : result R :=
  if (Z.of_nat (length prices) <? window + 1)%Z then Err ValueError
  else
    let recent_prices := last_from (window + 1) prices in
    let log_returns := diff (map ln recent_prices) in
    let volatility := std_ddof1 log_returns in
    Ok (if annualize then volatility * sqrt TRADING_DAYS_PER_YEAR
        else volatility).

(** ** Further notions used in the properties *)

(** A bracket [lo, hi] the bisection can hold after [k] halvings of
    [0.001, 5]: a cell of the [k]-th dyadic subdivision, whose lower end is
    0.001 or a volatility priced below the target, and whose upper end is 5
    or a volatility priced at or above it. *)
Definition bisection_bracket (price_at : R -> R) (target lo hi : R)
    (k : nat) : Prop :=
  let width := (IV_MAX_VALUE - IV_MIN_VALUE) / 2 ^ k in
  (exists j : nat, lo = IV_MIN_VALUE + INR j * width) /\
  hi = lo + width /\
  hi <= IV_MAX_VALUE /\
  (lo = IV_MIN_VALUE \/ price_at lo < target) /\
  (hi = IV_MAX_VALUE \/ target <= price_at hi).

(** Scaling spot and strike by the same positive factor. *)
Definition scale_contract (lambda : R) (o : Option) : result Option :=
  Option_new (lambda * spot_price o) (lambda * strike_price o)
    (time_to_expiry o) (volatility o) (risk_free_rate o) (option_type o)
    (exercise_style o) (dividend_yield o).

(** With [m] steps left to expiry, a call cell exceeds the put cell of row
    [i] by the dividend-discounted node price less the discounted strike. *)
Definition level_parity (o : Option) (N : Z) (i m : nat) (fC fP : nat -> R)
  : Prop :=
  forall j, (j <= i)%nat ->
    fC j - fP j
    = Binomial.stock_tree o N i j
      * exp (- dividend_yield o * Binomial.dt o N) ^ m
      - strike_price o * Binomial.discount o N ^ m.

(** A computation whose result does not depend on the generator state. *)
Definition state_blind {St A : Type} (c : Run St A) : Prop :=
  forall s1 s2, fst (c s1) = fst (c s2).

(** A model that reads the generator only after seeding it, if at all. *)
Definition reproducible (m : Model) : Prop :=
  match m with
  | MonteCarloModel c => MonteCarlo.random_seed c <> None
  | _ => True
  end.

(** The at-the-money put of the fixtures, simulated with the defaults. *)
Definition atm_put_model : MonteCarlo.config :=
  MonteCarlo.mkConfig (with_option_type atm_option PUT)
    DEFAULT_NUM_SIMULATIONS true (Some DEFAULT_RANDOM_SEED).

(** Four daily closing prices. *)
Definition sample_prices : list R := [100; 101; 102; 103].

(** * Properties *)

(** ** Real-number facts used below *)

Lemma cdf_lt_1 (norm : NormalDist) (x : R) : cdf norm x < 1.
Proof.
  pose proof (cdf_sym norm x) as Hs.
  pose proof (cdf_pos norm (- x)) as Hp.
  lra.
Qed.

Lemma exp_nonpos_le_1 (x : R) : x <= 0 -> exp x <= 1.
Proof.
  intros [Hlt | Heq].
  - left. rewrite <- exp_0. now apply exp_increasing.
  - subst x. rewrite exp_0. lra.
Qed.

Lemma exp_pos_gt_1 (x : R) : 0 < x -> 1 < exp x.
Proof.
  intros Hx. rewrite <- exp_0. now apply exp_increasing.
Qed.

Lemma Rmax_nonneg_r (x : R) : 0 <= Rmax x 0.
Proof. apply Rmax_r. Qed.

(** ** The option contract *)

Lemma Option_new_ok_iff (spot strike time vol rate : R) (ty : OptionType)
    (style : ExerciseStyle) (div : R) :
  0 < spot /\ 0 < strike /\ 0 < time /\ 0 < vol /\ 0 <= div <->
  Option_new spot strike time vol rate ty style div
  = Ok (mkOption spot strike time vol rate ty style div).
Proof.
  unfold Option_new, gt0, ge0, validate_time_to_expiry.
  split.
  - intros (H1 & H2 & H3 & H4 & H5).
    destruct (Rlt_dec 0 spot); [| lra].
    destruct (Rlt_dec 0 strike); [| lra].
    destruct (Rlt_dec 0 time); [| lra].
    destruct (Rle_dec time 0); [lra |].
    destruct (Rlt_dec 0 vol); [| lra].
    destruct (Rle_dec 0 div); [| lra].
    reflexivity.
  - destruct (Rlt_dec 0 spot); [| discriminate].
    destruct (Rlt_dec 0 strike); [| discriminate].
    destruct (Rlt_dec 0 time); [| discriminate].
    destruct (Rle_dec time 0); [discriminate |].
    destruct (Rlt_dec 0 vol); [| discriminate].
    destruct (Rle_dec 0 div); [| discriminate].
    intros _. repeat split; assumption.
Qed.

Lemma Option_new_cases (spot strike time vol rate : R) (ty : OptionType)
    (style : ExerciseStyle) (div : R) :
  Option_new spot strike time vol rate ty style div
  = Ok (mkOption spot strike time vol rate ty style div)
  \/ Option_new spot strike time vol rate ty style div = Err ValidationError.
Proof.
  unfold Option_new.
  destruct (gt0 spot && gt0 strike && (gt0 time && validate_time_to_expiry time)
            && gt0 vol && ge0 div); auto.
Qed.

Lemma Option_new_invalid (spot strike time vol rate : R) (ty : OptionType)
    (style : ExerciseStyle) (div : R) :
  spot <= 0 \/ strike <= 0 \/ time <= 0 \/ vol <= 0 \/ div < 0 ->
  Option_new spot strike time vol rate ty style div = Err ValidationError.
Proof.
  intros Hbad.
  destruct (Option_new_cases spot strike time vol rate ty style div)
    as [Hok | Herr]; [| exact Herr].
  apply Option_new_ok_iff in Hok. lra.
Qed.

Lemma Option_new_valid (spot strike time vol rate : R) (ty : OptionType)
    (style : ExerciseStyle) (div : R) (o : Option) :
  Option_new spot strike time vol rate ty style div = Ok o -> valid_option o.
Proof.
  intros Hnew.
  destruct (Option_new_cases spot strike time vol rate ty style div)
    as [Hok | Herr]; [| congruence].
  pose proof Hok as Hfields. apply Option_new_ok_iff in Hfields.
  rewrite Hok in Hnew. injection Hnew as <-.
  exact Hfields.
Qed.

(** C9. Constructing an Option with [time_to_expiry = 0] fails with a
    validation error, and so does every construction with a non-positive
    spot, strike, time or volatility or a negative dividend yield; an Option
    the constructor returns satisfies the invariant.  Constructing a
    Black-Scholes model on an American option fails with an invalid-option
    error: no model exists to be priced. *)
Theorem option_validated_at_construction :
  (forall spot strike vol rate ty style div,
      Option_new spot strike 0 vol rate ty style div = Err ValidationError) /\
  (forall spot strike time vol rate ty style div,
      spot <= 0 \/ strike <= 0 \/ time <= 0 \/ vol <= 0 \/ div < 0 ->
      Option_new spot strike time vol rate ty style div = Err ValidationError) /\
  (forall spot strike time vol rate ty style div o,
      Option_new spot strike time vol rate ty style div = Ok o ->
      valid_option o) /\
  (forall o,
      exercise_style o = AMERICAN ->
      BlackScholes.init o = Err InvalidOptionError).
Proof.
  split; [| split; [| split]].
  - intros. apply Option_new_invalid. lra.
  - intros. now apply Option_new_invalid.
  - intros. eapply Option_new_valid; eassumption.
  - intros o Hstyle. unfold BlackScholes.init. now rewrite Hstyle.
Qed.

(** ** Black-Scholes *)

Section BlackScholesFacts.
Context (norm : NormalDist).

Lemma cdf_neg (x : R) : cdf norm (- x) = 1 - cdf norm x.
Proof. pose proof (cdf_sym norm x). lra. Qed.

(** Put-call parity holds exactly over the reals. *)
Lemma parity_exact (o : Option) :
  BlackScholes.price norm (with_option_type o CALL)
  - BlackScholes.price norm (with_option_type o PUT)
  = spot_price o * exp (- dividend_yield o * time_to_expiry o)
    - strike_price o * exp (- risk_free_rate o * time_to_expiry o).
Proof.
  unfold BlackScholes.price, BlackScholes._calculate_d1_d2; simpl.
  rewrite !cdf_neg. ring.
Qed.

End BlackScholesFacts.

(** C1. For a valid European contract the Black-Scholes call price minus the
    put price on the same parameters is within 1e-2 of
    [spot * e^(-q*time) - strike * e^(-rate*time)]; with [q = 0] that is
    [spot - strike * e^(-rate*time)]. *)
Theorem put_call_parity (norm : NormalDist) (o c p : Option) :
  valid_option o ->
  BlackScholes.init (with_option_type o CALL) = Ok c ->
  BlackScholes.init (with_option_type o PUT) = Ok p ->
  Rabs (BlackScholes.price norm c - BlackScholes.price norm p
        - (spot_price o * exp (- dividend_yield o * time_to_expiry o)
           - strike_price o * exp (- risk_free_rate o * time_to_expiry o)))
  < 1 / 100
  /\ (dividend_yield o = 0 ->
      Rabs (BlackScholes.price norm c - BlackScholes.price norm p
            - (spot_price o
               - strike_price o * exp (- risk_free_rate o * time_to_expiry o)))
      < 1 / 100).
Proof.
  intros _ Hc Hp.
  unfold BlackScholes.init in Hc, Hp; simpl in Hc, Hp.
  destruct (exercise_style o); [| discriminate].
  injection Hc as <-. injection Hp as <-.
  pose proof (parity_exact norm o) as Hpar.
  split.
  - rewrite Hpar.
    replace (_ - _ - (_ - _)) with 0 by ring.
    rewrite Rabs_R0. lra.
  - intros Hq. rewrite Hpar, Hq.
    replace (- 0 * time_to_expiry o) with 0 by ring.
    rewrite exp_0.
    replace (_ - _ - (_ - _)) with 0 by ring.
    rewrite Rabs_R0. lra.
Qed.

Lemma atm_option_valid : valid_option atm_option.
Proof. unfold valid_option, atm_option; simpl. lra. Qed.

Lemma put_call_parity_witness :
  Rabs (BlackScholes.price logistic_law (with_option_type atm_option CALL)
        - BlackScholes.price logistic_law (with_option_type atm_option PUT)
        - (spot_price atm_option
             * exp (- dividend_yield atm_option * time_to_expiry atm_option)
           - strike_price atm_option
             * exp (- risk_free_rate atm_option * time_to_expiry atm_option)))
  < 1 / 100
  /\ (dividend_yield atm_option = 0 ->
      Rabs (BlackScholes.price logistic_law (with_option_type atm_option CALL)
            - BlackScholes.price logistic_law (with_option_type atm_option PUT)
            - (spot_price atm_option
               - strike_price atm_option
                 * exp (- risk_free_rate atm_option
                        * time_to_expiry atm_option)))
      < 1 / 100).
Proof.
  apply (put_call_parity logistic_law atm_option).
  - exact atm_option_valid.
  - reflexivity.
  - reflexivity.
Defined.

Lemma option_validated_at_construction_witness :
  Option_new 100 100 0 (1 / 5) (1 / 20) CALL EUROPEAN 0 = Err ValidationError
  /\ Option_new 100 100 1 (- (1 / 5)) (1 / 20) CALL EUROPEAN 0
     = Err ValidationError
  /\ BlackScholes.init (with_exercise_style atm_option AMERICAN)
     = Err InvalidOptionError.
Proof.
  destruct option_validated_at_construction as (Hzero & Hbad & _ & Hstyle).
  split; [| split].
  - apply Hzero.
  - apply Hbad. right; right; right; left. lra.
  - apply Hstyle. reflexivity.
Defined.

Section GreeksSigns.
Context (norm : Distribution).
Variable o : Option.
Hypothesis Hvalid : valid_option o.

Let q := dividend_yield o.
Let T := time_to_expiry o.
Let d1 := fst (BlackScholes._calculate_d1_d2 o).
Let d2 := snd (BlackScholes._calculate_d1_d2 o).

Lemma dividend_discount_bounds : 0 < exp (- q * T) <= 1.
Proof.
  destruct Hvalid as (_ & _ & HT & _ & Hq). fold q in Hq. fold T in HT.
  split; [apply exp_pos |].
  apply exp_nonpos_le_1. nra.
Qed.

Lemma sqrt_time_pos : 0 < sqrt T.
Proof.
  destruct Hvalid as (_ & _ & HT & _). now apply sqrt_lt_R0.
Qed.

(** Each Greek is a positive factor times one value of the law. *)
Lemma call_delta_factor :
  BlackScholes.delta norm (with_option_type o CALL)
  = exp (- q * T) * cdf norm d1.
Proof. reflexivity. Qed.

Lemma put_delta_factor :
  BlackScholes.delta norm (with_option_type o PUT)
  = - (exp (- q * T) * cdf norm (- d1)).
Proof.
  unfold BlackScholes.delta, d1, q, T, BlackScholes._calculate_d1_d2; simpl.
  ring.
Qed.

Lemma gamma_factor (ty : OptionType) :
  exists k, 0 < k /\
    BlackScholes.gamma norm (with_option_type o ty) = k * pdf norm d1.
Proof.
  pose proof dividend_discount_bounds as [Hd0 _].
  pose proof sqrt_time_pos as Hs.
  destruct Hvalid as (HS & _ & _ & Hsig & _).
  exists (exp (- q * T) / (spot_price o * volatility o * sqrt T)). split.
  - apply Rdiv_lt_0_compat; [exact Hd0 |].
    repeat apply Rmult_lt_0_compat; assumption.
  - unfold BlackScholes.gamma, d1, BlackScholes._calculate_d1_d2; simpl.
    fold q T. unfold Rdiv. ring.
Qed.

Lemma vega_factor (ty : OptionType) :
  exists k, 0 < k /\
    BlackScholes.vega norm (with_option_type o ty) = k * pdf norm d1.
Proof.
  pose proof dividend_discount_bounds as [Hd0 _].
  pose proof sqrt_time_pos as Hs.
  destruct Hvalid as (HS & _).
  exists (spot_price o * exp (- q * T) * sqrt T / 100). split.
  - apply Rdiv_lt_0_compat; [| lra].
    repeat apply Rmult_lt_0_compat; assumption.
  - unfold BlackScholes.vega, d1, BlackScholes._calculate_d1_d2; simpl.
    fold q T. unfold Rdiv. ring.
Qed.

Lemma rho_factor :
  exists k, 0 < k /\
    BlackScholes.rho norm (with_option_type o CALL) = k * cdf norm d2 /\
    BlackScholes.rho norm (with_option_type o PUT) = - (k * cdf norm (- d2)).
Proof.
  destruct Hvalid as (_ & HK & HT & _).
  exists (strike_price o * exp (- risk_free_rate o * time_to_expiry o)
          * time_to_expiry o / 100).
  split; [| split].
  - apply Rdiv_lt_0_compat; [| lra].
    repeat apply Rmult_lt_0_compat; try assumption. apply exp_pos.
  - unfold BlackScholes.rho, d2, BlackScholes._calculate_d1_d2; simpl.
    unfold Rdiv. ring.
  - unfold BlackScholes.rho, d2, BlackScholes._calculate_d1_d2; simpl.
    unfold Rdiv. ring.
Qed.

Lemma gamma_vega_same_for_call_and_put :
  BlackScholes.gamma norm (with_option_type o CALL)
  = BlackScholes.gamma norm (with_option_type o PUT) /\
  BlackScholes.vega norm (with_option_type o CALL)
  = BlackScholes.vega norm (with_option_type o PUT).
Proof. split; reflexivity. Qed.

End GreeksSigns.

(** The one-week call of the example exceeds both thresholds of
    [binary64_law]: its [d1] is above 39. *)
Lemma ln_six_fifths : 1 / 6 <= ln (120 / 100).
Proof.
  destruct (Rle_dec (1 / 6) (ln (120 / 100))) as [H | H]; [exact H |].
  exfalso. apply Rnot_le_lt in H.
  apply exp_increasing in H. rewrite exp_ln in H by lra.
  pose proof (exp_ineq1_le (- (1 / 6))) as Hlow.
  pose proof (exp_pos (1 / 6)) as Hpos.
  assert (exp (1 / 6) * exp (- (1 / 6)) = 1) as Hone.
  { rewrite <- exp_plus. replace (1 / 6 + - (1 / 6)) with 0 by lra.
    apply exp_0. }
  nra.
Qed.

Lemma sqrt_week : 0 < sqrt (7 / 365) <= 277 / 2000.
Proof.
  split; [apply sqrt_lt_R0; lra |].
  rewrite <- (sqrt_square (277 / 2000)) by lra.
  apply sqrt_le_1_alt. lra.
Qed.

Lemma itm_week_call_d1 :
  39 <= fst (BlackScholes._calculate_d1_d2 itm_week_call).
Proof.
  unfold BlackScholes._calculate_d1_d2, itm_week_call; simpl.
  pose proof ln_six_fifths as Hln. pose proof sqrt_week as [Hs0 Hs1].
  match goal with
  | |- 39 <= ?n / ?d =>
      assert (0 < d) as Hd by nra;
      assert (39 * d <= n) as Hn by nra;
      clear Hln Hs0 Hs1;
      generalize dependent n; generalize dependent d
  end.
  intros d' Hd n' Hn.
  apply Rmult_le_reg_r with d'; [exact Hd |].
  unfold Rdiv. rewrite Rmult_assoc, Rinv_l by lra. lra.
Qed.

Lemma binary64_law_bounded :
  (forall x, 0 <= cdf binary64_law x <= 1) /\
  (forall x, 0 <= pdf binary64_law x).
Proof.
  split; intros x; simpl.
  - unfold saturated_cdf. destruct (Rle_dec (17 / 2) x); [lra |].
    pose proof (cdf_pos logistic_law x). pose proof (cdf_lt_1 logistic_law x).
    simpl in *. lra.
  - unfold underflowed_pdf. destruct (Rle_dec 39 (Rabs x)); [lra |].
    pose proof (pdf_pos logistic_law x). simpl in *. lra.
Qed.

(** C8 (as amended). For a valid European contract, with [norm.cdf] in
    [0, 1] and [norm.pdf] not negative: call delta in [0,1], put delta in
    [-1,0]; gamma >= 0 and the same for the call and the put; vega >= 0 and
    the same for both; call rho >= 0, put rho <= 0.  Each bound is strict
    where the law is: call delta in (0,1) when [0 < cdf d1 < 1], put delta
    in (-1,0) when [0 < cdf (-d1) < 1], gamma and vega positive when
    [0 < pdf d1], call rho positive when [0 < cdf d2] and put rho negative
    when [0 < cdf (-d2)], as for the exact normal law. *)
Theorem black_scholes_greeks_signs (norm : Distribution) (o c p : Option) :
  valid_option o ->
  (forall x, 0 <= cdf norm x <= 1) ->
  (forall x, 0 <= pdf norm x) ->
  BlackScholes.init (with_option_type o CALL) = Ok c ->
  BlackScholes.init (with_option_type o PUT) = Ok p ->
  let d1 := fst (BlackScholes._calculate_d1_d2 o) in
  let d2 := snd (BlackScholes._calculate_d1_d2 o) in
  (0 <= BlackScholes.delta norm c <= 1 /\
   -1 <= BlackScholes.delta norm p <= 0 /\
   0 <= BlackScholes.gamma norm c /\
   BlackScholes.gamma norm c = BlackScholes.gamma norm p /\
   0 <= BlackScholes.vega norm c /\
   BlackScholes.vega norm c = BlackScholes.vega norm p /\
   0 <= BlackScholes.rho norm c /\
   BlackScholes.rho norm p <= 0) /\
  (0 < cdf norm d1 < 1 -> 0 < BlackScholes.delta norm c < 1) /\
  (0 < cdf norm (- d1) < 1 -> -1 < BlackScholes.delta norm p < 0) /\
  (0 < pdf norm d1 ->
   0 < BlackScholes.gamma norm c /\ 0 < BlackScholes.vega norm c) /\
  (0 < cdf norm d2 -> 0 < BlackScholes.rho norm c) /\
  (0 < cdf norm (- d2) -> BlackScholes.rho norm p < 0).
Proof.
  intros Hvalid Hcdf Hpdf Hc Hp d1 d2.
  unfold BlackScholes.init in Hc, Hp; simpl in Hc, Hp.
  destruct (exercise_style o); [| discriminate].
  injection Hc as <-. injection Hp as <-.
  pose proof (dividend_discount_bounds o Hvalid) as [Hd0 Hd1].
  rewrite (call_delta_factor norm o), (put_delta_factor norm o).
  destruct (gamma_vega_same_for_call_and_put norm o) as [<- <-].
  destruct (gamma_factor norm o Hvalid CALL) as (kg & Hkg & ->).
  destruct (vega_factor norm o Hvalid CALL) as (kv & Hkv & ->).
  destruct (rho_factor norm o Hvalid) as (kr & Hkr & -> & ->).
  fold d1 d2.
  pose proof (Hcdf d1) as H1. pose proof (Hcdf (- d1)) as H1'.
  pose proof (Hcdf d2) as H2. pose proof (Hcdf (- d2)) as H2'.
  pose proof (Hpdf d1) as H3.
  split; [repeat split; try reflexivity; nra |].
  repeat split; intros; nra.
Qed.

Lemma itm_week_call_valid : valid_option itm_week_call.
Proof. unfold valid_option, itm_week_call; simpl. lra. Qed.

Lemma black_scholes_greeks_signs_witness :
  (let c := with_option_type atm_option CALL in
   let p := with_option_type atm_option PUT in
   0 < BlackScholes.delta logistic_law c < 1 /\
   -1 < BlackScholes.delta logistic_law p < 0 /\
   0 < BlackScholes.gamma logistic_law c /\
   BlackScholes.gamma logistic_law c = BlackScholes.gamma logistic_law p /\
   0 < BlackScholes.vega logistic_law c /\
   BlackScholes.vega logistic_law c = BlackScholes.vega logistic_law p /\
   0 < BlackScholes.rho logistic_law c /\
   BlackScholes.rho logistic_law p < 0) /\
  (0 <= BlackScholes.delta binary64_law itm_week_call <= 1 /\
   0 <= BlackScholes.gamma binary64_law itm_week_call /\
   0 <= BlackScholes.vega binary64_law itm_week_call /\
   0 <= BlackScholes.rho binary64_law itm_week_call).
Proof.
  split.
  - intros c p.
    assert (forall x, 0 < cdf logistic_law x < 1) as Hin
      by (intros x; split; [apply cdf_pos | apply cdf_lt_1]).
    destruct (black_scholes_greeks_signs logistic_law atm_option c p)
      as ((_ & _ & _ & Hg & _ & Hv & _) & Hdc & Hdp & Hgv & Hrc & Hrp).
    + exact atm_option_valid.
    + intros x. destruct (Hin x). lra.
    + intros x. left. apply pdf_pos.
    + reflexivity.
    + reflexivity.
    + destruct (Hgv (pdf_pos logistic_law _)) as [Hgp Hvp].
      repeat split;
        solve [ apply Hdc, Hin | apply Hdp, Hin | exact Hgp | exact Hg
              | exact Hvp | exact Hv | apply Hrc, Hin | apply Hrp, Hin ].
  - destruct (black_scholes_greeks_signs binary64_law itm_week_call
                itm_week_call (with_option_type itm_week_call PUT))
      as ((Hd & _ & Hg & _ & Hv & _ & Hr & _) & _).
    + exact itm_week_call_valid.
    + exact (proj1 binary64_law_bounded).
    + exact (proj2 binary64_law_bounded).
    + reflexivity.
    + reflexivity.
    + repeat split; solve [apply Hd | exact Hg | exact Hv | exact Hr].
Defined.

(** C8 (as stated) fails in binary64: on a one-week call 20% in the money
    at 3% volatility [norm.cdf(d1)] is exactly 1 and [norm.pdf(d1)] exactly
    0, so delta is 1, and gamma and vega are 0. *)
Lemma greeks_bounds_are_attained :
  valid_option itm_week_call /\
  BlackScholes.delta binary64_law itm_week_call = 1 /\
  BlackScholes.gamma binary64_law itm_week_call = 0 /\
  BlackScholes.vega binary64_law itm_week_call = 0.
Proof.
  pose proof itm_week_call_d1 as Hd1.
  assert (cdf binary64_law (fst (BlackScholes._calculate_d1_d2 itm_week_call))
          = 1) as Hcdf.
  { cbn [cdf binary64_law]. unfold saturated_cdf.
    destruct (Rle_dec (17 / 2) _) as [_ | H]; [reflexivity | lra]. }
  assert (pdf binary64_law (fst (BlackScholes._calculate_d1_d2 itm_week_call))
          = 0) as Hpdf.
  { cbn [pdf binary64_law]. unfold underflowed_pdf.
    destruct (Rle_dec 39 (Rabs _)) as [_ | H]; [reflexivity |].
    exfalso. apply H. rewrite Rabs_right; lra. }
  pose proof itm_week_call_valid as Hvalid.
  split; [exact Hvalid |].
  split; [| split].
  - change itm_week_call with (with_option_type itm_week_call CALL) at 1.
    rewrite call_delta_factor, Hcdf.
    unfold itm_week_call; simpl.
    replace (- 0 * (7 / 365)) with 0 by lra. rewrite exp_0. lra.
  - change itm_week_call with (with_option_type itm_week_call CALL) at 1.
    destruct (gamma_factor binary64_law itm_week_call Hvalid CALL)
      as (k & _ & ->).
    rewrite Hpdf. lra.
  - change itm_week_call with (with_option_type itm_week_call CALL) at 1.
    destruct (vega_factor binary64_law itm_week_call Hvalid CALL)
      as (k & _ & ->).
    rewrite Hpdf. lra.
Qed.

(** ** Monte Carlo *)

Section MonteCarloFacts.
Context (gen : Generator).

Lemma draw_length (n : Z) (g g' : gen_state gen) (zs : list R) :
  MonteCarlo.draw gen n g = (Ok zs, g') -> length zs = Z.to_nat n.
Proof.
  unfold MonteCarlo.draw.
  destruct (n <? 0)%Z; [discriminate |].
  pose proof (standard_normal_length gen (Z.to_nat n) g) as Hlen.
  destruct (standard_normal gen (Z.to_nat n) g) as [zs0 g0]; simpl in Hlen.
  intros Heq. injection Heq as <- _. exact Hlen.
Qed.

(** Without a seed the generator is used as it stands. *)
Lemma unseeded_antithetic_paths (o : Option) (sims : Z) (g : gen_state gen) :
  (0 <= sims / 2)%Z ->
  exists zs g',
    standard_normal gen (Z.to_nat (sims / 2)) g = (zs, g') /\
    MonteCarlo._generate_price_paths gen
      (MonteCarlo.mkConfig o sims true None) g
    = (Ok (map (fun z =>
                  spot_price o
                  * exp ((risk_free_rate o - dividend_yield o
                          - 1 / 2 * volatility o ^ 2) * time_to_expiry o
                         + volatility o * sqrt (time_to_expiry o) * z))
               (zs ++ map Ropp zs)), g').
Proof.
  intros Hn.
  destruct (standard_normal gen (Z.to_nat (sims / 2)) g) as [zs g'] eqn:Hdraw.
  exists zs, g'. split; [reflexivity |].
  unfold MonteCarlo._generate_price_paths, bind, ret, MonteCarlo.draw; simpl.
  destruct (sims / 2 <? 0)%Z eqn:Hneg; [apply Z.ltb_lt in Hneg; lia |].
  rewrite Hdraw. reflexivity.
Qed.

(** With antithetic variates the number of terminal prices is twice
    [num_simulations // 2]. *)
Lemma antithetic_path_count (c : MonteCarlo.config) (g g' : gen_state gen)
    (paths : list R) :
  MonteCarlo.use_antithetic c = true ->
  MonteCarlo._generate_price_paths gen c g = (Ok paths, g') ->
  length paths = (2 * Z.to_nat (MonteCarlo.num_simulations c / 2))%nat.
Proof.
  intros Hanti.
  unfold MonteCarlo._generate_price_paths, bind, ret. rewrite Hanti.
  destruct (match MonteCarlo.random_seed c with
            | Some s => MonteCarlo.seed_generator gen s
            | None => fun s => (Ok tt, s)
            end g) as [[[] | e] g0]; [| discriminate].
  destruct (MonteCarlo.draw gen (MonteCarlo.num_simulations c / 2) g0)
    as [[zs | e] g1] eqn:Hdraw; [| discriminate].
  apply draw_length in Hdraw.
  intros Heq. injection Heq as <- _.
  rewrite length_map, length_app, length_map. lia.
Qed.

(** Without them it is [num_simulations]. *)
Lemma plain_path_count (c : MonteCarlo.config) (g g' : gen_state gen)
    (paths : list R) :
  MonteCarlo.use_antithetic c = false ->
  MonteCarlo._generate_price_paths gen c g = (Ok paths, g') ->
  length paths = Z.to_nat (MonteCarlo.num_simulations c).
Proof.
  intros Hanti.
  unfold MonteCarlo._generate_price_paths, bind, ret. rewrite Hanti.
  destruct (match MonteCarlo.random_seed c with
            | Some s => MonteCarlo.seed_generator gen s
            | None => fun s => (Ok tt, s)
            end g) as [[[] | e] g0]; [| discriminate].
  destruct (MonteCarlo.draw gen (MonteCarlo.num_simulations c) g0)
    as [[zs | e] g1] eqn:Hdraw; [| discriminate].
  apply draw_length in Hdraw.
  intros Heq. injection Heq as <- _.
  now rewrite length_map.
Qed.

(** A run prices on the payoffs of the generated paths. *)
Lemma run_from_paths (c : MonteCarlo.config) (g g' : gen_state gen)
    (paths : list R) :
  MonteCarlo._generate_price_paths gen c g = (Ok paths, g') ->
  MonteCarlo.price_and_standard_error gen c g
  = (Ok (exp (- risk_free_rate (MonteCarlo.option c)
              * time_to_expiry (MonteCarlo.option c))
         * mean (MonteCarlo._calculate_payoffs c paths),
         exp (- risk_free_rate (MonteCarlo.option c)
              * time_to_expiry (MonteCarlo.option c))
         * std_ddof1 (MonteCarlo._calculate_payoffs c paths)
         / sqrt (IZR (MonteCarlo.num_simulations c))), g').
Proof.
  intros Hpaths.
  unfold MonteCarlo.price_and_standard_error, bind, ret.
  now rewrite Hpaths.
Qed.

Lemma payoffs_length (c : MonteCarlo.config) (paths : list R) :
  length (MonteCarlo._calculate_payoffs c paths) = length paths.
Proof.
  unfold MonteCarlo._calculate_payoffs.
  destruct (option_type (MonteCarlo.option c)); apply length_map.
Qed.

(** A seeded model resets the generator before drawing. *)
Lemma seeded_paths_ignore_state (c : MonteCarlo.config) (s : Z)
    (g1 g2 : gen_state gen) :
  MonteCarlo.random_seed c = Some s ->
  fst (MonteCarlo._generate_price_paths gen c g1)
  = fst (MonteCarlo._generate_price_paths gen c g2).
Proof.
  intros Hseed.
  unfold MonteCarlo._generate_price_paths, bind. rewrite Hseed.
  unfold MonteCarlo.seed_generator.
  destruct ((0 <=? s) && (s <? 2 ^ 32))%Z; reflexivity.
Qed.

Lemma seeded_run_ignores_state (c : MonteCarlo.config) (s : Z)
    (g1 g2 : gen_state gen) :
  MonteCarlo.random_seed c = Some s ->
  fst (MonteCarlo.price gen c g1) = fst (MonteCarlo.price gen c g2).
Proof.
  intros Hseed.
  pose proof (seeded_paths_ignore_state c s g1 g2 Hseed) as Hpaths.
  unfold MonteCarlo.price, MonteCarlo.price_and_standard_error, bind, ret.
  destruct (MonteCarlo._generate_price_paths gen c g1) as [[p1 | e1] h1];
    destruct (MonteCarlo._generate_price_paths gen c g2) as [[p2 | e2] h2];
    simpl in Hpaths; try discriminate.
  - injection Hpaths as <-. reflexivity.
  - injection Hpaths as <-. reflexivity.
Qed.

End MonteCarloFacts.

(** C7. A Monte Carlo model built with a seed (or with the seed argument
    left out, which takes the default 42) returns the same price from two
    calls of [price()], whatever state the generator is in at each call. *)
Theorem seeded_price_deterministic (gen : Generator) (o : Option)
    (sims : option Z) (anti : option bool) (rseed : option (option Z))
    (c : MonteCarlo.config) (g1 g2 : gen_state gen) :
  MonteCarlo.init o sims anti rseed = Ok c ->
  rseed <> Some None ->
  (rseed = None -> MonteCarlo.random_seed c = Some 42%Z) /\
  fst (MonteCarlo.price gen c g1) = fst (MonteCarlo.price gen c g2).
Proof.
  intros Hinit Hseed.
  unfold MonteCarlo.init in Hinit.
  destruct (exercise_style o); [| discriminate].
  injection Hinit as <-.
  split.
  - intros ->. reflexivity.
  - destruct rseed as [[s |] |].
    + now apply seeded_run_ignores_state with s.
    + congruence.
    + now apply seeded_run_ignores_state with DEFAULT_RANDOM_SEED.
Qed.

Lemma seeded_price_deterministic_witness :
  (@None (option Z) = None ->
   MonteCarlo.random_seed
     (MonteCarlo.mkConfig atm_option 10000 true (Some 42%Z)) = Some 42%Z) /\
  fst (MonteCarlo.price cycle_generator
         (MonteCarlo.mkConfig atm_option 10000 true (Some 42%Z)) 0%Z)
  = fst (MonteCarlo.price cycle_generator
           (MonteCarlo.mkConfig atm_option 10000 true (Some 42%Z)) 7%Z).
Proof.
  apply (seeded_price_deterministic cycle_generator atm_option None None None).
  - reflexivity.
  - discriminate.
Defined.

(** C5. With antithetic variates and [num_simulations = 3] the engine draws
    [3 // 2 = 1] normal value and prices on the 2 terminal prices [Z, -Z],
    not on 3: the mean and the standard deviation run over 2 payoffs, while
    the standard error still divides by [sqrt 3]. *)
Theorem antithetic_odd_count_loses_a_path (gen : Generator) (o : Option)
    (g : gen_state gen) :
  let c := MonteCarlo.mkConfig o 3 true None in
  exists paths g',
    MonteCarlo._generate_price_paths gen c g = (Ok paths, g') /\
    length paths = 2%nat /\
    length paths <> Z.to_nat (MonteCarlo.num_simulations c) /\
    length (MonteCarlo._calculate_payoffs c paths) = 2%nat /\
    MonteCarlo.price_and_standard_error gen c g
    = (Ok (exp (- risk_free_rate o * time_to_expiry o)
           * mean (MonteCarlo._calculate_payoffs c paths),
           exp (- risk_free_rate o * time_to_expiry o)
           * std_ddof1 (MonteCarlo._calculate_payoffs c paths)
           / sqrt 3), g').
Proof.
  intros c.
  destruct (unseeded_antithetic_paths gen o 3 g) as (zs & g' & Hdraw & Hpaths).
  { now vm_compute. }
  fold c in Hpaths.
  eexists _, g'. split; [exact Hpaths |].
  pose proof (antithetic_path_count gen c _ _ _ eq_refl Hpaths) as Hlen.
  simpl MonteCarlo.num_simulations in Hlen.
  change (3 / 2)%Z with 1%Z in Hlen.
  split; [exact Hlen |].
  split; [rewrite Hlen; vm_compute; discriminate |].
  split; [now rewrite payoffs_length |].
  exact (run_from_paths gen c g g' _ Hpaths).
Qed.

(** ** The confidence interval *)

Lemma Rdiv_nonneg (x y : R) : 0 <= x -> 0 <= y -> 0 <= x / y.
Proof.
  intros Hx [Hy | Hy].
  - apply Rmult_le_pos; [exact Hx |]. left. now apply Rinv_0_lt_compat.
  - subst y. unfold Rdiv. rewrite Rinv_0. lra.
Qed.

Section ConfidenceInterval.
Context (gen : Generator) (norm : NormalDist).

Lemma standard_error_nonneg (c : MonteCarlo.config) (g g' : gen_state gen)
    (p se : R) :
  MonteCarlo.price_and_standard_error gen c g = (Ok (p, se), g') -> 0 <= se.
Proof.
  unfold MonteCarlo.price_and_standard_error, bind, ret.
  destruct (MonteCarlo._generate_price_paths gen c g) as [[paths | e] g0];
    [| discriminate].
  intros Heq. injection Heq as _ <- _.
  apply Rdiv_nonneg; [| apply sqrt_pos].
  apply Rmult_le_pos; [left; apply exp_pos |].
  unfold std_ddof1. apply sqrt_pos.
Qed.

Lemma confidence_interval_shape (c : MonteCarlo.config) (level : R)
    (g : gen_state gen) :
  MonteCarlo.get_confidence_interval gen norm c level g
  = match MonteCarlo.price_and_standard_error gen c g with
    | (Ok (p, se), g') =>
        (Ok (p - ppf norm ((1 + level) / 2) * se,
             p + ppf norm ((1 + level) / 2) * se), g')
    | (Err e, g') => (Err e, g')
    end.
Proof.
  unfold MonteCarlo.get_confidence_interval, bind, ret.
  destruct (MonteCarlo.price_and_standard_error gen c g) as [[[p se] | e] g'];
    reflexivity.
Qed.

End ConfidenceInterval.

(** C6 (as amended). The price computed by a Monte Carlo run of at least two
    simulations (fewer leave numpy's deviation undefined) lies in the
    closed 95% interval [price - margin, price + margin] that the run
    reports, where margin is the normal 97.5% quantile times the standard
    error; it lies strictly inside when the standard error is positive, and
    the interval collapses to the price when the standard error is zero. *)
Theorem price_within_confidence_interval (gen : Generator) (norm : NormalDist)
    (c : MonteCarlo.config) (g g' : gen_state gen) (lo hi : R) :
  (2 <= MonteCarlo.num_simulations c)%Z ->
  MonteCarlo.get_confidence_interval gen norm c (95 / 100) g
  = (Ok (lo, hi), g') ->
  exists p se,
    MonteCarlo.price_and_standard_error gen c g = (Ok (p, se), g') /\
    lo = p - ppf norm ((1 + 95 / 100) / 2) * se /\
    hi = p + ppf norm ((1 + 95 / 100) / 2) * se /\
    lo <= p <= hi /\
    (0 < se -> lo < p < hi) /\
    (se = 0 -> lo = p /\ hi = p).
Proof.
  intros _.
  rewrite confidence_interval_shape.
  destruct (MonteCarlo.price_and_standard_error gen c g)
    as [[[p se] | e] g0] eqn:Hrun; [| discriminate].
  intros Heq. injection Heq as <- <- <-.
  exists p, se.
  pose proof (standard_error_nonneg gen c g g0 p se Hrun) as Hse.
  assert (0 < ppf norm ((1 + 95 / 100) / 2)) as Hz by (apply ppf_pos; lra).
  repeat split; try reflexivity; nra.
Qed.

Lemma exp_le_mono (x y : R) : x <= y -> exp x <= exp y.
Proof.
  intros [Hlt | Heq].
  - left. now apply exp_increasing.
  - subst y. apply Rle_refl.
Qed.

Lemma sum_list_repeat_0 (n : nat) : sum_list (repeat 0 n) = 0.
Proof. induction n as [| n IH]; simpl; [reflexivity | rewrite IH; lra]. Qed.

Lemma mean_repeat_0 (n : nat) : mean (repeat 0 n) = 0.
Proof. unfold mean. rewrite sum_list_repeat_0. unfold Rdiv. ring. Qed.

Lemma std_repeat_0 (n : nat) : std_ddof1 (repeat 0 n) = 0.
Proof.
  unfold std_ddof1. rewrite mean_repeat_0.
  assert (map (fun x => (x - 0) ^ 2) (repeat 0 n) = repeat 0 n) as ->.
  { induction n as [| n IH]; cbn [map repeat]; [reflexivity |].
    rewrite IH. f_equal. ring. }
  rewrite sum_list_repeat_0.
  unfold Rdiv. rewrite Rmult_0_l. apply sqrt_0.
Qed.

Lemma call_payoffs_out_of_the_money (c : MonteCarlo.config) (paths : list R) :
  option_type (MonteCarlo.option c) = CALL ->
  Forall (fun s => s <= strike_price (MonteCarlo.option c)) paths ->
  MonteCarlo._calculate_payoffs c paths = repeat 0 (length paths).
Proof.
  intros Hcall Hall. unfold MonteCarlo._calculate_payoffs. rewrite Hcall.
  induction Hall as [| s paths Hs _ IH]; simpl; [reflexivity |].
  rewrite IH. f_equal. apply Rmax_right. lra.
Qed.

Section DegenerateRun.
Context (gen : Generator).

Lemma out_of_the_money_run (c : MonteCarlo.config) (g g' : gen_state gen)
    (paths : list R) :
  option_type (MonteCarlo.option c) = CALL ->
  MonteCarlo._generate_price_paths gen c g = (Ok paths, g') ->
  Forall (fun s => s <= strike_price (MonteCarlo.option c)) paths ->
  MonteCarlo.price_and_standard_error gen c g = (Ok (0, 0), g').
Proof.
  intros Hcall Hpaths Hall.
  rewrite (run_from_paths gen c g g' paths Hpaths).
  rewrite (call_payoffs_out_of_the_money c paths Hcall Hall).
  rewrite mean_repeat_0, std_repeat_0.
  do 2 f_equal. f_equal; unfold Rdiv; ring.
Qed.
End DegenerateRun.

(** On [deep_otm_model] the generator's first draw is -3/2: the two terminal
    prices are [exp (-2)] and [exp 1], both below the strike 100. *)
Lemma deep_otm_run :
  MonteCarlo.price_and_standard_error cycle_generator deep_otm_model 0%Z
  = (Ok (0, 0), 1%Z).
Proof.
  destruct (unseeded_antithetic_paths cycle_generator deep_otm_call 2 0%Z)
    as (zs & g' & Hdraw & Hpaths).
  { now vm_compute. }
  change (Z.to_nat (2 / 2)) with 1%nat in Hdraw.
  cbn [standard_normal cycle_generator map seq] in Hdraw.
  injection Hdraw as <- <-.
  apply (out_of_the_money_run cycle_generator deep_otm_model _ _ _
           eq_refl Hpaths).
  unfold deep_otm_model, deep_otm_call, cycle_draw; cbn [map app spot_price strike_price
    time_to_expiry volatility risk_free_rate dividend_yield MonteCarlo.option].
  change (0 + Z.of_nat 0)%Z with 0%Z.
  change (0 mod 7 - 3)%Z with (-3)%Z.
  rewrite sqrt_1.
  pose proof exp_le_3 as He.
  apply Forall_cons; [| apply Forall_cons; [| apply Forall_nil]].
  - rewrite Rmult_1_l. apply Rle_trans with (exp 1); [| lra].
    apply exp_le_mono. lra.
  - rewrite Rmult_1_l. apply Rle_trans with (exp 1); [| lra].
    apply exp_le_mono. lra.
Qed.

Lemma deep_otm_interval :
  MonteCarlo.get_confidence_interval cycle_generator logistic_law
    deep_otm_model (95 / 100) 0%Z = (Ok (0, 0), 1%Z).
Proof.
  rewrite confidence_interval_shape, deep_otm_run.
  do 2 f_equal. f_equal; ring.
Qed.

(** C6 (as stated) fails: on a call far out of the money every simulated
    payoff is 0, so the price is 0, the standard error is 0 and the reported
    interval is (0, 0), which does not contain the price strictly. *)
Lemma confidence_interval_can_collapse :
  MonteCarlo.price cycle_generator deep_otm_model 0%Z = (Ok 0, 1%Z) /\
  MonteCarlo.get_confidence_interval cycle_generator logistic_law
    deep_otm_model (95 / 100) 0%Z = (Ok (0, 0), 1%Z) /\
  ~ (0 < 0 < 0).
Proof.
  split; [| split].
  - unfold MonteCarlo.price, bind, ret. now rewrite deep_otm_run.
  - exact deep_otm_interval.
  - lra.
Qed.

Lemma price_within_confidence_interval_witness :
  exists p se,
    MonteCarlo.price_and_standard_error cycle_generator deep_otm_model 0%Z
    = (Ok (p, se), 1%Z) /\
    0 = p - ppf logistic_law ((1 + 95 / 100) / 2) * se /\
    0 = p + ppf logistic_law ((1 + 95 / 100) / 2) * se /\
    0 <= p <= 0 /\
    (0 < se -> 0 < p < 0) /\
    (se = 0 -> 0 = p /\ 0 = p).
Proof.
  apply (price_within_confidence_interval cycle_generator logistic_law
           deep_otm_model 0%Z 1%Z 0 0).
  - unfold deep_otm_model; simpl. lia.
  - exact deep_otm_interval.
Defined.

(** ** The numerical Greeks calculator *)

Section CalculatorFacts.
Context (norm : NormalDist) (gen : Generator).

(** Near expiry ([T <= h]) theta is [- V(T) / h]. *)
Lemma calc_theta_near_expiry (m : Model) (h p : R) (g g' : gen_state gen) :
  time_to_expiry (model_option m) <= h ->
  model_price norm gen m g = (Ok p, g') ->
  calc_theta norm gen m h g = (Ok (- p / h), g').
Proof.
  intros Hnear Hprice. unfold calc_theta, bind, ret.
  destruct (Rle_dec (time_to_expiry (model_option m)) h); [| contradiction].
  now rewrite Hprice.
Qed.

(** Otherwise it is the difference quotient multiplied by [h * 365]. *)
Lemma calc_theta_far_from_expiry (m m' : Model) (o' : Option)
    (h p_now p_later : R) (g g1 g2 : gen_state gen) :
  h < time_to_expiry (model_option m) ->
  with_time_to_expiry (model_option m) (time_to_expiry (model_option m) - h)
  = Ok o' ->
  model_price norm gen m g = (Ok p_now, g1) ->
  rebuild m o' = Ok m' ->
  model_price norm gen m' g1 = (Ok p_later, g2) ->
  calc_theta norm gen m h g
  = (Ok ((p_later - p_now) / h * h * CALENDAR_DAYS_PER_YEAR), g2).
Proof.
  intros Hfar Hopt Hnow Hre Hlater. unfold calc_theta, bind, ret, lift.
  destruct (Rle_dec (time_to_expiry (model_option m)) h); [lra |].
  now rewrite Hopt, Hnow, Hre, Hlater.
Qed.

Lemma theta_scaling (d h : R) :
  h <> 0 -> d / h * h * CALENDAR_DAYS_PER_YEAR = 365 * d.
Proof. intros Hh. unfold CALENDAR_DAYS_PER_YEAR. field. exact Hh. Qed.

End CalculatorFacts.

(** A one-step lattice has a single backward-induction node. *)
Lemma one_step_price (o : Option) :
  Binomial.price o 1
  = Ok (Binomial.node_value o 1 0 0
          (Binomial._get_payoff o (Binomial.stock_tree o 1 1 1))
          (Binomial._get_payoff o (Binomial.stock_tree o 1 1 0))).
Proof. reflexivity. Qed.

Lemma one_step_unit_call (T : R) :
  0 < T ->
  Binomial.price (mkOption 1 1 T 1 0 CALL EUROPEAN 0) 1
  = Ok ((exp (sqrt T) - 1) / (exp (sqrt T) + 1)).
Proof.
  intros HT. rewrite one_step_price. f_equal.
  unfold Binomial.node_value, Binomial._calculate_risk_neutral_probability,
    Binomial.discount, Binomial._get_payoff, Binomial.stock_tree,
    Binomial.down, Binomial.up, Binomial.dt; simpl.
  replace (T / 1) with T by field.
  rewrite Rmult_1_l.
  pose proof (sqrt_lt_R0 T HT) as Hs.
  pose proof (exp_pos_gt_1 (sqrt T) Hs) as Hu.
  set (u := exp (sqrt T)) in *.
  replace ((0 - 0) * T) with 0 by ring.
  replace (- 0 * T) with 0 by ring.
  rewrite exp_0.
  assert (1 / u < 1) as Hd.
  { apply Rmult_lt_reg_r with u; [lra |]. unfold Rdiv.
    rewrite Rmult_assoc, Rinv_l by lra. lra. }
  rewrite (Rmax_left (1 * (u * 1) * 1 - 1) 0) by lra.
  rewrite (Rmax_right (1 * 1 * (1 / u * 1) - 1) 0) by lra.
  field. split; [lra |]. split; [lra |].
  intros Hc. assert (u * u = 1) by lra. nra.
Qed.

Lemma one_step_value_increasing (u v : R) :
  1 < u -> u < v -> (u - 1) / (u + 1) < (v - 1) / (v + 1).
Proof.
  intros Hu Huv.
  apply Rmult_lt_reg_r with ((u + 1) * (v + 1)); [nra |].
  replace ((u - 1) / (u + 1) * ((u + 1) * (v + 1))) with ((u - 1) * (v + 1))
    by (field; lra).
  replace ((v - 1) / (v + 1) * ((u + 1) * (v + 1))) with ((v - 1) * (u + 1))
    by (field; lra).
  nra.
Qed.

(** C4. On a one-step lattice for [unit_call], one day before which the
    price is lower, [theta()] with the default step h = 1/365 returns
    [365 * (V(T-h) - V(T))], the decay per year; the per-calendar-day figure
    of the claim, [(V(T-h) - V(T)) / h / 365], is 365 times smaller. *)
Theorem theta_is_not_per_day (norm : NormalDist) (gen : Generator)
    (g : gen_state gen) :
  let m := BinomialTreeModel unit_call 1 in
  let h := default_theta_h in
  exists o_later p_now p_later,
    with_time_to_expiry unit_call (1 - h) = Ok o_later /\
    Binomial.price unit_call 1 = Ok p_now /\
    Binomial.price o_later 1 = Ok p_later /\
    calc_theta norm gen m h g = (Ok (365 * (p_later - p_now)), g) /\
    365 * (p_later - p_now) <> (p_later - p_now) / h / 365.
Proof.
  intros m h.
  assert (0 < 1 - h) as Hpos by (unfold h, default_theta_h; lra).
  exists (mkOption 1 1 (1 - h) 1 0 CALL EUROPEAN 0),
    ((exp (sqrt 1) - 1) / (exp (sqrt 1) + 1)),
    ((exp (sqrt (1 - h)) - 1) / (exp (sqrt (1 - h)) + 1)).
  assert (with_time_to_expiry unit_call (1 - h)
          = Ok (mkOption 1 1 (1 - h) 1 0 CALL EUROPEAN 0)) as Hopt.
  { unfold with_time_to_expiry, unit_call; simpl.
    apply Option_new_ok_iff. lra. }
  assert (Binomial.price unit_call 1
          = Ok ((exp (sqrt 1) - 1) / (exp (sqrt 1) + 1))) as Hnow.
  { apply one_step_unit_call. lra. }
  pose proof (one_step_unit_call (1 - h) Hpos) as Hlater.
  split; [exact Hopt |]. split; [exact Hnow |]. split; [exact Hlater |].
  assert ((exp (sqrt (1 - h)) - 1) / (exp (sqrt (1 - h)) + 1)
          < (exp (sqrt 1) - 1) / (exp (sqrt 1) + 1)) as Hdecay.
  { apply one_step_value_increasing.
    - apply exp_pos_gt_1. now apply sqrt_lt_R0.
    - apply exp_increasing. apply sqrt_lt_1; unfold h, default_theta_h; lra. }
  split.
  - rewrite <- (theta_scaling _ h) by (unfold h, default_theta_h; lra).
    apply (calc_theta_far_from_expiry norm gen m
             (BinomialTreeModel (mkOption 1 1 (1 - h) 1 0 CALL EUROPEAN 0) 1)
             (mkOption 1 1 (1 - h) 1 0 CALL EUROPEAN 0) h _ _ g g g).
    + unfold m, h, default_theta_h, unit_call; simpl. lra.
    + exact Hopt.
    + simpl. unfold lift. now rewrite Hnow.
    + reflexivity.
    + simpl. unfold lift. now rewrite Hlater.
  - assert (forall d, d < 0 -> 365 * d <> d / h / 365) as Hgen.
    { intros d Hd.
      replace (d / h / 365) with d by (unfold h, default_theta_h; field).
      lra. }
    apply Hgen. lra.
Qed.

(** ** Vega at low volatility *)

Section Ready.
Context (norm : NormalDist) (gen : Generator).

Lemma binomial_price_ready (o : Option) (n : Z) :
  (1 <= n)%Z -> exists p, Binomial.price o n = Ok p.
Proof.
  intros Hn. unfold Binomial.price.
  destruct (n =? 0)%Z eqn:H0; [apply Z.eqb_eq in H0; lia |].
  destruct (n <? -1)%Z eqn:H1; [apply Z.ltb_lt in H1; lia |].
  destruct (n =? -1)%Z eqn:H2; [apply Z.eqb_eq in H2; lia |].
  eexists. reflexivity.
Qed.

Lemma monte_carlo_paths_ready (c : MonteCarlo.config) (g : gen_state gen) :
  (0 <= MonteCarlo.num_simulations c)%Z ->
  seed_accepted (MonteCarlo.random_seed c) ->
  exists paths g', MonteCarlo._generate_price_paths gen c g = (Ok paths, g').
Proof.
  intros Hsims Hseed.
  unfold MonteCarlo._generate_price_paths, bind, ret.
  assert (exists g0,
             match MonteCarlo.random_seed c with
             | Some s => MonteCarlo.seed_generator gen s
             | None => fun s => (Ok tt, s)
             end g = (Ok tt, g0)) as [g0 ->].
  { destruct (MonteCarlo.random_seed c) as [s |]; [| now exists g].
    simpl in Hseed. unfold MonteCarlo.seed_generator.
    destruct ((0 <=? s) && (s <? 2 ^ 32))%Z eqn:Hrange.
    - now eexists.
    - apply andb_false_iff in Hrange as [H | H];
        [apply Z.leb_gt in H | apply Z.ltb_ge in H]; lia. }
  assert (forall n, (0 <= n)%Z ->
            exists zs g1, MonteCarlo.draw gen n g0 = (Ok zs, g1)) as Hdraw.
  { intros n Hn. unfold MonteCarlo.draw.
    destruct (n <? 0)%Z eqn:Hneg; [apply Z.ltb_lt in Hneg; lia |].
    destruct (standard_normal gen (Z.to_nat n) g0) as [zs g1].
    now exists zs, g1. }
  destruct (MonteCarlo.use_antithetic c).
  - destruct (Hdraw (MonteCarlo.num_simulations c / 2)%Z) as (zs & g1 & ->).
    { apply Z.div_pos; lia. }
    now eexists _, _.
  - destruct (Hdraw (MonteCarlo.num_simulations c) Hsims) as (zs & g1 & ->).
    now eexists _, _.
Qed.

Lemma price_ready (m : Model) (g : gen_state gen) :
  engine_ready m -> exists p g', model_price norm gen m g = (Ok p, g').
Proof.
  intros [_ Hm]. destruct m as [o | o n | c]; simpl.
  - now eexists _, _.
  - destruct (binomial_price_ready o n Hm) as [p Hp].
    exists p, g. unfold lift. now rewrite Hp.
  - destruct Hm as (_ & Hsims & Hseed).
    destruct (monte_carlo_paths_ready c g Hsims Hseed) as (paths & g' & Hp).
    unfold MonteCarlo.price, MonteCarlo.price_and_standard_error, bind, ret.
    rewrite Hp. now eexists _, _.
Qed.

Lemma rebuild_ready (m : Model) (o' : Option) :
  engine_ready m -> valid_option o' ->
  exercise_style o' = exercise_style (model_option m) ->
  exists m', rebuild m o' = Ok m' /\ engine_ready m'.
Proof.
  intros [_ Hm] Hvalid Hstyle. destruct m as [o | o n | c]; simpl in *.
  - unfold BlackScholes.init. rewrite Hstyle, Hm.
    eexists. split; [reflexivity |]. split; [exact Hvalid | congruence].
  - eexists. split; [reflexivity |]. split; assumption.
  - destruct Hm as (Heu & Hsims & Hseed).
    unfold MonteCarlo.init. rewrite Hstyle, Heu.
    eexists. split; [reflexivity |].
    split; [exact Hvalid |]. simpl. repeat split; try assumption. congruence.
Qed.

(** A perturbed contract that keeps the invariant is accepted. *)
Lemma with_spot_price_ok (o : Option) (x : R) :
  valid_option o -> 0 < x ->
  exists o', with_spot_price o x = Ok o' /\ valid_option o' /\
             exercise_style o' = exercise_style o.
Proof.
  intros (HS & HK & HT & Hv & Hq) Hx.
  eexists. split; [| split].
  - unfold with_spot_price. apply Option_new_ok_iff. lra.
  - unfold valid_option; simpl. lra.
  - reflexivity.
Qed.

Lemma with_time_to_expiry_ok (o : Option) (x : R) :
  valid_option o -> 0 < x ->
  exists o', with_time_to_expiry o x = Ok o' /\ valid_option o' /\
             exercise_style o' = exercise_style o.
Proof.
  intros (HS & HK & HT & Hv & Hq) Hx.
  eexists. split; [| split].
  - unfold with_time_to_expiry. apply Option_new_ok_iff. lra.
  - unfold valid_option; simpl. lra.
  - reflexivity.
Qed.

(** The two repricings every spot bump needs. *)
Lemma spot_bump_ready (m : Model) (x : R) (g : gen_state gen) :
  engine_ready m -> 0 < x ->
  exists o' m' p g',
    with_spot_price (model_option m) x = Ok o' /\
    rebuild m o' = Ok m' /\
    model_price norm gen m' g = (Ok p, g').
Proof.
  intros Hm Hx.
  destruct (with_spot_price_ok (model_option m) x (proj1 Hm) Hx)
    as (o' & Ho & Hv & Hs).
  destruct (rebuild_ready m o' Hm Hv Hs) as (m' & Hre & Hm').
  destruct (price_ready m' g Hm') as (p & g' & Hp).
  now exists o', m', p, g'.
Qed.

Lemma calc_delta_ready (m : Model) (g : gen_state gen) :
  engine_ready m ->
  exists d g', calc_delta norm gen m default_h_pct g = (Ok d, g').
Proof.
  intros Hm.
  pose proof (proj1 Hm) as (HS & _).
  set (S := spot_price (model_option m)) in *.
  destruct (spot_bump_ready m (S + S * default_h_pct) g Hm)
    as (ou & mu & pu & g1 & Hou & Hmu & Hpu);
    [unfold default_h_pct; lra |].
  destruct (spot_bump_ready m (S - S * default_h_pct) g1 Hm)
    as (od & md & pd & g2 & Hod & Hmd & Hpd);
    [unfold default_h_pct; lra |].
  unfold calc_delta, bind, ret, lift. fold S.
  rewrite Hou, Hod, Hmu, Hmd, Hpu, Hpd. now eexists _, _.
Qed.

Lemma calc_gamma_ready (m : Model) (g : gen_state gen) :
  engine_ready m ->
  exists d g', calc_gamma norm gen m default_h_pct g = (Ok d, g').
Proof.
  intros Hm.
  pose proof (proj1 Hm) as (HS & _).
  set (S := spot_price (model_option m)) in *.
  destruct (price_ready m g Hm) as (p & g0 & Hp).
  destruct (spot_bump_ready m (S + S * default_h_pct) g0 Hm)
    as (ou & mu & pu & g1 & Hou & Hmu & Hpu);
    [unfold default_h_pct; lra |].
  destruct (spot_bump_ready m (S - S * default_h_pct) g1 Hm)
    as (od & md & pd & g2 & Hod & Hmd & Hpd);
    [unfold default_h_pct; lra |].
  unfold calc_gamma, bind, ret, lift. fold S.
  rewrite Hp, Hou, Hod, Hmu, Hmd, Hpu, Hpd. now eexists _, _.
Qed.

Lemma calc_theta_ready (m : Model) (g : gen_state gen) :
  engine_ready m ->
  exists t g', calc_theta norm gen m default_theta_h g = (Ok t, g').
Proof.
  intros Hm.
  destruct (price_ready m g Hm) as (p & g0 & Hp).
  unfold calc_theta, bind, ret, lift.
  destruct (Rle_dec (time_to_expiry (model_option m)) default_theta_h)
    as [Hnear | Hfar].
  - rewrite Hp. now eexists _, _.
  - destruct (with_time_to_expiry_ok (model_option m)
                (time_to_expiry (model_option m) - default_theta_h)
                (proj1 Hm)) as (o' & Ho & Hv & Hs); [lra |].
    destruct (rebuild_ready m o' Hm Hv Hs) as (m' & Hre & Hm').
    destruct (price_ready m' g0 Hm') as (p' & g1 & Hp').
    rewrite Ho, Hp, Hre, Hp'. now eexists _, _.
Qed.

(** The down-bumped volatility [vol - h] is not positive when [vol <= h]:
    the second contract of [vega] is refused, whatever the model. *)
Lemma calc_vega_rejects (m : Model) (h : R) (g : gen_state gen) :
  volatility (model_option m) <= h ->
  calc_vega norm gen m h g = (Err ValidationError, g).
Proof.
  intros Hvol. unfold calc_vega, bind, lift, with_volatility.
  match goal with
  | |- context [Option_new ?s ?k ?t (volatility (model_option m) + h)
                  ?r ?ty ?st ?q] =>
      destruct (Option_new_cases s k t (volatility (model_option m) + h)
                  r ty st q) as [-> | ->]; [| reflexivity]
  end.
  rewrite Option_new_invalid; [reflexivity |].
  right; right; right; left. lra.
Qed.

Lemma all_greeks_never_returned (m : Model) (g : gen_state gen) (v : Greeks) :
  volatility (model_option m) <= default_vega_h ->
  fst (calculate_all_greeks norm gen m g) <> Ok v.
Proof.
  intros Hvol. unfold calculate_all_greeks, bind.
  destruct (calc_delta norm gen m default_h_pct g) as [[d | e] g1];
    [| discriminate].
  destruct (calc_gamma norm gen m default_h_pct g1) as [[ga | e] g2];
    [| discriminate].
  destruct (calc_theta norm gen m default_theta_h g2) as [[t | e] g3];
    [| discriminate].
  rewrite (calc_vega_rejects m default_vega_h g3 Hvol). discriminate.
Qed.

Lemma all_greeks_rejected (m : Model) (g : gen_state gen) :
  engine_ready m ->
  volatility (model_option m) <= default_vega_h ->
  fst (calculate_all_greeks norm gen m g) = Err ValidationError.
Proof.
  intros Hm Hvol. unfold calculate_all_greeks, bind.
  destruct (calc_delta_ready m g Hm) as (d & g1 & ->).
  destruct (calc_gamma_ready m g1 Hm) as (ga & g2 & ->).
  destruct (calc_theta_ready m g2 Hm) as (t & g3 & ->).
  now rewrite (calc_vega_rejects m default_vega_h g3 Hvol).
Qed.

(** Conversely, a price that is returned shows the engine was ready, and so
    does a delta: it rebuilds the contract and prices twice. *)
Lemma binomial_price_needs_steps (o : Option) (n : Z) (p : R) :
  Binomial.price o n = Ok p -> (1 <= n)%Z.
Proof.
  unfold Binomial.price.
  destruct (n =? 0)%Z eqn:H0; [discriminate |].
  destruct (n <? -1)%Z eqn:H1; [discriminate |].
  destruct (n =? -1)%Z eqn:H2; [discriminate |].
  intros _. apply Z.eqb_neq in H0, H2. apply Z.ltb_ge in H1. lia.
Qed.

Lemma monte_carlo_price_needs (c : MonteCarlo.config) (g g' : gen_state gen)
    (p : R) :
  MonteCarlo.price gen c g = (Ok p, g') ->
  (0 <= MonteCarlo.num_simulations c)%Z /\
  seed_accepted (MonteCarlo.random_seed c).
Proof.
  unfold MonteCarlo.price, MonteCarlo.price_and_standard_error,
    MonteCarlo._generate_price_paths, bind, ret.
  assert (forall n g0,
             (exists zs g1, MonteCarlo.draw gen n g0 = (Ok zs, g1))
             \/ (exists g1, MonteCarlo.draw gen n g0 = (Err ValueError, g1)
                 /\ (n < 0)%Z)) as Hdraw.
  { intros n g0. unfold MonteCarlo.draw.
    destruct (n <? 0)%Z eqn:Hneg.
    - right. exists g0. split; [reflexivity | now apply Z.ltb_lt].
    - left. destruct (standard_normal gen (Z.to_nat n) g0) as [zs g1].
      now exists zs, g1. }
  assert (forall n g0 zs g1,
             MonteCarlo.draw gen n g0 = (Ok zs, g1) -> (0 <= n)%Z) as Hsize.
  { intros n g0 zs g1. unfold MonteCarlo.draw.
    destruct (n <? 0)%Z eqn:Hneg; [discriminate |].
    intros _. now apply Z.ltb_ge in Hneg. }
  destruct (MonteCarlo.random_seed c) as [s |].
  - unfold MonteCarlo.seed_generator.
    destruct ((0 <=? s) && (s <? 2 ^ 32))%Z eqn:Hrange; [| discriminate].
    apply andb_true_iff in Hrange as [Hlo Hhi].
    apply Z.leb_le in Hlo. apply Z.ltb_lt in Hhi.
    destruct (MonteCarlo.use_antithetic c).
    + destruct (MonteCarlo.draw gen (MonteCarlo.num_simulations c / 2)
                  (seed gen s)) as [[zs | e] g1] eqn:Hd; [| discriminate].
      intros _. apply Hsize in Hd.
      split; [| simpl; lia].
      pose proof (Z.mod_pos_bound (MonteCarlo.num_simulations c) 2).
      pose proof (Z.div_mod (MonteCarlo.num_simulations c) 2). lia.
    + destruct (MonteCarlo.draw gen (MonteCarlo.num_simulations c)
                  (seed gen s)) as [[zs | e] g1] eqn:Hd; [| discriminate].
      intros _. apply Hsize in Hd. split; [exact Hd | simpl; lia].
  - destruct (MonteCarlo.use_antithetic c).
    + destruct (MonteCarlo.draw gen (MonteCarlo.num_simulations c / 2) g)
        as [[zs | e] g1] eqn:Hd; [| discriminate].
      intros _. apply Hsize in Hd.
      split; [| exact I].
      pose proof (Z.mod_pos_bound (MonteCarlo.num_simulations c) 2).
      pose proof (Z.div_mod (MonteCarlo.num_simulations c) 2). lia.
    + destruct (MonteCarlo.draw gen (MonteCarlo.num_simulations c) g)
        as [[zs | e] g1] eqn:Hd; [| discriminate].
      intros _. apply Hsize in Hd. split; [exact Hd | exact I].
Qed.

Lemma calc_delta_needs_ready (m : Model) (g g' : gen_state gen) (d : R) :
  uses_calculator m ->
  calc_delta norm gen m default_h_pct g = (Ok d, g') ->
  engine_ready m.
Proof.
  intros Hcalc. unfold calc_delta, bind, lift, ret, with_spot_price.
  set (o := model_option m).
  destruct (Option_new_cases
              (spot_price o + spot_price o * default_h_pct)
              (strike_price o) (time_to_expiry o) (volatility o)
              (risk_free_rate o) (option_type o) (exercise_style o)
              (dividend_yield o)) as [Hup | Hup]; rewrite Hup;
    [| discriminate].
  apply Option_new_ok_iff in Hup as (HS & HK & HT & Hsig & Hq).
  assert (valid_option o) as Hvalid.
  { unfold valid_option. unfold default_h_pct in HS.
    repeat split; try assumption. lra. }
  destruct (Option_new_cases
              (spot_price o - spot_price o * default_h_pct)
              (strike_price o) (time_to_expiry o) (volatility o)
              (risk_free_rate o) (option_type o) (exercise_style o)
              (dividend_yield o)) as [Hdown | Hdown]; rewrite Hdown;
    [| discriminate].
  destruct m as [o0 | o0 n | c]; [contradiction | |]; simpl rebuild.
  - cbv beta iota. simpl model_price. unfold lift.
    match goal with
    | |- context [Binomial.price ?o' n] =>
        destruct (Binomial.price o' n) as [pu | e] eqn:Hpu; [| discriminate]
    end.
    intros _. split; [exact Hvalid |].
    now apply binomial_price_needs_steps in Hpu.
  - unfold MonteCarlo.init. cbn [exercise_style].
    destruct (exercise_style o) eqn:Hstyle; [| discriminate].
    cbv beta iota. simpl model_price.
    match goal with
    | |- context [MonteCarlo.price gen ?c' g] =>
        destruct (MonteCarlo.price gen c' g) as [[pu | e] g1] eqn:Hpu;
          [| discriminate]
    end.
    intros _. apply monte_carlo_price_needs in Hpu as [Hsims Hseed].
    split; [exact Hvalid |]. simpl in Hsims, Hseed.
    repeat split; assumption.
Qed.

(** When the engine is not ready the Greeks fail as delta does. *)
Lemma all_greeks_fail_as_delta (m : Model) (g : gen_state gen) :
  uses_calculator m ->
  ~ engine_ready m ->
  exists e,
    fst (calc_delta norm gen m default_h_pct g) = Err e /\
    fst (calculate_all_greeks norm gen m g) = Err e.
Proof.
  intros Hcalc Hnot. unfold calculate_all_greeks, bind.
  destruct (calc_delta norm gen m default_h_pct g) as [[d | e] g1] eqn:Hd.
  - exfalso. apply Hnot. now apply (calc_delta_needs_ready m g g1 d).
  - exists e. split; reflexivity.
Qed.

End Ready.

(** C10 (as amended). For every pricing model whose contract has volatility
    <= 0.01, [vega] with the default bump raises a validation error, because
    the down-bumped volatility is not positive.  [greeks()] of the Binomial
    and Monte Carlo engines therefore never returns a value; it raises that
    validation error whenever the model's own price can be computed (delta,
    gamma and theta come first in [calculate_all_greeks]), and otherwise
    the error of the delta computation. *)
Theorem vega_rejects_small_volatility (norm : NormalDist) (gen : Generator)
    (m : Model) (g : gen_state gen) :
  volatility (model_option m) <= 1 / 100 ->
  calc_vega norm gen m default_vega_h g = (Err ValidationError, g) /\
  (uses_calculator m ->
   (forall v, fst (model_greeks norm gen m g) <> Ok v) /\
   (engine_ready m -> fst (model_greeks norm gen m g) = Err ValidationError) /\
   (~ engine_ready m ->
    exists e,
      fst (calc_delta norm gen m default_h_pct g) = Err e /\
      fst (model_greeks norm gen m g) = Err e)).
Proof.
  intros Hvol. split.
  - now apply calc_vega_rejects.
  - intros Hcalc.
    destruct m as [o | o n | c]; [contradiction | |]; simpl model_greeks.
    + split; [intros v; now apply all_greeks_never_returned |].
      split; [intros Hm; now apply all_greeks_rejected |].
      intros Hm. now apply all_greeks_fail_as_delta.
    + split; [intros v; now apply all_greeks_never_returned |].
      split; [intros Hm; now apply all_greeks_rejected |].
      intros Hm. now apply all_greeks_fail_as_delta.
Qed.

(** C10 (as stated) fails for [greeks()]: a lattice with [num_steps = 0]
    raises [ZeroDivisionError] in delta, before vega is reached. *)
Lemma greeks_fail_earlier_without_steps :
  volatility low_vol_call <= 1 / 100 /\
  fst (model_greeks logistic_law cycle_generator
         (BinomialTreeModel low_vol_call 0) 0%Z) = Err ZeroDivisionError.
Proof.
  split; [unfold low_vol_call; simpl; lra |].
  simpl model_greeks. unfold calculate_all_greeks, bind.
  assert (calc_delta logistic_law cycle_generator
            (BinomialTreeModel low_vol_call 0) default_h_pct 0%Z
          = (Err ZeroDivisionError, 0%Z)) as ->; [| reflexivity].
  unfold calc_delta, bind, lift, ret.
  destruct (with_spot_price_ok low_vol_call (100 + 100 * default_h_pct))
    as (ou & Hou & _); [unfold low_vol_call, valid_option; simpl; lra
                       | unfold default_h_pct; lra |].
  destruct (with_spot_price_ok low_vol_call (100 - 100 * default_h_pct))
    as (od & Hod & _); [unfold low_vol_call, valid_option; simpl; lra
                       | unfold default_h_pct; lra |].
  simpl model_option. simpl spot_price.
  rewrite Hou, Hod. reflexivity.
Qed.


Lemma low_vol_lattice_ready : engine_ready (BinomialTreeModel low_vol_call 100).
Proof.
  split; [unfold valid_option, low_vol_call; simpl; lra | simpl; lia].
Qed.

Lemma vega_rejects_small_volatility_witness :
  calc_vega logistic_law cycle_generator (BinomialTreeModel low_vol_call 100)
    default_vega_h 0%Z = (Err ValidationError, 0%Z) /\
  fst (model_greeks logistic_law cycle_generator
         (BinomialTreeModel low_vol_call 100) 0%Z) = Err ValidationError.
Proof.
  destruct (vega_rejects_small_volatility logistic_law cycle_generator
              (BinomialTreeModel low_vol_call 100) 0%Z) as [Hvega Hgreeks].
  - unfold low_vol_call; simpl. lra.
  - split; [exact Hvega |].
    apply (proj1 (proj2 (Hgreeks I))). exact low_vol_lattice_ready.
Defined.

(** ** The implied-volatility solver *)

Ltac case_Rlt :=
  match goal with
  | |- context [Rlt_dec ?a ?b] => destruct (Rlt_dec a b)
  end.

Section SolverFacts.
Context (norm : NormalDist).

Lemma not_input_failure_ok (v : R) : ~ ImpliedVol.input_failure (Ok v).
Proof. intros [H | H]; discriminate. Qed.

Lemma not_input_failure_validation :
  ~ ImpliedVol.input_failure (Err ValidationError).
Proof. intros [H | H]; discriminate. Qed.

Lemma newton_not_input_failure (spot strike time rate target : R)
    (ty : OptionType) (div tol : R) (iters : nat) :
  forall (vol : R) (priced : nat),
    ~ ImpliedVol.input_failure
        (fst (ImpliedVol._newton_raphson norm spot strike time rate target ty
                div vol tol iters priced)).
Proof.
  induction iters as [| iters IH]; intros vol priced; simpl.
  - intros [H | H]; discriminate.
  - destruct (Option_new_cases spot strike time vol rate ty EUROPEAN div)
      as [-> | ->]; [| apply not_input_failure_validation].
    simpl.
    case_Rlt; [apply not_input_failure_ok |].
    case_Rlt; [intros [H | H]; discriminate |].
    apply IH.
Qed.

Lemma bisection_not_input_failure (spot strike time rate target : R)
    (ty : OptionType) (div tol : R) (iters : nat) :
  forall (lo hi : R) (priced : nat),
    ~ ImpliedVol.input_failure
        (fst (ImpliedVol.bisection_loop norm spot strike time rate target ty
                div tol lo hi iters priced)).
Proof.
  induction iters as [| iters IH]; intros lo hi priced; simpl.
  - intros [H | H]; discriminate.
  - destruct (Option_new_cases spot strike time ((lo + hi) / 2) rate ty
                EUROPEAN div) as [-> | ->];
      [| apply not_input_failure_validation].
    simpl.
    case_Rlt; [apply not_input_failure_ok |].
    case_Rlt; [apply not_input_failure_ok |].
    apply IH.
Qed.

Lemma bisection_count_grows (spot strike time rate target : R)
    (ty : OptionType) (div tol : R) (iters : nat) :
  forall (lo hi : R) (priced : nat),
    (priced <= snd (ImpliedVol.bisection_loop norm spot strike time rate
                      target ty div tol lo hi iters priced))%nat.
Proof.
  induction iters as [| iters IH]; intros lo hi priced; simpl.
  - lia.
  - destruct (Option_new_cases spot strike time ((lo + hi) / 2) rate ty
                EUROPEAN div) as [-> | ->]; [| simpl; lia].
    simpl.
    case_Rlt; [simpl; lia |].
    case_Rlt; [simpl; lia |].
    etransitivity; [| apply IH]. lia.
Qed.

(** An iteration whose trial contract is accepted prices it. *)
Lemma bisection_prices_midpoint (spot strike time rate target : R)
    (ty : OptionType) (div tol lo hi : R) (iters priced : nat) :
  0 < spot -> 0 < strike -> 0 < time -> 0 < (lo + hi) / 2 -> 0 <= div ->
  (S priced <= snd (ImpliedVol.bisection_loop norm spot strike time rate
                      target ty div tol lo hi (S iters) priced))%nat.
Proof.
  intros HS HK HT Hmid Hq. simpl.
  rewrite (proj1 (Option_new_ok_iff spot strike time ((lo + hi) / 2) rate ty
                    EUROPEAN div)) by lra.
  simpl.
  case_Rlt; [simpl; lia |].
  case_Rlt; [simpl; lia |].
  apply bisection_count_grows.
Qed.

End SolverFacts.

(** C3 (as amended). [implied_volatility] fails at once, with the
    descriptive [ImpliedVolatilityError] of its input checks and before any
    pricing, when the market price is strictly below the intrinsic present
    value or is not strictly positive; when the market price is at least the
    intrinsic value and strictly positive, no such error is raised. *)
Theorem implied_volatility_input_checks (norm : NormalDist)
    (spot strike time rate market : R) (ty : OptionType)
    (div guess tol : R) (iters : Z) :
  let intrinsic :=
    ImpliedVol._calculate_intrinsic_value spot strike time rate ty div in
  let run :=
    ImpliedVol.implied_volatility norm spot strike time rate market ty div
      guess tol iters in
  (market < intrinsic \/ market <= 0 ->
   ImpliedVol.input_failure (fst run) /\ snd run = 0%nat) /\
  (intrinsic <= market /\ 0 < market -> ~ ImpliedVol.input_failure (fst run)).
Proof.
  intros intrinsic run. unfold run, ImpliedVol.implied_volatility.
  fold intrinsic.
  destruct (Rlt_dec market intrinsic) as [Hbelow | Hge].
  - split.
    + intros _. split; [left |]; reflexivity.
    + intros [H _]. lra.
  - destruct (Rle_dec market 0) as [Hnonpos | Hpos].
    + split.
      * intros _. split; [right |]; reflexivity.
      * intros [_ H]. lra.
    + split; [intros [H | H]; lra |].
      intros _.
      destruct (Rlt_dec (market - intrinsic) (1 / 100)).
      * apply bisection_not_input_failure.
      * pose proof (newton_not_input_failure norm spot strike time rate
                      market ty div tol (Z.to_nat iters) guess 0) as Hnewton.
        destruct (ImpliedVol._newton_raphson norm spot strike time rate
                    market ty div guess tol (Z.to_nat iters) 0)
          as [[v | e] priced].
        -- exact Hnewton.
        -- destruct e; try exact Hnewton.
           apply bisection_not_input_failure.
Qed.

Lemma intrinsic_of_two_over_one :
  ImpliedVol._calculate_intrinsic_value 2 1 1 0 CALL 0 = 1.
Proof.
  unfold ImpliedVol._calculate_intrinsic_value.
  replace (- 0 * 1) with 0 by ring. rewrite exp_0.
  rewrite Rmax_left; lra.
Qed.

(** C3 (as stated) fails: a market price equal to the intrinsic value (here
    both are 1) does not strictly exceed it, yet passes the checks and is
    handed to the bisection, which prices at least one trial volatility. *)
Lemma price_at_intrinsic_is_not_rejected :
  let intrinsic := ImpliedVol._calculate_intrinsic_value 2 1 1 0 CALL 0 in
  let run :=
    ImpliedVol.implied_volatility logistic_law 2 1 1 0 1 CALL 0
      IV_INITIAL_GUESS IV_SOLVER_TOLERANCE IV_SOLVER_MAX_ITERATIONS in
  ~ (intrinsic < 1) /\
  ~ ImpliedVol.input_failure (fst run) /\
  (1 <= snd run)%nat.
Proof.
  intros intrinsic run. unfold intrinsic, run.
  unfold ImpliedVol.implied_volatility.
  rewrite intrinsic_of_two_over_one.
  split; [lra |].
  destruct (Rlt_dec 1 1) as [H | _]; [lra |].
  destruct (Rle_dec 1 0) as [H | _]; [lra |].
  destruct (Rlt_dec (1 - 1) (1 / 100)) as [_ | H]; [| lra].
  change (Z.to_nat IV_SOLVER_MAX_ITERATIONS) with 50%nat.
  unfold ImpliedVol._bisection_method.
  split.
  - apply bisection_not_input_failure.
  - apply bisection_prices_midpoint;
      unfold IV_MIN_VALUE, IV_MAX_VALUE; lra.
Qed.

Lemma implied_volatility_input_checks_witness :
  let rejected :=
    ImpliedVol.implied_volatility logistic_law 2 1 1 0 (1 / 2) CALL 0
      IV_INITIAL_GUESS IV_SOLVER_TOLERANCE IV_SOLVER_MAX_ITERATIONS in
  let accepted :=
    ImpliedVol.implied_volatility logistic_law 2 1 1 0 (3 / 2) CALL 0
      IV_INITIAL_GUESS IV_SOLVER_TOLERANCE IV_SOLVER_MAX_ITERATIONS in
  (ImpliedVol.input_failure (fst rejected) /\ snd rejected = 0%nat) /\
  ~ ImpliedVol.input_failure (fst accepted).
Proof.
  split.
  - apply (implied_volatility_input_checks logistic_law 2 1 1 0 (1 / 2) CALL
             0 IV_INITIAL_GUESS IV_SOLVER_TOLERANCE IV_SOLVER_MAX_ITERATIONS).
    left. rewrite intrinsic_of_two_over_one. lra.
  - apply (implied_volatility_input_checks logistic_law 2 1 1 0 (3 / 2) CALL
             0 IV_INITIAL_GUESS IV_SOLVER_TOLERANCE IV_SOLVER_MAX_ITERATIONS).
    rewrite intrinsic_of_two_over_one. lra.
Defined.

(** ** The binomial lattice: American against European exercise *)

Section LatticeRows.
Variable o : Option.
Variable N : Z.

Lemma nth_map_seq (f : nat -> R) (len j : nat) :
  (j < len)%nat -> nth j (map f (seq 0 len)) 0 = f j.
Proof.
  intros Hj.
  rewrite (nth_indep _ 0 (f 0%nat)) by (now rewrite length_map, length_seq).
  rewrite map_nth, seq_nth by exact Hj. reflexivity.
Qed.

Lemma induction_row_of_fun (i : nat) (f : nat -> R) :
  Binomial.induction_row o N i (map f (seq 0 (S i + 1)))
  = map (row_above o N i f) (seq 0 (i + 1)).
Proof.
  unfold Binomial.induction_row. apply map_ext_in.
  intros j Hj. apply in_seq in Hj. unfold row_above.
  rewrite !nth_map_seq by lia. reflexivity.
Qed.

Lemma backward_induction_of_fun (k : nat) :
  forall f : nat -> R,
    Binomial.backward_induction o N k (map f (seq 0 (k + 1)))
    = map (rows_above o N k f) (seq 0 1).
Proof.
  induction k as [| i IH]; intros f; [reflexivity |].
  cbn [Binomial.backward_induction rows_above].
  rewrite induction_row_of_fun. apply IH.
Qed.

(** The price is the root cell of the backward induction. *)
Lemma price_root :
  (1 <= N)%Z ->
  Binomial.price o N
  = Ok (rows_above o N (Z.to_nat N)
          (fun j => Binomial._get_payoff o
                      (Binomial.stock_tree o N (Z.to_nat N) j)) 0%nat).
Proof.
  intros HN. unfold Binomial.price.
  destruct (N =? 0)%Z eqn:H0; [apply Z.eqb_eq in H0; lia |].
  destruct (N <? -1)%Z eqn:H1; [apply Z.ltb_lt in H1; lia |].
  destruct (N =? -1)%Z eqn:H2; [apply Z.eqb_eq in H2; lia |].
  unfold Binomial.terminal_row.
  rewrite backward_induction_of_fun. reflexivity.
Qed.

End LatticeRows.

Section AmericanEuropean.
Variable o : Option.
Variable N : Z.
Hypothesis Hvalid : valid_option o.
Hypothesis HN : (1 <= N)%Z.

Let oA := with_exercise_style o AMERICAN.
Let oE := with_exercise_style o EUROPEAN.
Let p := Binomial._calculate_risk_neutral_probability o N.
Let disc := Binomial.discount o N.
Let u := Binomial.up o N.
Let d := Binomial.down o N.

Lemma dt_pos : 0 < Binomial.dt o N.
Proof.
  destruct Hvalid as (_ & _ & HT & _).
  unfold Binomial.dt. apply Rdiv_lt_0_compat; [exact HT |].
  apply IZR_lt. lia.
Qed.

Lemma up_gt_1 : 1 < u.
Proof.
  destruct Hvalid as (_ & _ & _ & Hsig & _).
  unfold u, Binomial.up. apply exp_pos_gt_1.
  apply Rmult_lt_0_compat; [exact Hsig |].
  apply sqrt_lt_R0. exact dt_pos.
Qed.

Lemma down_bounds : 0 < d < 1.
Proof.
  pose proof up_gt_1 as Hu. unfold d, Binomial.down. fold u.
  split.
  - apply Rdiv_lt_0_compat; lra.
  - apply Rmult_lt_reg_r with u; [lra |].
    unfold Rdiv. rewrite Rmult_assoc, Rinv_l by lra. lra.
Qed.

Lemma discount_pos : 0 < disc.
Proof. apply exp_pos. Qed.

Lemma node_value_european (i j : nat) (vu vd : R) :
  Binomial.node_value oE N i j vu vd = disc * (p * vu + (1 - p) * vd).
Proof. reflexivity. Qed.

Lemma node_value_american (i j : nat) (vu vd : R) :
  Binomial.node_value oA N i j vu vd
  = Rmax (disc * (p * vu + (1 - p) * vd))
         (Binomial._get_payoff o (Binomial.stock_tree o N i j)).
Proof. reflexivity. Qed.

Lemma payoff_nonneg (s : R) : 0 <= Binomial._get_payoff o s.
Proof. unfold Binomial._get_payoff. destruct (option_type o); apply Rmax_r. Qed.

Section Dominance.
Hypothesis Hp : 0 <= p <= 1.

Lemma row_above_dominates (i : nat) (fA fE : nat -> R) :
  (forall j, fE j <= fA j) ->
  forall j, row_above oE N i fE j <= row_above oA N i fA j.
Proof.
  intros Hle j. unfold row_above.
  rewrite node_value_european, node_value_american.
  pose proof discount_pos as Hd.
  pose proof (Hle j) as H0. pose proof (Hle (j + 1)%nat) as H1.
  apply Rle_trans with (disc * (p * fA (j + 1)%nat + (1 - p) * fA j));
    [| apply Rmax_l].
  apply Rmult_le_compat_l; [lra |]. nra.
Qed.

Lemma rows_above_dominate (k : nat) :
  forall fA fE : nat -> R,
    (forall j, fE j <= fA j) ->
    forall j, rows_above oE N k fE j <= rows_above oA N k fA j.
Proof.
  induction k as [| i IH]; intros fA fE Hle; [exact Hle |].
  cbn [rows_above]. apply IH. now apply row_above_dominates.
Qed.

(** Early exercise of a call is never worth more than holding when there are
    no dividends and the rate is not negative. *)
Section CallWithoutDividend.
Hypothesis Hcall : option_type o = CALL.
Hypothesis Hq : dividend_yield o = 0.
Hypothesis Hr : 0 <= risk_free_rate o.

Lemma stock_tree_up (i j : nat) :
  Binomial.stock_tree o N (S i) (j + 1) = u * Binomial.stock_tree o N i j.
Proof.
  unfold Binomial.stock_tree. fold u d.
  replace (j + 1)%nat with (S j) by lia.
  cbn [Nat.sub pow]. ring.
Qed.

Lemma stock_tree_down (i j : nat) :
  (j <= i)%nat ->
  Binomial.stock_tree o N (S i) j = d * Binomial.stock_tree o N i j.
Proof.
  intros Hj. unfold Binomial.stock_tree. fold u d.
  rewrite Nat.sub_succ_l by exact Hj. cbn [pow]. ring.
Qed.

Lemma expected_growth : d + p * (u - d) = exp (risk_free_rate o * Binomial.dt o N).
Proof.
  pose proof up_gt_1. pose proof down_bounds.
  unfold p, Binomial._calculate_risk_neutral_probability. fold u d.
  rewrite Hq. replace (risk_free_rate o - 0) with (risk_free_rate o) by ring.
  field. lra.
Qed.

Lemma discount_growth : disc * exp (risk_free_rate o * Binomial.dt o N) = 1.
Proof.
  unfold disc, Binomial.discount. rewrite <- exp_plus.
  replace (_ + _) with 0 by ring. apply exp_0.
Qed.

Lemma discount_le_1 : disc <= 1.
Proof.
  unfold disc, Binomial.discount. apply exp_nonpos_le_1.
  pose proof dt_pos. nra.
Qed.

Lemma row_above_agrees (i : nat) (fA fE : nat -> R) :
  level_agrees o N (S i) fA fE ->
  level_agrees o N i (row_above oA N i fA) (row_above oE N i fE).
Proof.
  intros Hlev j Hj. unfold row_above.
  rewrite node_value_european, node_value_american.
  destruct (Hlev j) as (Ha0 & Hs0 & Hn0); [lia |].
  destruct (Hlev (j + 1)%nat) as (Ha1 & Hs1 & Hn1); [lia |].
  rewrite Ha0, Ha1.
  rewrite stock_tree_up in Hs1. rewrite stock_tree_down in Hs0 by exact Hj.
  set (s := Binomial.stock_tree o N i j) in *.
  set (vu := fE (j + 1)%nat) in *. set (vd := fE j) in *.
  pose proof discount_pos as Hd. pose proof discount_le_1 as Hd1.
  pose proof expected_growth as Hg. pose proof discount_growth as Hdg.
  destruct Hvalid as (_ & HK & _).
  set (K := strike_price o) in *.
  set (E := exp (risk_free_rate o * Binomial.dt o N)) in *.
  assert (0 <= p * vu + (1 - p) * vd) as Hhold0 by nra.
  assert (s * E - K <= p * vu + (1 - p) * vd) as Hhold.
  { rewrite <- Hg. nra. }
  assert (s - K <= disc * (p * vu + (1 - p) * vd)) as Hex.
  { apply Rle_trans with (disc * (s * E - K)).
    - replace (disc * (s * E - K)) with (s * (disc * E) - disc * K) by ring.
      rewrite Hdg. nra.
    - apply Rmult_le_compat_l; lra. }
  assert (0 <= disc * (p * vu + (1 - p) * vd)) as Hpos
    by (apply Rmult_le_pos; lra).
  split; [| split; assumption].
  apply Rmax_left. unfold Binomial._get_payoff. rewrite Hcall. fold K.
  apply Rmax_lub; assumption.
Qed.

Lemma rows_above_agree (k : nat) :
  forall fA fE : nat -> R,
    level_agrees o N k fA fE ->
    level_agrees o N 0 (rows_above oA N k fA) (rows_above oE N k fE).
Proof.
  induction k as [| i IH]; intros fA fE Hlev; [exact Hlev |].
  cbn [rows_above]. apply IH. now apply row_above_agrees.
Qed.

End CallWithoutDividend.
End Dominance.
End AmericanEuropean.

Lemma Rdiv_gt_1 (a b : R) : 0 < b -> b < a -> 1 < a / b.
Proof.
  intros Hb Hab. replace 1 with (b / b) by (field; lra).
  unfold Rdiv. apply Rmult_lt_compat_r; [now apply Rinv_0_lt_compat | exact Hab].
Qed.

Lemma Rinv_of_gt_1 (x : R) : 1 < x -> 0 < 1 / x < 1.
Proof.
  intros Hx. split.
  - apply Rdiv_lt_0_compat; lra.
  - apply Rmult_lt_reg_r with x; [lra |]. unfold Rdiv.
    rewrite Rmult_assoc, Rinv_l by lra. lra.
Qed.

Lemma payoff_style (o : Option) (s : ExerciseStyle) (x : R) :
  Binomial._get_payoff (with_exercise_style o s) x = Binomial._get_payoff o x.
Proof. reflexivity. Qed.

Lemma stock_tree_style (o : Option) (s : ExerciseStyle) (N : Z) (i j : nat) :
  Binomial.stock_tree (with_exercise_style o s) N i j
  = Binomial.stock_tree o N i j.
Proof. reflexivity. Qed.

Lemma high_rate_put_up : Binomial.up high_rate_put 2 = exp 1.
Proof.
  unfold Binomial.up, Binomial.dt, high_rate_put; simpl.
  replace (2 / 2) with 1 by field. rewrite sqrt_1. f_equal. ring.
Qed.

Lemma high_rate_put_probability :
  1 < Binomial._calculate_risk_neutral_probability high_rate_put 2.
Proof.
  unfold Binomial._calculate_risk_neutral_probability, Binomial.down.
  rewrite high_rate_put_up.
  unfold Binomial.dt, high_rate_put; simpl.
  replace ((2 - 0) * (2 / 2)) with 2 by field.
  pose proof (exp_pos_gt_1 1 ltac:(lra)) as He.
  pose proof (exp_increasing 1 2 ltac:(lra)) as He2.
  pose proof (Rinv_of_gt_1 (exp 1) He) as Hd.
  apply Rdiv_gt_1; lra.
Qed.

Lemma high_rate_put_prices :
  exists e,
    Binomial.price (with_exercise_style high_rate_put AMERICAN) 2 = Ok 0 /\
    Binomial.price (with_exercise_style high_rate_put EUROPEAN) 2 = Ok e /\
    0 < e.
Proof.
  pose proof high_rate_put_probability as Hp.
  pose proof (exp_pos_gt_1 1 ltac:(lra)) as He.
  pose proof (Rinv_of_gt_1 (exp 1) He) as Hd.
  assert (Binomial.stock_tree high_rate_put 2 2 2 = exp 1 * exp 1) as Ht22.
  { unfold Binomial.stock_tree, Binomial.down. rewrite high_rate_put_up.
    unfold high_rate_put; simpl. ring. }
  assert (Binomial.stock_tree high_rate_put 2 2 1 = 1) as Ht21.
  { unfold Binomial.stock_tree, Binomial.down. rewrite high_rate_put_up.
    unfold high_rate_put; simpl. field. lra. }
  assert (Binomial.stock_tree high_rate_put 2 2 0
          = (1 / exp 1) * (1 / exp 1)) as Ht20.
  { unfold Binomial.stock_tree, Binomial.down. rewrite high_rate_put_up.
    unfold high_rate_put; simpl. ring. }
  assert (Binomial.stock_tree high_rate_put 2 1 1 = exp 1) as Ht11.
  { unfold Binomial.stock_tree, Binomial.down. rewrite high_rate_put_up.
    unfold high_rate_put; simpl. ring. }
  assert (Binomial.stock_tree high_rate_put 2 1 0 = 1 / exp 1) as Ht10.
  { unfold Binomial.stock_tree, Binomial.down. rewrite high_rate_put_up.
    unfold high_rate_put; simpl. ring. }
  assert (Binomial.stock_tree high_rate_put 2 0 0 = 1) as Ht00.
  { unfold Binomial.stock_tree, Binomial.down. rewrite high_rate_put_up.
    unfold high_rate_put; simpl. ring. }
  assert (forall s, Binomial._get_payoff high_rate_put s = Rmax (1 - s) 0)
    as Hpay by reflexivity.
  pose proof (exp_pos (- risk_free_rate high_rate_put
                       * Binomial.dt high_rate_put 2)) as Hdisc.
  fold (Binomial.discount high_rate_put 2) in Hdisc.
  set (disc := Binomial.discount high_rate_put 2) in *.
  set (p := Binomial._calculate_risk_neutral_probability high_rate_put 2) in *.
  set (f0 := 1 - 1 / exp 1 * (1 / exp 1)).
  assert (0 < f0) as Hf0 by (unfold f0; nra).
  exists (disc * (p * (disc * (p * 0 + (1 - p) * 0))
                  + (1 - p) * (disc * (p * 0 + (1 - p) * f0)))).
  split; [| split].
  - rewrite price_root by lia. change (Z.to_nat 2) with 2%nat.
    cbn [rows_above]; unfold row_above; cbn [Nat.add].
    rewrite !node_value_american, !payoff_style, !stock_tree_style.
    rewrite Ht22, Ht21, Ht20, Ht11, Ht10, Ht00, !Hpay.
    fold disc p.
    rewrite (Rmax_right (1 - exp 1 * exp 1) 0) by nra.
    rewrite (Rmax_right (1 - 1) 0) by lra.
    rewrite (Rmax_left (1 - 1 / exp 1 * (1 / exp 1)) 0) by (fold f0; lra).
    rewrite (Rmax_right (1 - exp 1) 0) by lra.
    rewrite (Rmax_left (1 - 1 / exp 1) 0) by lra.
    fold f0.
    replace (disc * (p * 0 + (1 - p) * 0)) with 0 by ring.
    rewrite (Rmax_left 0 0) by lra.
    rewrite (Rmax_right (disc * (p * 0 + (1 - p) * f0)) (1 - 1 / exp 1)).
    2:{ assert (disc * (p * 0 + (1 - p) * f0) <= 0); [| lra].
        replace (disc * (p * 0 + (1 - p) * f0)) with (- (disc * ((p - 1) * f0)))
          by ring.
        assert (0 < disc * ((p - 1) * f0)); [| lra].
        apply Rmult_lt_0_compat; [lra |]. apply Rmult_lt_0_compat; lra. }
    f_equal. apply Rmax_right.
    replace (disc * (p * 0 + (1 - p) * (1 - 1 / exp 1)))
      with (- (disc * ((p - 1) * (1 - 1 / exp 1)))) by ring.
    assert (0 < disc * ((p - 1) * (1 - 1 / exp 1))); [| lra].
    apply Rmult_lt_0_compat; [lra |]. apply Rmult_lt_0_compat; lra.
  - rewrite price_root by lia. change (Z.to_nat 2) with 2%nat.
    cbn [rows_above]; unfold row_above; cbn [Nat.add].
    rewrite !node_value_european, !payoff_style, !stock_tree_style.
    rewrite Ht22, Ht21, Ht20, !Hpay.
    fold disc p.
    rewrite (Rmax_right (1 - exp 1 * exp 1) 0) by nra.
    rewrite (Rmax_right (1 - 1) 0) by lra.
    rewrite (Rmax_left (1 - 1 / exp 1 * (1 / exp 1)) 0) by (fold f0; lra).
    reflexivity.
  - replace (disc * (p * (disc * (p * 0 + (1 - p) * 0))
                     + (1 - p) * (disc * (p * 0 + (1 - p) * f0))))
      with (disc * disc * ((p - 1) * (p - 1)) * f0) by ring.
    repeat apply Rmult_lt_0_compat; lra.
Qed.

Lemma negative_rate_call_prices :
  Binomial.price (with_exercise_style negative_rate_call AMERICAN) 1 = Ok 99 /\
  Binomial.price (with_exercise_style negative_rate_call EUROPEAN) 1
  = Ok (100 - exp 1).
Proof.
  pose proof (exp_pos_gt_1 1 ltac:(lra)) as He.
  pose proof exp_le_3 as He3.
  pose proof (Rinv_of_gt_1 (exp 1) He) as Hd.
  assert (Binomial.up negative_rate_call 1 = exp 1) as Hup.
  { unfold Binomial.up, Binomial.dt, negative_rate_call; simpl.
    replace (1 / 1) with 1 by field. rewrite sqrt_1. f_equal. ring. }
  assert (Binomial._calculate_risk_neutral_probability negative_rate_call 1
          = 0) as Hp.
  { unfold Binomial._calculate_risk_neutral_probability, Binomial.down.
    rewrite Hup. unfold Binomial.dt, negative_rate_call; simpl.
    replace ((-1 - 0) * (1 / 1)) with (Ropp 1) by field.
    rewrite exp_Ropp. field. split; [lra |].
    intros Hc. assert (exp 1 * exp 1 = 1) by lra. nra. }
  assert (Binomial.discount negative_rate_call 1 = exp 1) as Hdisc.
  { unfold Binomial.discount, Binomial.dt, negative_rate_call; simpl.
    f_equal. field. }
  assert (Binomial.stock_tree negative_rate_call 1 1 1 = 100 * exp 1) as Ht11.
  { unfold Binomial.stock_tree, Binomial.down. rewrite Hup.
    unfold negative_rate_call; simpl. ring. }
  assert (Binomial.stock_tree negative_rate_call 1 1 0 = 100 / exp 1) as Ht10.
  { unfold Binomial.stock_tree, Binomial.down. rewrite Hup.
    unfold negative_rate_call; simpl. field. lra. }
  assert (Binomial.stock_tree negative_rate_call 1 0 0 = 100) as Ht00.
  { unfold Binomial.stock_tree, Binomial.down. rewrite Hup.
    unfold negative_rate_call; simpl. ring. }
  assert (forall s, Binomial._get_payoff negative_rate_call s = Rmax (s - 1) 0)
    as Hpay by reflexivity.
  assert (1 < 100 / exp 1) as Hitm.
  { apply Rdiv_gt_1; lra. }
  assert (exp 1 * (0 * (100 * exp 1 - 1) + (1 - 0) * (100 / exp 1 - 1))
          = 100 - exp 1) as Hhold by (field; lra).
  split.
  - rewrite one_step_price.
    rewrite node_value_american, !payoff_style, !stock_tree_style.
    rewrite Hp, Hdisc, Ht11, Ht10, Ht00, !Hpay.
    rewrite (Rmax_left (100 * exp 1 - 1) 0) by nra.
    rewrite (Rmax_left (100 / exp 1 - 1) 0) by lra.
    rewrite (Rmax_left (100 - 1) 0) by lra.
    rewrite Hhold. f_equal. rewrite Rmax_right; lra.
  - rewrite one_step_price.
    rewrite node_value_european, !payoff_style, !stock_tree_style.
    rewrite Hp, Hdisc, Ht11, Ht10, !Hpay.
    rewrite (Rmax_left (100 * exp 1 - 1) 0) by nra.
    rewrite (Rmax_left (100 / exp 1 - 1) 0) by lra.
    now rewrite Hhold.
Qed.

(** C2 (as amended). For a valid contract, a step count N >= 1 and a
    risk-neutral up-probability in [0, 1], the lattice price with American
    exercise is >= the price with European exercise; when moreover the
    option is a call, the dividend yield is zero and the rate is not
    negative, the two prices are equal (so within 0.01). *)
Theorem american_at_least_european (o : Option) (N : Z) :
  valid_option o ->
  (1 <= N)%Z ->
  0 <= Binomial._calculate_risk_neutral_probability o N <= 1 ->
  exists a e,
    Binomial.price (with_exercise_style o AMERICAN) N = Ok a /\
    Binomial.price (with_exercise_style o EUROPEAN) N = Ok e /\
    e <= a /\
    (option_type o = CALL -> dividend_yield o = 0 -> 0 <= risk_free_rate o ->
     a = e /\ Rabs (a - e) < 1 / 100).
Proof.
  intros Hvalid HN Hp.
  rewrite !price_root by exact HN.
  eexists _, _. split; [reflexivity |]. split; [reflexivity |].
  split.
  - apply rows_above_dominate; [exact Hp |].
    intros j. apply Rle_refl.
  - intros Hcall Hq Hr.
    assert (forall x y : R, x = y -> x = y /\ Rabs (x - y) < 1 / 100) as Hclose.
    { intros x y ->. split; [reflexivity |].
      replace (y - y) with 0 by ring. rewrite Rabs_R0. lra. }
    apply Hclose.
    apply (rows_above_agree o N Hvalid HN Hp Hcall Hq Hr (Z.to_nat N)
             _ _); [| apply Nat.le_refl].
    intros j _. rewrite !payoff_style, !stock_tree_style.
    split; [reflexivity |].
    unfold Binomial._get_payoff. rewrite Hcall.
    split; [apply Rmax_l | apply Rmax_r].
Qed.

Lemma unit_call_one_step_probability :
  0 <= Binomial._calculate_risk_neutral_probability unit_call 1 <= 1.
Proof.
  pose proof (up_gt_1 unit_call 1) as Hu.
  unfold Binomial._calculate_risk_neutral_probability, Binomial.down.
  assert (1 < Binomial.up unit_call 1) as Hup.
  { apply Hu; [unfold valid_option, unit_call; simpl; lra | lia]. }
  pose proof (Rinv_of_gt_1 _ Hup) as Hd.
  replace ((risk_free_rate unit_call - dividend_yield unit_call)
           * Binomial.dt unit_call 1) with 0
    by (unfold Binomial.dt, unit_call; simpl; field).
  rewrite exp_0.
  set (u := Binomial.up unit_call 1) in *.
  split.
  - apply Rdiv_nonneg; lra.
  - apply Rmult_le_reg_r with (u - 1 / u); [lra |].
    unfold Rdiv at 1. rewrite Rmult_assoc, Rinv_l by lra. lra.
Qed.

(** C2 (as stated) fails twice.  With an up-probability above 1
    ([high_rate_put], two steps) the American price 0 is below the European
    price; with a negative rate ([negative_rate_call], one step, no
    dividend) the American call is worth 99 and the European 100 - e, more
    than 0.01 apart. *)
Lemma american_below_european_and_call_gap :
  (valid_option high_rate_put /\
   exists a e,
     Binomial.price (with_exercise_style high_rate_put AMERICAN) 2 = Ok a /\
     Binomial.price (with_exercise_style high_rate_put EUROPEAN) 2 = Ok e /\
     a < e) /\
  (valid_option negative_rate_call /\
   option_type negative_rate_call = CALL /\
   dividend_yield negative_rate_call = 0 /\
   exists a e,
     Binomial.price (with_exercise_style negative_rate_call AMERICAN) 1 = Ok a /\
     Binomial.price (with_exercise_style negative_rate_call EUROPEAN) 1 = Ok e /\
     1 / 100 <= Rabs (a - e)).
Proof.
  split.
  - split; [unfold valid_option, high_rate_put; simpl; lra |].
    destruct high_rate_put_prices as (e & Ha & He & Hpos).
    now exists 0, e.
  - split; [unfold valid_option, negative_rate_call; simpl; lra |].
    split; [reflexivity |]. split; [reflexivity |].
    destruct negative_rate_call_prices as [Ha He].
    exists 99, (100 - exp 1). split; [exact Ha |]. split; [exact He |].
    pose proof (exp_ineq1 1 ltac:(lra)) as Hexp.
    rewrite Rabs_right; lra.
Qed.

Lemma american_at_least_european_witness :
  exists a e,
    Binomial.price (with_exercise_style unit_call AMERICAN) 1 = Ok a /\
    Binomial.price (with_exercise_style unit_call EUROPEAN) 1 = Ok e /\
    e <= a /\
    (option_type unit_call = CALL -> dividend_yield unit_call = 0 ->
     0 <= risk_free_rate unit_call ->
     a = e /\ Rabs (a - e) < 1 / 100).
Proof.
  apply (american_at_least_european unit_call 1).
  - unfold valid_option, unit_call; simpl. lra.
  - lia.
  - exact unit_call_one_step_probability.
Defined.

(** * Further properties of the code *)

(** ** The implied-volatility solver, continued *)

Section SolverSteps.
Context (norm : NormalDist).
Variables spot strike time rate target : R.
Variable ty : OptionType.
Variables div tol : R.

(** The trial contract of an iteration at volatility [vol]. *)
Let trial (vol : R) : Option :=
  mkOption spot strike time vol rate ty EUROPEAN div.

Lemma bisection_step_rejected (lo hi : R) (iters priced : nat) :
  Option_new spot strike time ((lo + hi) / 2) rate ty EUROPEAN div
  = Err ValidationError ->
  ImpliedVol.bisection_loop norm spot strike time rate target ty div tol
    lo hi (S iters) priced = (Err ValidationError, priced).
Proof. intros Hnew. simpl. now rewrite Hnew. Qed.

Lemma bisection_step_accepted (lo hi : R) (iters priced : nat) :
  Option_new spot strike time ((lo + hi) / 2) rate ty EUROPEAN div
  = Ok (trial ((lo + hi) / 2)) ->
  ImpliedVol.bisection_loop norm spot strike time rate target ty div tol
    lo hi (S iters) priced
  = let mid := (lo + hi) / 2 in
    let price_mid := BlackScholes.price norm (trial mid) in
    if Rlt_dec (Rabs (price_mid - target)) tol then (Ok mid, S priced)
    else if Rlt_dec price_mid target then
      if Rlt_dec (hi - mid) tol then (Ok mid, S priced)
      else ImpliedVol.bisection_loop norm spot strike time rate target ty
             div tol mid hi iters (S priced)
    else
      if Rlt_dec (mid - lo) tol then (Ok mid, S priced)
      else ImpliedVol.bisection_loop norm spot strike time rate target ty
             div tol lo mid iters (S priced).
Proof.
  intros Hnew. cbn [ImpliedVol.bisection_loop]. rewrite Hnew.
  cbn [BlackScholes.init trial exercise_style]. cbv zeta.
  destruct (Rlt_dec (Rabs (BlackScholes.price norm (trial ((lo + hi) / 2))
                           - target)) tol); [reflexivity |].
  destruct (Rlt_dec (BlackScholes.price norm (trial ((lo + hi) / 2))) target);
    reflexivity.
Qed.

Lemma newton_step_rejected (vol : R) (iters priced : nat) :
  Option_new spot strike time vol rate ty EUROPEAN div = Err ValidationError ->
  ImpliedVol._newton_raphson norm spot strike time rate target ty div vol tol
    (S iters) priced = (Err ValidationError, priced).
Proof. intros Hnew. simpl. now rewrite Hnew. Qed.

Lemma newton_step_accepted (vol : R) (iters priced : nat) :
  Option_new spot strike time vol rate ty EUROPEAN div = Ok (trial vol) ->
  ImpliedVol._newton_raphson norm spot strike time rate target ty div vol tol
    (S iters) priced
  = let price := BlackScholes.price norm (trial vol) in
    let vega := BlackScholes.vega norm (trial vol) in
    if Rlt_dec (Rabs (price - target)) tol then (Ok vol, S priced)
    else if Rlt_dec (Rabs vega) (1 / 10 ^ 10) then
      (Err (ImpliedVolatilityError VegaTooSmall), S priced)
    else
      ImpliedVol._newton_raphson norm spot strike time rate target ty div
        (Rmax IV_MIN_VALUE
           (Rmin IV_MAX_VALUE (vol - (price - target) / (vega * 100))))
        tol iters (S priced).
Proof.
  intros Hnew. cbn [ImpliedVol._newton_raphson]. rewrite Hnew.
  cbn [BlackScholes.init trial exercise_style]. reflexivity.
Qed.

(** *** Bisection *)

Lemma bisection_result_in_bracket (iters : nat) :
  forall (lo hi : R) (priced n : nat) (v : R),
    lo <= hi ->
    ImpliedVol.bisection_loop norm spot strike time rate target ty div tol
      lo hi iters priced = (Ok v, n) ->
    lo <= v <= hi.
Proof.
  induction iters as [| iters IH]; intros lo hi priced n v Hle;
    [discriminate |].
  destruct (Option_new_cases spot strike time ((lo + hi) / 2) rate ty
              EUROPEAN div) as [Hnew | Hnew].
  - rewrite (bisection_step_accepted lo hi iters priced Hnew). cbv zeta.
    destruct (Rlt_dec _ tol).
    { intros Heq. injection Heq as <- _. lra. }
    destruct (Rlt_dec _ target).
    + destruct (Rlt_dec _ tol).
      { intros Heq. injection Heq as <- _. lra. }
      intros Hrec. apply IH in Hrec; lra.
    + destruct (Rlt_dec _ tol).
      { intros Heq. injection Heq as <- _. lra. }
      intros Hrec. apply IH in Hrec; lra.
  - rewrite (bisection_step_rejected lo hi iters priced Hnew). discriminate.
Qed.

Lemma bracket_width_pos (k : nat) :
  0 < (IV_MAX_VALUE - IV_MIN_VALUE) / 2 ^ k.
Proof.
  apply Rdiv_lt_0_compat; [unfold IV_MAX_VALUE, IV_MIN_VALUE; lra |].
  apply pow_lt. lra.
Qed.

Lemma bracket_width_halved (k : nat) :
  (IV_MAX_VALUE - IV_MIN_VALUE) / 2 ^ S k
  = (IV_MAX_VALUE - IV_MIN_VALUE) / 2 ^ k / 2.
Proof.
  assert (2 ^ k <> 0) by (apply pow_nonzero; lra).
  cbn [pow]. field. exact H.
Qed.

Lemma initial_bracket :
  bisection_bracket (fun vol => BlackScholes.price norm (trial vol)) target
    IV_MIN_VALUE IV_MAX_VALUE 0.
Proof.
  unfold bisection_bracket. cbv zeta. cbn [pow].
  split; [exists 0%nat; simpl; lra |].
  split; [lra |]. split; [lra |]. split; now left.
Qed.

(** The two brackets an iteration can pass on. *)
Lemma upper_half_bracket (lo hi : R) (k : nat) :
  bisection_bracket (fun vol => BlackScholes.price norm (trial vol)) target
    lo hi k ->
  BlackScholes.price norm (trial ((lo + hi) / 2)) < target ->
  bisection_bracket (fun vol => BlackScholes.price norm (trial vol)) target
    ((lo + hi) / 2) hi (S k).
Proof.
  unfold bisection_bracket. cbv zeta.
  intros ([j Hj] & Hhi & Hmax & _ & Hup) Hprice.
  rewrite bracket_width_halved.
  set (w := (IV_MAX_VALUE - IV_MIN_VALUE) / 2 ^ k) in *.
  split; [| split; [lra | split; [exact Hmax | split; [now right | exact Hup]]]].
  exists (2 * j + 1)%nat.
  rewrite plus_INR, mult_INR. simpl INR. lra.
Qed.

Lemma lower_half_bracket (lo hi : R) (k : nat) :
  bisection_bracket (fun vol => BlackScholes.price norm (trial vol)) target
    lo hi k ->
  ~ BlackScholes.price norm (trial ((lo + hi) / 2)) < target ->
  bisection_bracket (fun vol => BlackScholes.price norm (trial vol)) target
    lo ((lo + hi) / 2) (S k).
Proof.
  unfold bisection_bracket. cbv zeta.
  intros ([j Hj] & Hhi & Hmax & Hlow & _) Hprice.
  rewrite bracket_width_halved.
  pose proof (bracket_width_pos k) as Hw.
  set (w := (IV_MAX_VALUE - IV_MIN_VALUE) / 2 ^ k) in *.
  split; [| split; [lra | split; [lra | split; [exact Hlow | right; lra]]]].
  exists (2 * j)%nat.
  rewrite mult_INR. simpl INR. lra.
Qed.

(** A volatility the bisection returns either prices within the tolerance
    of the target, or is an end of the bracket the loop has reached, which
    is narrower than the tolerance. *)
Lemma bisection_result_criterion (iters : nat) :
  forall (lo hi : R) (k priced n : nat) (v : R),
    bisection_bracket (fun vol => BlackScholes.price norm (trial vol)) target
      lo hi k ->
    ImpliedVol.bisection_loop norm spot strike time rate target ty div tol
      lo hi iters priced = (Ok v, n) ->
    Rabs (BlackScholes.price norm (trial v) - target) < tol \/
    exists lo' hi' k',
      bisection_bracket (fun vol => BlackScholes.price norm (trial vol))
        target lo' hi' k' /\
      (k < k')%nat /\
      hi' - lo' < tol /\
      tol <= Rabs (BlackScholes.price norm (trial v) - target) /\
      (v = lo' /\ BlackScholes.price norm (trial v) < target \/
       v = hi' /\ target <= BlackScholes.price norm (trial v)).
Proof.
  induction iters as [| iters IH]; intros lo hi k priced n v Hbr;
    [discriminate |].
  destruct (Option_new_cases spot strike time ((lo + hi) / 2) rate ty
              EUROPEAN div) as [Hnew | Hnew].
  - rewrite (bisection_step_accepted lo hi iters priced Hnew). cbv zeta.
    destruct (Rlt_dec _ tol) as [Hconv | Hfar].
    { intros Heq. injection Heq as <- _. now left. }
    apply Rnot_lt_le in Hfar.
    destruct (Rlt_dec _ target) as [Hbelow | Habove].
    + pose proof (upper_half_bracket lo hi k Hbr Hbelow) as Hbr'.
      destruct (Rlt_dec _ tol) as [Hw | _].
      { intros Heq. injection Heq as <- _. right.
        exists ((lo + hi) / 2), hi, (S k).
        split; [exact Hbr' |]. split; [lia |]. split; [exact Hw |].
        split; [exact Hfar |]. left. split; [reflexivity | exact Hbelow]. }
      intros Hrec. apply (IH _ _ (S k)) in Hrec; [| exact Hbr'].
      destruct Hrec as [Hc | (lo' & hi' & k' & H1 & H2 & H3)]; [now left |].
      right. exists lo', hi', k'. split; [exact H1 |]. split; [lia | exact H3].
    + pose proof (lower_half_bracket lo hi k Hbr Habove) as Hbr'.
      destruct (Rlt_dec _ tol) as [Hw | _].
      { intros Heq. injection Heq as <- _. right.
        exists lo, ((lo + hi) / 2), (S k).
        split; [exact Hbr' |]. split; [lia |]. split; [exact Hw |].
        split; [exact Hfar |]. right. split; [reflexivity | lra]. }
      intros Hrec. apply (IH _ _ (S k)) in Hrec; [| exact Hbr'].
      destruct Hrec as [Hc | (lo' & hi' & k' & H1 & H2 & H3)]; [now left |].
      right. exists lo', hi', k'. split; [exact H1 |]. split; [lia | exact H3].
  - rewrite (bisection_step_rejected lo hi iters priced Hnew). discriminate.
Qed.

Lemma bisection_count_bounded (iters : nat) :
  forall (lo hi : R) (priced : nat),
    (snd (ImpliedVol.bisection_loop norm spot strike time rate target ty div
            tol lo hi iters priced) <= priced + iters)%nat.
Proof.
  induction iters as [| iters IH]; intros lo hi priced; [simpl; lia |].
  destruct (Option_new_cases spot strike time ((lo + hi) / 2) rate ty
              EUROPEAN div) as [Hnew | Hnew].
  - rewrite (bisection_step_accepted lo hi iters priced Hnew). cbv zeta.
    destruct (Rlt_dec _ tol); [simpl; lia |].
    destruct (Rlt_dec _ target); destruct (Rlt_dec _ tol); try (simpl; lia).
    + etransitivity; [apply IH | lia].
    + etransitivity; [apply IH | lia].
  - rewrite (bisection_step_rejected lo hi iters priced Hnew). simpl. lia.
Qed.

(** The bracket halves at every iteration, so a budget of [iters] steps
    with [hi - lo < tol * 2 ^ iters] always ends in a value. *)
Lemma bisection_converges (iters : nat) :
  0 < spot -> 0 < strike -> 0 < time -> 0 <= div ->
  forall (lo hi : R) (priced : nat),
    0 < lo <= hi ->
    hi - lo < tol * 2 ^ (S iters) ->
    exists v n,
      ImpliedVol.bisection_loop norm spot strike time rate target ty div tol
        lo hi (S iters) priced = (Ok v, n).
Proof.
  intros HS HK HT Hq.
  induction iters as [| iters IH]; intros lo hi priced Hlo Hwidth.
  - rewrite bisection_step_accepted by (apply Option_new_ok_iff; lra).
    cbv zeta. simpl in Hwidth.
    destruct (Rlt_dec _ tol); [now eexists _, _ |].
    destruct (Rlt_dec _ target).
    + destruct (Rlt_dec _ tol) as [| Hw]; [now eexists _, _ | lra].
    + destruct (Rlt_dec _ tol) as [| Hw]; [now eexists _, _ | lra].
  - rewrite bisection_step_accepted by (apply Option_new_ok_iff; lra).
    cbv zeta. change (2 ^ S (S iters)) with (2 * 2 ^ S iters) in Hwidth.
    destruct (Rlt_dec _ tol); [now eexists _, _ |].
    destruct (Rlt_dec _ target).
    + destruct (Rlt_dec _ tol); [now eexists _, _ |].
      apply IH; lra.
    + destruct (Rlt_dec _ tol); [now eexists _, _ |].
      apply IH; lra.
Qed.

(** *** Newton-Raphson *)

Lemma newton_result_converged (iters : nat) :
  forall (vol : R) (priced n : nat) (v : R),
    ImpliedVol._newton_raphson norm spot strike time rate target ty div vol
      tol iters priced = (Ok v, n) ->
    Option_new spot strike time v rate ty EUROPEAN div = Ok (trial v) /\
    Rabs (BlackScholes.price norm (trial v) - target) < tol.
Proof.
  induction iters as [| iters IH]; intros vol priced n v; [discriminate |].
  destruct (Option_new_cases spot strike time vol rate ty EUROPEAN div)
    as [Hnew | Hnew].
  - rewrite (newton_step_accepted vol iters priced Hnew). cbv zeta.
    destruct (Rlt_dec _ tol) as [Hconv | _].
    { intros Heq. injection Heq as <- _. now split. }
    destruct (Rlt_dec _ (1 / 10 ^ 10)); [discriminate |].
    apply IH.
  - rewrite (newton_step_rejected vol iters priced Hnew). discriminate.
Qed.

Lemma newton_result_clamped (iters : nat) :
  forall (vol : R) (priced n : nat) (v : R),
    IV_MIN_VALUE <= vol <= IV_MAX_VALUE ->
    ImpliedVol._newton_raphson norm spot strike time rate target ty div vol
      tol iters priced = (Ok v, n) ->
    IV_MIN_VALUE <= v <= IV_MAX_VALUE.
Proof.
  induction iters as [| iters IH]; intros vol priced n v Hvol;
    [discriminate |].
  destruct (Option_new_cases spot strike time vol rate ty EUROPEAN div)
    as [Hnew | Hnew].
  - rewrite (newton_step_accepted vol iters priced Hnew). cbv zeta.
    destruct (Rlt_dec _ tol).
    { intros Heq. injection Heq as <- _. exact Hvol. }
    destruct (Rlt_dec _ (1 / 10 ^ 10)); [discriminate |].
    apply IH. split; [apply Rmax_l |].
    apply Rmax_lub; [unfold IV_MIN_VALUE, IV_MAX_VALUE; lra | apply Rmin_l].
  - rewrite (newton_step_rejected vol iters priced Hnew). discriminate.
Qed.

Lemma newton_count_bounded (iters : nat) :
  forall (vol : R) (priced : nat),
    (snd (ImpliedVol._newton_raphson norm spot strike time rate target ty div
            vol tol iters priced) <= priced + iters)%nat.
Proof.
  induction iters as [| iters IH]; intros vol priced; [simpl; lia |].
  destruct (Option_new_cases spot strike time vol rate ty EUROPEAN div)
    as [Hnew | Hnew].
  - rewrite (newton_step_accepted vol iters priced Hnew). cbv zeta.
    destruct (Rlt_dec _ tol); [simpl; lia |].
    destruct (Rlt_dec _ (1 / 10 ^ 10)); [simpl; lia |].
    etransitivity; [apply IH | lia].
  - rewrite (newton_step_rejected vol iters priced Hnew). simpl. lia.
Qed.

(** With a valid contract and a positive starting volatility Newton-Raphson
    ends in a value or in one of its own two failures. *)
Lemma newton_value_or_own_failure (iters : nat) :
  0 < spot -> 0 < strike -> 0 < time -> 0 <= div ->
  forall (vol : R) (priced : nat),
    0 < vol ->
    exists n,
      (exists v,
          ImpliedVol._newton_raphson norm spot strike time rate target ty div
            vol tol iters priced = (Ok v, n)) \/
      (exists why,
          ImpliedVol._newton_raphson norm spot strike time rate target ty div
            vol tol iters priced = (Err (ImpliedVolatilityError why), n)).
Proof.
  intros HS HK HT Hq.
  induction iters as [| iters IH]; intros vol priced Hvol.
  - exists priced. right. now eexists.
  - rewrite newton_step_accepted by (apply Option_new_ok_iff; lra).
    cbv zeta.
    destruct (Rlt_dec _ tol); [exists (S priced); left; now eexists |].
    destruct (Rlt_dec _ (1 / 10 ^ 10));
      [exists (S priced); right; now eexists |].
    apply IH.
    apply Rlt_le_trans with IV_MIN_VALUE;
      [unfold IV_MIN_VALUE; lra | apply Rmax_l].
Qed.

End SolverSteps.

Section SolverTop.
Context (norm : NormalDist).
Variables spot strike time rate market : R.
Variable ty : OptionType.
Variables div guess tol : R.
Variable iters : Z.

Let intrinsic : R :=
  ImpliedVol._calculate_intrinsic_value spot strike time rate ty div.
Let run : ImpliedVol.outcome :=
  ImpliedVol.implied_volatility norm spot strike time rate market ty div
    guess tol iters.
Let bisect (priced : nat) : ImpliedVol.outcome :=
  ImpliedVol._bisection_method norm spot strike time rate market ty div tol
    (Z.to_nat iters) priced.
Let newton : ImpliedVol.outcome :=
  ImpliedVol._newton_raphson norm spot strike time rate market ty div guess
    tol (Z.to_nat iters) 0.

(** The four ways a call of [implied_volatility] proceeds. *)
Lemma implied_volatility_cases :
  (market < intrinsic /\
   run = (Err (ImpliedVolatilityError BelowIntrinsic), 0%nat)) \/
  (intrinsic <= market /\ market <= 0 /\
   run = (Err (ImpliedVolatilityError PriceNotPositive), 0%nat)) \/
  (intrinsic <= market /\ 0 < market /\ market - intrinsic < 1 / 100 /\
   run = bisect 0) \/
  (intrinsic <= market /\ 0 < market /\ 1 / 100 <= market - intrinsic /\
   ((exists why n, newton = (Err (ImpliedVolatilityError why), n) /\
                   run = bisect n) \/
    (run = newton /\
     forall why n, newton <> (Err (ImpliedVolatilityError why), n)))).
Proof.
  unfold run, ImpliedVol.implied_volatility. fold intrinsic. fold newton.
  destruct (Rlt_dec market intrinsic); [left; now split |].
  destruct (Rle_dec market 0); [right; left; repeat split; lra |].
  destruct (Rlt_dec (market - intrinsic) (1 / 100));
    [right; right; left; repeat split; lra |].
  right; right; right. repeat split; try lra.
  destruct newton as [[v | e] n'].
  - right. split; [reflexivity | discriminate].
  - destruct e; try (right; split; [reflexivity | discriminate]).
    left. now exists why, n'.
Qed.

End SolverTop.

Lemma bisection_failure_kind (norm : NormalDist)
    (spot strike time rate target : R) (ty : OptionType) (div tol : R)
    (iters : nat) :
  forall (lo hi : R) (priced n : nat) (e : error),
    ImpliedVol.bisection_loop norm spot strike time rate target ty div tol
      lo hi iters priced = (Err e, n) ->
    e = ValidationError \/ e = ImpliedVolatilityError BisectionNoConvergence.
Proof.
  induction iters as [| iters IH]; intros lo hi priced n e.
  - simpl. intros Heq. injection Heq as <- _. now right.
  - destruct (Option_new_cases spot strike time ((lo + hi) / 2) rate ty
                EUROPEAN div) as [Hnew | Hnew].
    + rewrite (bisection_step_accepted norm _ _ _ _ _ _ _ _ lo hi iters
                 priced Hnew). cbv zeta.
      destruct (Rlt_dec _ tol); [discriminate |].
      destruct (Rlt_dec _ target); destruct (Rlt_dec _ tol);
        try discriminate; apply IH.
    + rewrite (bisection_step_rejected norm _ _ _ _ _ _ _ _ lo hi iters
                 priced Hnew).
      intros Heq. injection Heq as <- _. now left.
Qed.

Lemma newton_failure_kind (norm : NormalDist)
    (spot strike time rate target : R) (ty : OptionType) (div tol : R)
    (iters : nat) :
  forall (vol : R) (priced n : nat) (e : error),
    ImpliedVol._newton_raphson norm spot strike time rate target ty div vol
      tol iters priced = (Err e, n) ->
    e = ValidationError \/ exists why, e = ImpliedVolatilityError why.
Proof.
  induction iters as [| iters IH]; intros vol priced n e.
  - simpl. intros Heq. injection Heq as <- _. right. now eexists.
  - destruct (Option_new_cases spot strike time vol rate ty EUROPEAN div)
      as [Hnew | Hnew].
    + rewrite (newton_step_accepted norm _ _ _ _ _ _ _ _ vol iters priced
                 Hnew). cbv zeta.
      destruct (Rlt_dec _ tol); [discriminate |].
      destruct (Rlt_dec _ (1 / 10 ^ 10)).
      * intros Heq. injection Heq as <- _. right. now eexists.
      * apply IH.
    + rewrite (newton_step_rejected norm _ _ _ _ _ _ _ _ vol iters priced
                 Hnew).
      intros Heq. injection Heq as <- _. now left.
Qed.

(** X1. When [implied_volatility] fails, the error is one of its two input
    failures, the bisection's non-convergence, or the validation error of a
    refused trial contract: a Newton-Raphson failure never reaches the
    caller. *)
Theorem implied_volatility_failures (norm : NormalDist)
    (spot strike time rate market : R) (ty : OptionType)
    (div guess tol : R) (iters : Z) (e : error) (n : nat) :
  ImpliedVol.implied_volatility norm spot strike time rate market ty div
    guess tol iters = (Err e, n) ->
  e = ImpliedVolatilityError BelowIntrinsic \/
  e = ImpliedVolatilityError PriceNotPositive \/
  e = ImpliedVolatilityError BisectionNoConvergence \/
  e = ValidationError.
Proof.
  destruct (implied_volatility_cases norm spot strike time rate market ty div
              guess tol iters)
    as [(_ & ->) | [(_ & _ & ->) | [(_ & _ & _ & ->) | (_ & _ & _ & Hn)]]].
  - intros Heq. injection Heq as <- _. auto.
  - intros Heq. injection Heq as <- _. auto.
  - unfold ImpliedVol._bisection_method. intros Hb.
    apply bisection_failure_kind in Hb. tauto.
  - destruct Hn as [(why & n' & _ & ->) | (-> & Hown)].
    + unfold ImpliedVol._bisection_method. intros Hb.
      apply bisection_failure_kind in Hb. tauto.
    + intros Hnewton. pose proof Hnewton as Hkind.
      apply newton_failure_kind in Hkind as [-> | (why & ->)]; [auto |].
      exfalso. exact (Hown why n Hnewton).
Qed.

(** X2. With an initial guess inside [0.001, 5], a volatility returned by
    [implied_volatility] lies inside [0.001, 5]. *)
Theorem implied_volatility_result_in_range (norm : NormalDist)
    (spot strike time rate market : R) (ty : OptionType)
    (div guess tol : R) (iters : Z) (v : R) (n : nat) :
  IV_MIN_VALUE <= guess <= IV_MAX_VALUE ->
  ImpliedVol.implied_volatility norm spot strike time rate market ty div
    guess tol iters = (Ok v, n) ->
  IV_MIN_VALUE <= v <= IV_MAX_VALUE.
Proof.
  intros Hguess.
  assert (IV_MIN_VALUE <= IV_MAX_VALUE) as Hbr
    by (unfold IV_MIN_VALUE, IV_MAX_VALUE; lra).
  destruct (implied_volatility_cases norm spot strike time rate market ty div
              guess tol iters)
    as [(_ & ->) | [(_ & _ & ->) | [(_ & _ & _ & ->) | (_ & _ & _ & Hn)]]];
    try discriminate.
  - unfold ImpliedVol._bisection_method. intros Hb.
    now apply bisection_result_in_bracket in Hb.
  - destruct Hn as [(why & n' & _ & ->) | (-> & _)].
    + unfold ImpliedVol._bisection_method. intros Hb.
      now apply bisection_result_in_bracket in Hb.
    + intros Hnewton. now apply newton_result_clamped in Hnewton.
Qed.

(** X3. A volatility returned by [implied_volatility] either prices within
    the tolerance of the market price, or is an end of the bracket the
    bisection has reached: a cell of the [k]-th halving of [0.001, 5]
    ([k >= 1]) narrower than the tolerance, the lower end if it is priced
    below the market price and the upper end otherwise; the other end is
    an end of [0.001, 5] or a volatility the bisection priced on the other
    side of the market price. *)
Theorem implied_volatility_result_criterion (norm : NormalDist)
    (spot strike time rate market : R) (ty : OptionType)
    (div guess tol : R) (iters : Z) (v : R) (n : nat) :
  ImpliedVol.implied_volatility norm spot strike time rate market ty div
    guess tol iters = (Ok v, n) ->
  let price_at := fun vol =>
    BlackScholes.price norm
      (mkOption spot strike time vol rate ty EUROPEAN div) in
  Rabs (price_at v - market) < tol
  \/ exists lo hi k,
       bisection_bracket price_at market lo hi k /\
       (1 <= k)%nat /\
       hi - lo < tol /\
       tol <= Rabs (price_at v - market) /\
       (v = lo /\ price_at v < market \/ v = hi /\ market <= price_at v).
Proof.
  intros Hrun price_at.
  assert (forall m p,
             ImpliedVol._bisection_method norm spot strike time rate market ty
               div tol m p = (Ok v, n) ->
             Rabs (price_at v - market) < tol
             \/ exists lo hi k,
                  bisection_bracket price_at market lo hi k /\
                  (1 <= k)%nat /\
                  hi - lo < tol /\
                  tol <= Rabs (price_at v - market) /\
                  (v = lo /\ price_at v < market \/
                   v = hi /\ market <= price_at v)) as Hbis.
  { intros m p Hb. unfold ImpliedVol._bisection_method in Hb.
    apply (bisection_result_criterion norm spot strike time rate market ty
             div tol m _ _ 0%nat) in Hb;
      [| apply initial_bracket].
    destruct Hb as [Hc | (lo & hi & k & Hbr & Hk & Hrest)]; [now left |].
    right. exists lo, hi, k.
    split; [exact Hbr |]. split; [lia | exact Hrest]. }
  revert Hrun.
  destruct (implied_volatility_cases norm spot strike time rate market ty div
              guess tol iters)
    as [(_ & ->) | [(_ & _ & ->) | [(_ & _ & _ & ->) | (_ & _ & _ & Hn)]]];
    try discriminate.
  - apply Hbis.
  - destruct Hn as [(why & n' & _ & ->) | (-> & _)].
    + apply Hbis.
    + intros Hnewton. left. now apply newton_result_converged in Hnewton.
Qed.

(** X4. [implied_volatility] prices at most [2 * max_iterations] trial
    contracts. *)
Theorem implied_volatility_pricing_budget (norm : NormalDist)
    (spot strike time rate market : R) (ty : OptionType)
    (div guess tol : R) (iters : Z) :
  (snd (ImpliedVol.implied_volatility norm spot strike time rate market ty
          div guess tol iters) <= 2 * Z.to_nat iters)%nat.
Proof.
  pose proof (newton_count_bounded norm spot strike time rate market ty div
                tol (Z.to_nat iters) guess 0) as Hnewton.
  destruct (implied_volatility_cases norm spot strike time rate market ty div
              guess tol iters)
    as [(_ & ->) | [(_ & _ & ->) | [(_ & _ & _ & ->) | (_ & _ & _ & Hn)]]].
  - simpl. lia.
  - simpl. lia.
  - unfold ImpliedVol._bisection_method.
    etransitivity; [apply bisection_count_bounded | lia].
  - destruct Hn as [(why & n' & Hrun & ->) | (-> & _)].
    + rewrite Hrun in Hnewton. simpl in Hnewton.
      unfold ImpliedVol._bisection_method.
      etransitivity; [apply bisection_count_bounded | lia].
    + lia.
Qed.

(** X5. On a valid contract, with a positive initial guess and a market
    price that passes the input checks, [implied_volatility] returns a
    volatility whenever the budget halves the bracket below the tolerance
    ([5 - 0.001 < tolerance * 2 ^ max_iterations], as with the defaults). *)
Theorem implied_volatility_returns_within_budget (norm : NormalDist)
    (spot strike time rate market : R) (ty : OptionType)
    (div guess tol : R) (iters : Z) :
  0 < spot -> 0 < strike -> 0 < time -> 0 <= div -> 0 < guess ->
  ImpliedVol._calculate_intrinsic_value spot strike time rate ty div
  <= market ->
  0 < market ->
  (1 <= iters)%Z ->
  IV_MAX_VALUE - IV_MIN_VALUE < tol * 2 ^ Z.to_nat iters ->
  exists v n,
    ImpliedVol.implied_volatility norm spot strike time rate market ty div
      guess tol iters = (Ok v, n).
Proof.
  intros HS HK HT Hq Hguess Hintr Hpos Hiters Hbudget.
  assert (exists k, Z.to_nat iters = S k) as [k Hk].
  { exists (Nat.pred (Z.to_nat iters)). lia. }
  assert (forall priced, exists v n,
             ImpliedVol._bisection_method norm spot strike time rate market
               ty div tol (Z.to_nat iters) priced = (Ok v, n)) as Hbisect.
  { intros priced. unfold ImpliedVol._bisection_method. rewrite Hk.
    apply bisection_converges; try assumption.
    - unfold IV_MIN_VALUE, IV_MAX_VALUE; lra.
    - rewrite Hk in Hbudget. exact Hbudget. }
  destruct (implied_volatility_cases norm spot strike time rate market ty div
              guess tol iters)
    as [(Hc & _) | [(_ & Hc & _) | [(_ & _ & _ & ->) | (_ & _ & _ & Hn)]]];
    try lra.
  - apply Hbisect.
  - destruct Hn as [(why & n' & _ & ->) | (-> & Hown)]; [apply Hbisect |].
    destruct (newton_value_or_own_failure norm spot strike time rate market
                ty div tol (Z.to_nat iters) HS HK HT Hq guess 0 Hguess)
      as (n & [(v & Hv) | (why & Hwhy)]).
    + now exists v, n.
    + exfalso. exact (Hown why n Hwhy).
Qed.

(** X6. With a non-positive spot, strike or time, or a negative dividend
    yield, a market price that passes the input checks makes
    [implied_volatility] raise the validation error of the first trial
    contract, before any pricing. *)
Theorem implied_volatility_rejects_invalid_contract (norm : NormalDist)
    (spot strike time rate market : R) (ty : OptionType)
    (div guess tol : R) (iters : Z) :
  spot <= 0 \/ strike <= 0 \/ time <= 0 \/ div < 0 ->
  ImpliedVol._calculate_intrinsic_value spot strike time rate ty div
  <= market ->
  0 < market ->
  (1 <= iters)%Z ->
  ImpliedVol.implied_volatility norm spot strike time rate market ty div
    guess tol iters = (Err ValidationError, 0%nat).
Proof.
  intros Hbad Hintr Hpos Hiters.
  assert (exists k, Z.to_nat iters = S k) as [k Hk].
  { exists (Nat.pred (Z.to_nat iters)). lia. }
  assert (forall vol,
             Option_new spot strike time vol rate ty EUROPEAN div
             = Err ValidationError) as Hnew.
  { intros vol. apply Option_new_invalid. tauto. }
  destruct (implied_volatility_cases norm spot strike time rate market ty div
              guess tol iters)
    as [(Hc & _) | [(_ & Hc & _) | [(_ & _ & _ & ->) | (_ & _ & _ & Hn)]]];
    try lra.
  - unfold ImpliedVol._bisection_method. rewrite Hk.
    now apply bisection_step_rejected.
  - rewrite Hk in Hn.
    rewrite (newton_step_rejected norm _ _ _ _ _ _ _ _ guess k 0 (Hnew guess))
      in Hn.
    destruct Hn as [(why & n' & Hrun & _) | (-> & _)];
      [discriminate | reflexivity].
Qed.

(** X7. With [max_iterations <= 0] and a market price that passes the input
    checks, [implied_volatility] fails with the bisection's non-convergence
    error without pricing anything. *)
Theorem implied_volatility_without_budget (norm : NormalDist)
    (spot strike time rate market : R) (ty : OptionType)
    (div guess tol : R) (iters : Z) :
  ImpliedVol._calculate_intrinsic_value spot strike time rate ty div
  <= market ->
  0 < market ->
  (iters <= 0)%Z ->
  ImpliedVol.implied_volatility norm spot strike time rate market ty div
    guess tol iters
  = (Err (ImpliedVolatilityError BisectionNoConvergence), 0%nat).
Proof.
  intros Hintr Hpos Hiters.
  assert (Z.to_nat iters = 0%nat) as Hk by lia.
  destruct (implied_volatility_cases norm spot strike time rate market ty div
              guess tol iters)
    as [(Hc & _) | [(_ & Hc & _) | [(_ & _ & _ & ->) | (_ & _ & _ & Hn)]]];
    try lra.
  - unfold ImpliedVol._bisection_method. now rewrite Hk.
  - rewrite Hk in Hn. simpl in Hn.
    destruct Hn as [(why & n' & Hrun & ->) | (_ & Hown)].
    + injection Hrun as _ <-. reflexivity.
    + exfalso. exact (Hown NewtonNoConvergence 0%nat eq_refl).
Qed.

(** X8. [implied_volatility] raises "Market price must be positive" only
    for a market price of exactly 0 on a contract whose intrinsic value is
    0: a negative price is reported as below the intrinsic value. *)
Theorem price_not_positive_only_at_zero (norm : NormalDist)
    (spot strike time rate market : R) (ty : OptionType)
    (div guess tol : R) (iters : Z) :
  fst (ImpliedVol.implied_volatility norm spot strike time rate market ty div
         guess tol iters)
  = Err (ImpliedVolatilityError PriceNotPositive)
  <-> market = 0 /\
      ImpliedVol._calculate_intrinsic_value spot strike time rate ty div = 0.
Proof.
  assert (0 <= ImpliedVol._calculate_intrinsic_value spot strike time rate ty
                 div) as Hnonneg.
  { unfold ImpliedVol._calculate_intrinsic_value. destruct ty; apply Rmax_r. }
  destruct (implied_volatility_cases norm spot strike time rate market ty div
              guess tol iters)
    as [(Hc & Hrun) | [(Hi & Hc & Hrun) | [(Hi & Hc & _ & Hrun)
                                          | (Hi & Hc & _ & Hn)]]].
  - rewrite Hrun. simpl. split; [discriminate | lra].
  - rewrite Hrun. simpl. split; [lra | reflexivity].
  - split; [| lra]. intros Hfail. exfalso. rewrite Hrun in Hfail.
    apply (bisection_not_input_failure norm spot strike time rate market ty
             div tol (Z.to_nat iters) IV_MIN_VALUE IV_MAX_VALUE 0).
    right. exact Hfail.
  - split; [| lra]. intros Hfail. exfalso.
    destruct Hn as [(why & n & _ & Hrun) | (Hrun & _)]; rewrite Hrun in Hfail.
    + apply (bisection_not_input_failure norm spot strike time rate market ty
               div tol (Z.to_nat iters) IV_MIN_VALUE IV_MAX_VALUE n).
      right. exact Hfail.
    + apply (newton_not_input_failure norm spot strike time rate market ty
               div tol (Z.to_nat iters) guess 0).
      right. exact Hfail.
Qed.

(** ** Black-Scholes, continued *)

(** X9. Parity of the analytical Greeks on a valid contract: call delta
    minus put delta is [e^(-qT)]; call theta minus put theta is
    [(q S e^(-qT) - r K e^(-rT)) / 365]; call rho minus put rho is
    [K T e^(-rT) / 100]. *)
Theorem black_scholes_greeks_parity (norm : NormalDist) (o : Option) :
  valid_option o ->
  let c := with_option_type o CALL in
  let p := with_option_type o PUT in
  let S := spot_price o in
  let K := strike_price o in
  let T := time_to_expiry o in
  let r := risk_free_rate o in
  let q := dividend_yield o in
  BlackScholes.delta norm c - BlackScholes.delta norm p = exp (- q * T) /\
  BlackScholes.theta norm c - BlackScholes.theta norm p
  = (q * S * exp (- q * T) - r * K * exp (- r * T)) / 365 /\
  BlackScholes.rho norm c - BlackScholes.rho norm p
  = K * T * exp (- r * T) / 100.
Proof.
  intros _. cbv zeta.
  unfold BlackScholes.delta, BlackScholes.theta, BlackScholes.rho,
    BlackScholes._calculate_d1_d2, CALENDAR_DAYS_PER_YEAR; simpl.
  rewrite !cdf_neg. unfold Rdiv.
  repeat split; ring.
Qed.

(** X10. On a valid contract the Black-Scholes call price is below the
    dividend-discounted spot and the put price below the discounted strike
    (and each is above minus the other bound). *)
Theorem black_scholes_price_bounds (norm : NormalDist) (o : Option) :
  valid_option o ->
  BlackScholes.price norm (with_option_type o CALL)
  < spot_price o * exp (- dividend_yield o * time_to_expiry o) /\
  BlackScholes.price norm (with_option_type o PUT)
  < strike_price o * exp (- risk_free_rate o * time_to_expiry o) /\
  - (strike_price o * exp (- risk_free_rate o * time_to_expiry o))
  < BlackScholes.price norm (with_option_type o CALL) /\
  - (spot_price o * exp (- dividend_yield o * time_to_expiry o))
  < BlackScholes.price norm (with_option_type o PUT).
Proof.
  intros (HS & HK & _).
  unfold BlackScholes.price, BlackScholes._calculate_d1_d2; simpl.
  set (d1 := (ln _ + _) / _). set (d2 := d1 - _).
  pose proof (exp_pos (- dividend_yield o * time_to_expiry o)) as Hq.
  pose proof (exp_pos (- risk_free_rate o * time_to_expiry o)) as Hr.
  set (pvS := spot_price o * exp (- dividend_yield o * time_to_expiry o)).
  set (pvK := strike_price o * exp (- risk_free_rate o * time_to_expiry o)).
  assert (0 < pvS) by (apply Rmult_lt_0_compat; assumption).
  assert (0 < pvK) by (apply Rmult_lt_0_compat; assumption).
  pose proof (cdf_pos norm d1). pose proof (cdf_lt_1 norm d1).
  pose proof (cdf_pos norm d2). pose proof (cdf_lt_1 norm d2).
  pose proof (cdf_pos norm (- d1)). pose proof (cdf_lt_1 norm (- d1)).
  pose proof (cdf_pos norm (- d2)). pose proof (cdf_lt_1 norm (- d2)).
  repeat split; nra.
Qed.

(** X11. Scaling spot and strike by the same positive factor scales the
    Black-Scholes price and vega by that factor, leaves delta unchanged and
    divides gamma by it. *)
Theorem black_scholes_homogeneous (norm : NormalDist) (lambda : R)
    (o o' : Option) :
  0 < lambda ->
  valid_option o ->
  scale_contract lambda o = Ok o' ->
  BlackScholes.price norm o' = lambda * BlackScholes.price norm o /\
  BlackScholes.delta norm o' = BlackScholes.delta norm o /\
  lambda * BlackScholes.gamma norm o' = BlackScholes.gamma norm o /\
  BlackScholes.vega norm o' = lambda * BlackScholes.vega norm o.
Proof.
  intros Hl (HS & HK & HT & Hsig & Hq) Hscale.
  unfold scale_contract in Hscale.
  destruct (Option_new_cases (lambda * spot_price o) (lambda * strike_price o)
              (time_to_expiry o) (volatility o) (risk_free_rate o)
              (option_type o) (exercise_style o) (dividend_yield o))
    as [Hok | Herr]; [| congruence].
  rewrite Hok in Hscale. injection Hscale as <-.
  pose proof (sqrt_lt_R0 _ HT) as Hsqrt.
  unfold BlackScholes.price, BlackScholes.delta, BlackScholes.gamma,
    BlackScholes.vega, BlackScholes._calculate_d1_d2; simpl.
  replace (lambda * spot_price o / (lambda * strike_price o))
    with (spot_price o / strike_price o) by (field; lra).
  repeat split.
  - destruct (option_type o); ring.
  - field. repeat split; lra.
  - field.
Qed.

(** ** The binomial lattice, continued *)

Section LatticeFacts.
Variable o : Option.
Variable N : Z.
Hypothesis Hvalid : valid_option o.
Hypothesis HN : (1 <= N)%Z.

Let u := Binomial.up o N.
Let d := Binomial.down o N.
Let p := Binomial._calculate_risk_neutral_probability o N.

Lemma up_down_inverse : u * d = 1.
Proof.
  pose proof (up_gt_1 o N Hvalid HN) as Hu. fold u in Hu.
  unfold d, Binomial.down. fold u. field. lra.
Qed.

Lemma stock_tree_step_up (i j : nat) :
  Binomial.stock_tree o N (S i) (S j) = u * Binomial.stock_tree o N i j.
Proof.
  unfold Binomial.stock_tree. fold u d. cbn [Nat.sub pow]. ring.
Qed.

Lemma stock_tree_step_down (i j : nat) :
  (j <= i)%nat ->
  Binomial.stock_tree o N (S i) j = d * Binomial.stock_tree o N i j.
Proof.
  intros Hj. unfold Binomial.stock_tree. fold u d.
  rewrite Nat.sub_succ_l by exact Hj. cbn [pow]. ring.
Qed.

Lemma risk_neutral_growth :
  p * u + (1 - p) * d
  = exp ((risk_free_rate o - dividend_yield o) * Binomial.dt o N).
Proof.
  pose proof (up_gt_1 o N Hvalid HN) as Hu.
  pose proof (down_bounds o N Hvalid HN) as Hd. fold u in Hu. fold d in Hd.
  unfold p, Binomial._calculate_risk_neutral_probability. fold u d.
  field. lra.
Qed.

End LatticeFacts.

(** X12. The stock lattice starts at the spot, recombines (an up move
    followed by a down move returns to the same price) and is risk neutral:
    the probability-weighted children of a node are worth the node times
    [e^((r-q) dt)]. *)
Theorem lattice_recombines_and_is_risk_neutral (o : Option) (N : Z)
    (i j : nat) :
  valid_option o -> (1 <= N)%Z -> (j <= i)%nat ->
  Binomial.stock_tree o N 0 0 = spot_price o /\
  Binomial.stock_tree o N (S (S i)) (S j) = Binomial.stock_tree o N i j /\
  let p := Binomial._calculate_risk_neutral_probability o N in
  p * Binomial.stock_tree o N (S i) (S j)
  + (1 - p) * Binomial.stock_tree o N (S i) j
  = exp ((risk_free_rate o - dividend_yield o) * Binomial.dt o N)
    * Binomial.stock_tree o N i j.
Proof.
  intros Hvalid HN Hj. split; [| split].
  - unfold Binomial.stock_tree. simpl. ring.
  - rewrite stock_tree_step_up, stock_tree_step_down by lia.
    rewrite <- Rmult_assoc, (up_down_inverse o N Hvalid HN). ring.
  - cbv zeta.
    rewrite stock_tree_step_up, stock_tree_step_down by lia.
    rewrite <- (risk_neutral_growth o N Hvalid HN). ring.
Qed.

Lemma exp_pow_nat (x : R) (n : nat) : exp x ^ n = exp (INR n * x).
Proof.
  induction n as [| n IH].
  - simpl. rewrite Rmult_0_l. now rewrite exp_0.
  - rewrite S_INR. cbn [pow]. rewrite IH, <- exp_plus. f_equal. ring.
Qed.

Lemma call_minus_put_payoff (s K : R) : Rmax (s - K) 0 - Rmax (K - s) 0 = s - K.
Proof.
  destruct (Rle_dec K s).
  - rewrite (Rmax_left (s - K) 0), (Rmax_right (K - s) 0) by lra. ring.
  - rewrite (Rmax_right (s - K) 0), (Rmax_left (K - s) 0) by lra. ring.
Qed.

Lemma node_value_without_exercise (o : Option) (N : Z) (i j : nat)
    (vu vd : R) :
  exercise_style o = EUROPEAN ->
  Binomial.node_value o N i j vu vd
  = Binomial.discount o N
    * (Binomial._calculate_risk_neutral_probability o N * vu
       + (1 - Binomial._calculate_risk_neutral_probability o N) * vd).
Proof. intros Hstyle. unfold Binomial.node_value. now rewrite Hstyle. Qed.

Section LatticeParity.
Variable o : Option.
Variable N : Z.
Hypothesis Hvalid : valid_option o.
Hypothesis HN : (1 <= N)%Z.

Let oC := with_option_type (with_exercise_style o EUROPEAN) CALL.
Let oP := with_option_type (with_exercise_style o EUROPEAN) PUT.
Let D := Binomial.discount o N.
Let A := exp (- dividend_yield o * Binomial.dt o N).
Let K := strike_price o.

Lemma discounted_growth :
  D * exp ((risk_free_rate o - dividend_yield o) * Binomial.dt o N) = A.
Proof.
  unfold D, A, Binomial.discount. rewrite <- exp_plus. f_equal. ring.
Qed.

Lemma row_above_parity (i m : nat) (fC fP : nat -> R) :
  level_parity o N (S i) m fC fP ->
  level_parity o N i (S m) (row_above oC N i fC) (row_above oP N i fP).
Proof.
  intros Hlev j Hj. unfold row_above.
  rewrite !node_value_without_exercise by reflexivity.
  change (Binomial.discount oC N) with D.
  change (Binomial.discount oP N) with D.
  change (Binomial._calculate_risk_neutral_probability oC N)
    with (Binomial._calculate_risk_neutral_probability o N).
  change (Binomial._calculate_risk_neutral_probability oP N)
    with (Binomial._calculate_risk_neutral_probability o N).
  pose proof (Hlev j ltac:(lia)) as H0.
  pose proof (Hlev (j + 1)%nat ltac:(lia)) as H1.
  fold A D K in H0, H1 |- *.
  replace (j + 1)%nat with (S j) in * by lia.
  rewrite (stock_tree_step_up o N) in H1.
  rewrite (stock_tree_step_down o N) in H0 by exact Hj.
  pose proof (risk_neutral_growth o N Hvalid HN) as Hg.
  pose proof discounted_growth as Hdg.
  set (p := Binomial._calculate_risk_neutral_probability o N) in *.
  set (s := Binomial.stock_tree o N i j) in *.
  set (E := exp ((risk_free_rate o - dividend_yield o) * Binomial.dt o N))
    in *.
  cbn [pow].
  replace (D * (p * fC (S j) + (1 - p) * fC j)
           - D * (p * fP (S j) + (1 - p) * fP j))
    with (D * (p * (fC (S j) - fP (S j)) + (1 - p) * (fC j - fP j))) by ring.
  rewrite H0, H1.
  replace (D * (p * (Binomial.up o N * s * A ^ m - K * D ^ m)
                + (1 - p) * (Binomial.down o N * s * A ^ m - K * D ^ m)))
    with (s * A ^ m * (D * (p * Binomial.up o N + (1 - p) * Binomial.down o N))
          - K * (D * D ^ m)) by ring.
  rewrite Hg, Hdg. ring.
Qed.

Lemma rows_above_parity (k : nat) :
  forall (m : nat) (fC fP : nat -> R),
    level_parity o N k m fC fP ->
    level_parity o N 0 (m + k) (rows_above oC N k fC) (rows_above oP N k fP).
Proof.
  induction k as [| i IH]; intros m fC fP Hlev.
  - now rewrite Nat.add_0_r.
  - cbn [rows_above]. replace (m + S i)%nat with (S m + i)%nat by lia.
    apply IH. now apply row_above_parity.
Qed.

Lemma whole_life (n : nat) (x : R) :
  IZR N = INR n ->
  exp (x * Binomial.dt o N) ^ n = exp (x * time_to_expiry o).
Proof.
  intros Hn. rewrite exp_pow_nat. f_equal. unfold Binomial.dt.
  rewrite Hn. field. rewrite <- Hn. apply not_0_IZR. lia.
Qed.

End LatticeParity.

(** X13. Put-call parity holds on the lattice: for a valid contract and
    [N >= 1] steps the European call price minus the European put price is
    [S e^(-qT) - K e^(-rT)]. *)
Theorem lattice_put_call_parity (o : Option) (N : Z) :
  valid_option o ->
  (1 <= N)%Z ->
  exists c p,
    Binomial.price (with_option_type (with_exercise_style o EUROPEAN) CALL) N
    = Ok c /\
    Binomial.price (with_option_type (with_exercise_style o EUROPEAN) PUT) N
    = Ok p /\
    c - p
    = spot_price o * exp (- dividend_yield o * time_to_expiry o)
      - strike_price o * exp (- risk_free_rate o * time_to_expiry o).
Proof.
  intros Hvalid HN.
  rewrite !price_root by exact HN.
  eexists _, _. split; [reflexivity |]. split; [reflexivity |].
  assert (IZR N = INR (Z.to_nat N)) as Hn.
  { rewrite INR_IZR_INZ, Z2Nat.id by lia. reflexivity. }
  refine (eq_trans
            (rows_above_parity o N Hvalid HN (Z.to_nat N) 0 _ _ _ 0%nat
               (Nat.le_refl 0)) _).
  { intros j _. cbn [pow]. unfold Binomial._get_payoff; simpl.
    rewrite call_minus_put_payoff.
    change (Binomial.stock_tree
              (with_option_type (with_exercise_style o EUROPEAN) PUT) N
              (Z.to_nat N) j)
      with (Binomial.stock_tree o N (Z.to_nat N) j).
    ring. }
  cbn [Nat.add].
  rewrite (whole_life o N HN (Z.to_nat N) (- dividend_yield o) Hn).
  unfold Binomial.discount.
  rewrite (whole_life o N HN (Z.to_nat N) (- risk_free_rate o) Hn).
  unfold Binomial.stock_tree. simpl. ring.
Qed.

Lemma rows_above_last_step (o : Option) (N : Z) (i : nat) :
  forall f : nat -> R,
    exists g, rows_above o N (S i) f = row_above o N 0 g.
Proof.
  induction i as [| i IH]; intros f.
  - now exists f.
  - cbn [rows_above]. apply (IH (row_above o N (S i) f)).
Qed.

(** X14. For a valid contract with American exercise and [N >= 1] steps the
    lattice price is at least the payoff of exercising at once, and is
    never negative. *)
Theorem american_price_at_least_exercise_value (o : Option) (N : Z) :
  valid_option o ->
  (1 <= N)%Z ->
  exercise_style o = AMERICAN ->
  exists a,
    Binomial.price o N = Ok a /\
    Binomial._get_payoff o (spot_price o) <= a /\
    0 <= a.
Proof.
  intros _ HN Hstyle. rewrite price_root by exact HN.
  eexists. split; [reflexivity |].
  assert (exists k, Z.to_nat N = S k) as [k ->].
  { exists (Nat.pred (Z.to_nat N)). lia. }
  destruct (rows_above_last_step o N k
              (fun j => Binomial._get_payoff o
                          (Binomial.stock_tree o N (S k) j))) as [g ->].
  unfold row_above, Binomial.node_value. rewrite Hstyle. cbv zeta.
  replace (Binomial.stock_tree o N 0 0) with (spot_price o)
    by (unfold Binomial.stock_tree; simpl; ring).
  split; [apply Rmax_r |].
  eapply Rle_trans; [| apply Rmax_r].
  unfold Binomial._get_payoff. destruct (option_type o); apply Rmax_r.
Qed.

Lemma rows_above_nonneg (o : Option) (N : Z) (k : nat) :
  0 <= Binomial._calculate_risk_neutral_probability o N <= 1 ->
  forall f : nat -> R,
    (forall j, 0 <= f j) -> forall j, 0 <= rows_above o N k f j.
Proof.
  intros Hp. induction k as [| i IH]; intros f Hf; [exact Hf |].
  cbn [rows_above]. apply IH. intros j. unfold row_above, Binomial.node_value.
  cbv zeta.
  assert (0 <= Binomial.discount o N
               * (Binomial._calculate_risk_neutral_probability o N * f (j + 1)%nat
                  + (1 - Binomial._calculate_risk_neutral_probability o N) * f j))
    as Hhold.
  { apply Rmult_le_pos; [left; apply exp_pos |].
    pose proof (Hf j). pose proof (Hf (j + 1)%nat). nra. }
  destruct (exercise_style o); [exact Hhold |].
  eapply Rle_trans; [exact Hhold | apply Rmax_l].
Qed.

(** X15. For a valid contract, with [N >= 1] steps and an up-probability in
    [0, 1], the lattice price is not negative, for either exercise style. *)
Theorem lattice_price_nonnegative (o : Option) (N : Z) :
  valid_option o ->
  (1 <= N)%Z ->
  0 <= Binomial._calculate_risk_neutral_probability o N <= 1 ->
  exists v, Binomial.price o N = Ok v /\ 0 <= v.
Proof.
  intros _ HN Hp. rewrite price_root by exact HN.
  eexists. split; [reflexivity |].
  apply rows_above_nonneg; [exact Hp |].
  intros j. unfold Binomial._get_payoff. destruct (option_type o); apply Rmax_r.
Qed.

(** ** Monte Carlo, continued *)

Section MonteCarloMore.
Context (gen : Generator).

(** The normal draws behind a successful path generation. *)
Lemma paths_from_draws (c : MonteCarlo.config) (g g' : gen_state gen)
    (paths : list R) :
  MonteCarlo._generate_price_paths gen c g = (Ok paths, g') ->
  exists zs,
    paths
    = map (fun z =>
             spot_price (MonteCarlo.option c)
             * exp ((risk_free_rate (MonteCarlo.option c)
                     - dividend_yield (MonteCarlo.option c)
                     - 1 / 2 * volatility (MonteCarlo.option c) ^ 2)
                    * time_to_expiry (MonteCarlo.option c)
                    + volatility (MonteCarlo.option c)
                      * sqrt (time_to_expiry (MonteCarlo.option c)) * z))
          (if MonteCarlo.use_antithetic c then zs ++ map Ropp zs else zs) /\
    length zs
    = Z.to_nat (if MonteCarlo.use_antithetic c
                then MonteCarlo.num_simulations c / 2
                else MonteCarlo.num_simulations c) /\
    (0 <= (if MonteCarlo.use_antithetic c
           then MonteCarlo.num_simulations c / 2
           else MonteCarlo.num_simulations c))%Z.
Proof.
  unfold MonteCarlo._generate_price_paths, bind, ret.
  destruct (match MonteCarlo.random_seed c with
            | Some s => MonteCarlo.seed_generator gen s
            | None => fun s => (Ok tt, s)
            end g) as [[[] | e] g0]; [| discriminate].
  assert (forall n g1 zs,
             MonteCarlo.draw gen n g0 = (Ok zs, g1) -> (0 <= n)%Z) as Hsize.
  { intros n g1 zs. unfold MonteCarlo.draw.
    destruct (n <? 0)%Z eqn:Hneg; [discriminate |].
    intros _. now apply Z.ltb_ge in Hneg. }
  destruct (MonteCarlo.use_antithetic c).
  - destruct (MonteCarlo.draw gen (MonteCarlo.num_simulations c / 2) g0)
      as [[zs | e] g1] eqn:Hdraw; [| discriminate].
    intros Heq. injection Heq as <- _. exists zs.
    split; [reflexivity |]. split.
    + now apply draw_length in Hdraw.
    + now apply Hsize in Hdraw.
  - destruct (MonteCarlo.draw gen (MonteCarlo.num_simulations c) g0)
      as [[zs | e] g1] eqn:Hdraw; [| discriminate].
    intros Heq. injection Heq as <- _. exists zs.
    split; [reflexivity |]. split.
    + now apply draw_length in Hdraw.
    + now apply Hsize in Hdraw.
Qed.

End MonteCarloMore.

(** X16. A path generation that succeeds without antithetic variates, or
    with them and an even [num_simulations], yields exactly
    [num_simulations] terminal prices. *)
Theorem monte_carlo_sample_size (gen : Generator) (c : MonteCarlo.config)
    (g g' : gen_state gen) (paths : list R) :
  MonteCarlo._generate_price_paths gen c g = (Ok paths, g') ->
  MonteCarlo.use_antithetic c = false
  \/ Z.even (MonteCarlo.num_simulations c) = true ->
  (0 <= MonteCarlo.num_simulations c)%Z /\
  length paths = Z.to_nat (MonteCarlo.num_simulations c).
Proof.
  intros Hpaths Hcase.
  destruct (paths_from_draws gen c g g' paths Hpaths) as (zs & -> & Hlen & Hn).
  rewrite length_map.
  destruct (MonteCarlo.use_antithetic c).
  - destruct Hcase as [Hc | Heven]; [discriminate |].
    apply Z.even_spec in Heven as [k Hk].
    rewrite Hk in Hlen, Hn |- *.
    rewrite Z.mul_comm, Z.div_mul in Hlen, Hn by lia.
    split; [lia |].
    rewrite length_app, length_map, Hlen. lia.
  - split; [exact Hn | exact Hlen].
Qed.

(** X17. With a positive spot every simulated terminal price is positive. *)
Theorem terminal_prices_positive (gen : Generator) (c : MonteCarlo.config)
    (g g' : gen_state gen) (paths : list R) :
  0 < spot_price (MonteCarlo.option c) ->
  MonteCarlo._generate_price_paths gen c g = (Ok paths, g') ->
  Forall (fun s => 0 < s) paths.
Proof.
  intros HS Hpaths.
  destruct (paths_from_draws gen c g g' paths Hpaths) as (zs & -> & _).
  apply Forall_forall. intros s Hin. apply in_map_iff in Hin as (z & <- & _).
  apply Rmult_lt_0_compat; [exact HS | apply exp_pos].
Qed.

(** X18. With antithetic variates the terminal prices are two halves of
    [num_simulations // 2] prices each, and the product of a price and its
    mirror is the same for every pair: [(S e^drift)^2]. *)
Theorem antithetic_paths_are_mirrored (gen : Generator)
    (c : MonteCarlo.config) (g g' : gen_state gen) (paths : list R) :
  MonteCarlo.use_antithetic c = true ->
  MonteCarlo._generate_price_paths gen c g = (Ok paths, g') ->
  let o := MonteCarlo.option c in
  let drift :=
    (risk_free_rate o - dividend_yield o - 1 / 2 * volatility o ^ 2)
    * time_to_expiry o in
  exists first second,
    paths = first ++ second /\
    length first = Z.to_nat (MonteCarlo.num_simulations c / 2) /\
    Forall2 (fun a b => a * b = (spot_price o * exp drift) ^ 2) first second.
Proof.
  intros Hanti Hpaths o drift.
  destruct (paths_from_draws gen c g g' paths Hpaths) as (zs & -> & Hlen & _).
  rewrite Hanti in Hlen |- *.
  rewrite map_app. eexists _, _. split; [reflexivity |].
  split; [now rewrite length_map |].
  clear Hlen Hpaths. fold o. fold drift.
  induction zs as [| z zs IH]; cbn [map]; constructor; [| exact IH].
  set (dz := volatility o * sqrt (time_to_expiry o)).
  replace (spot_price o * exp (drift + dz * z)
           * (spot_price o * exp (drift + dz * - z)))
    with (spot_price o * spot_price o
          * (exp (drift + dz * z) * exp (drift + dz * - z))) by ring.
  rewrite <- exp_plus.
  replace (drift + dz * z + (drift + dz * - z)) with (drift + drift) by ring.
  rewrite exp_plus. ring.
Qed.

Lemma sum_list_bounds (a b : R) (l : list R) :
  Forall (fun x => a <= x <= b) l ->
  INR (length l) * a <= sum_list l <= INR (length l) * b.
Proof.
  induction 1 as [| x l Hx _ IH].
  - simpl. lra.
  - cbn [sum_list fold_right length]. rewrite S_INR.
    fold (sum_list l). lra.
Qed.

Lemma mean_bounds (a b : R) (l : list R) :
  l <> [] ->
  Forall (fun x => a <= x <= b) l ->
  a <= mean l <= b.
Proof.
  intros Hne Hall. pose proof (sum_list_bounds a b l Hall) as Hsum.
  assert (0 < INR (length l)) as Hlen.
  { apply lt_0_INR. destruct l; [contradiction | simpl; lia]. }
  unfold mean. split.
  - apply Rmult_le_reg_r with (INR (length l)); [exact Hlen |].
    unfold Rdiv. rewrite Rmult_assoc, Rinv_l by lra. lra.
  - apply Rmult_le_reg_r with (INR (length l)); [exact Hlen |].
    unfold Rdiv. rewrite Rmult_assoc, Rinv_l by lra. lra.
Qed.

(** X19. On a valid contract and at least two simulations the Monte Carlo
    price and standard error are not negative, and a put's price is at most
    the discounted strike. *)
Theorem monte_carlo_price_bounds (gen : Generator) (c : MonteCarlo.config)
    (g g' : gen_state gen) (p se : R) :
  valid_option (MonteCarlo.option c) ->
  (2 <= MonteCarlo.num_simulations c)%Z ->
  MonteCarlo.price_and_standard_error gen c g = (Ok (p, se), g') ->
  0 <= p /\
  0 <= se /\
  (option_type (MonteCarlo.option c) = PUT ->
   p <= strike_price (MonteCarlo.option c)
        * exp (- risk_free_rate (MonteCarlo.option c)
               * time_to_expiry (MonteCarlo.option c))).
Proof.
  intros (HS & HK & _) Hsims Hrun.
  pose proof (standard_error_nonneg gen c g g' p se Hrun) as Hse.
  unfold MonteCarlo.price_and_standard_error, bind, ret in Hrun.
  destruct (MonteCarlo._generate_price_paths gen c g) as [[paths | e] g0]
    eqn:Hpaths; [| discriminate].
  injection Hrun as <- _ _.
  assert (Forall (fun s => 0 < s) paths) as Hposs.
  { destruct (paths_from_draws gen c g g0 paths Hpaths) as (zs & -> & _).
    apply Forall_forall. intros s Hin.
    apply in_map_iff in Hin as (z & <- & _).
    apply Rmult_lt_0_compat; [exact HS | apply exp_pos]. }
  assert (paths <> []) as Hne.
  { destruct (paths_from_draws gen c g g0 paths Hpaths)
      as (zs & -> & Hlen & _).
    intros Hnil. apply (f_equal (@length R)) in Hnil.
    rewrite length_map in Hnil. simpl in Hnil.
    destruct (MonteCarlo.use_antithetic c).
    - rewrite length_app, length_map, Hlen in Hnil.
      assert (1 <= MonteCarlo.num_simulations c / 2)%Z
        by (apply Z.div_le_lower_bound; lia).
      lia.
    - rewrite Hlen in Hnil. lia. }
  set (K := strike_price (MonteCarlo.option c)) in *.
  pose proof (exp_pos (- risk_free_rate (MonteCarlo.option c)
                       * time_to_expiry (MonteCarlo.option c))) as Hd.
  assert (MonteCarlo._calculate_payoffs c paths <> []) as Hne'.
  { intros Hnil. apply (f_equal (@length R)) in Hnil.
    rewrite payoffs_length in Hnil. destruct paths; [contradiction |].
    discriminate. }
  split; [| split; [exact Hse |]].
  - apply Rmult_le_pos; [lra |]. unfold mean.
    apply Rdiv_nonneg; [| apply pos_INR].
    assert (Forall (fun x => 0 <= x <= Rmax 0 x)
              (MonteCarlo._calculate_payoffs c paths)) as Hall.
    { unfold MonteCarlo._calculate_payoffs.
      destruct (option_type (MonteCarlo.option c));
        apply Forall_forall; intros x Hin;
        apply in_map_iff in Hin as (s & <- & _);
        (split; [apply Rmax_r | apply Rmax_r]). }
    clear - Hall.
    induction Hall as [| x l [Hx _] _ IH]; simpl; [lra |].
    fold (sum_list l). lra.
  - intros Hput.
    rewrite (Rmult_comm K).
    apply Rmult_le_compat_l; [lra |].
    apply (mean_bounds 0 K); [exact Hne' |].
    unfold MonteCarlo._calculate_payoffs. rewrite Hput. fold K.
    apply Forall_forall. intros x Hin.
    apply in_map_iff in Hin as (s & <- & Hs).
    rewrite Forall_forall in Hposs. specialize (Hposs s Hs).
    split; [apply Rmax_r | apply Rmax_lub; lra].
Qed.

(** ** The numerical Greeks calculator, continued *)

Section Blind.
Context {St : Type}.

Lemma blind_ret {A : Type} (a : A) : state_blind (@ret St A a).
Proof. intros s1 s2. reflexivity. Qed.

Lemma blind_lift {A : Type} (r : result A) : state_blind (@lift St A r).
Proof. intros s1 s2. reflexivity. Qed.

Lemma blind_bind {A B : Type} (c : Run St A) (k : A -> Run St B) :
  state_blind c ->
  (forall a, (exists s, fst (c s) = Ok a) -> state_blind (k a)) ->
  state_blind (bind c k).
Proof.
  intros Hc Hk s1 s2. unfold bind. pose proof (Hc s1 s2) as H12.
  destruct (c s1) as [[a1 | e1] t1] eqn:H1;
    destruct (c s2) as [[a2 | e2] t2] eqn:H2;
    simpl in H12; try discriminate.
  - injection H12 as <-. apply Hk. exists s1. now rewrite H1.
  - injection H12 as <-. reflexivity.
Qed.

End Blind.

Section Reproducible.
Context (norm : NormalDist) (gen : Generator).

Lemma blind_price (m : Model) :
  reproducible m -> state_blind (model_price norm gen m).
Proof.
  destruct m as [o | o n | c]; simpl; intros Hm.
  - apply blind_ret.
  - apply blind_lift.
  - destruct (MonteCarlo.random_seed c) as [s |] eqn:Hseed; [| contradiction].
    intros g1 g2. now apply seeded_run_ignores_state with s.
Qed.

Lemma rebuild_reproducible (m m' : Model) (o' : Option) :
  reproducible m -> rebuild m o' = Ok m' -> reproducible m'.
Proof.
  destruct m as [o | o n | c]; simpl; intros Hm.
  - destruct (BlackScholes.init o'); [| discriminate].
    intros Heq. injection Heq as <-. exact I.
  - intros Heq. injection Heq as <-. exact I.
  - unfold MonteCarlo.init. destruct (exercise_style o'); [| discriminate].
    intros Heq. injection Heq as <-. exact Hm.
Qed.

Ltac blind_step :=
  apply blind_bind;
  [ first [ apply blind_lift
          | apply blind_price; eauto using rebuild_reproducible ]
  | let a := fresh "a" in
    let s := fresh "s" in
    let H := fresh "H" in
    intros a [s H]; unfold lift in H; simpl in H ].

Lemma blind_delta (m : Model) (h_pct : R) :
  reproducible m -> state_blind (calc_delta norm gen m h_pct).
Proof.
  intros Hm. unfold calc_delta.
  do 6 blind_step. apply blind_ret.
Qed.

Lemma blind_gamma (m : Model) (h_pct : R) :
  reproducible m -> state_blind (calc_gamma norm gen m h_pct).
Proof.
  intros Hm. unfold calc_gamma.
  do 7 blind_step. apply blind_ret.
Qed.

Lemma blind_theta (m : Model) (h : R) :
  reproducible m -> state_blind (calc_theta norm gen m h).
Proof.
  intros Hm. unfold calc_theta.
  destruct (Rle_dec (time_to_expiry (model_option m)) h).
  - blind_step. apply blind_ret.
  - do 4 blind_step. apply blind_ret.
Qed.

Lemma blind_vega (m : Model) (h : R) :
  reproducible m -> state_blind (calc_vega norm gen m h).
Proof.
  intros Hm. unfold calc_vega.
  do 6 blind_step. apply blind_ret.
Qed.

Lemma blind_rho (m : Model) (h : R) :
  reproducible m -> state_blind (calc_rho norm gen m h).
Proof.
  intros Hm. unfold calc_rho.
  do 6 blind_step. apply blind_ret.
Qed.

End Reproducible.

(** X20. The Greeks of a Black-Scholes model, of a lattice and of a seeded
    simulation do not depend on the state of the generator: every bumped
    model is rebuilt with the same seed. *)
Theorem greeks_reproducible (norm : NormalDist) (gen : Generator) (m : Model)
    (g1 g2 : gen_state gen) :
  reproducible m ->
  fst (model_greeks norm gen m g1) = fst (model_greeks norm gen m g2).
Proof.
  intros Hm.
  assert (state_blind (calculate_all_greeks norm gen m)) as Hall.
  { unfold calculate_all_greeks.
    apply blind_bind; [now apply blind_delta | intros d _].
    apply blind_bind; [now apply blind_gamma | intros ga _].
    apply blind_bind; [now apply blind_theta | intros t _].
    apply blind_bind; [now apply blind_vega | intros v _].
    apply blind_bind; [now apply blind_rho | intros r _].
    apply blind_ret. }
  destruct m; [reflexivity | apply Hall | apply Hall].
Qed.

Section GreeksReturn.
Context (norm : NormalDist) (gen : Generator).

Lemma with_volatility_ok (o : Option) (x : R) :
  valid_option o -> 0 < x ->
  exists o', with_volatility o x = Ok o' /\ valid_option o' /\
             exercise_style o' = exercise_style o.
Proof.
  intros (HS & HK & HT & Hv & Hq) Hx.
  eexists. split; [| split].
  - unfold with_volatility. apply Option_new_ok_iff. lra.
  - unfold valid_option; simpl. lra.
  - reflexivity.
Qed.

Lemma with_risk_free_rate_ok (o : Option) (x : R) :
  valid_option o ->
  exists o', with_risk_free_rate o x = Ok o' /\ valid_option o' /\
             exercise_style o' = exercise_style o.
Proof.
  intros (HS & HK & HT & Hv & Hq).
  eexists. split; [| split].
  - unfold with_risk_free_rate. apply Option_new_ok_iff. lra.
  - unfold valid_option; simpl. lra.
  - reflexivity.
Qed.

Lemma calc_vega_ready (m : Model) (h : R) (g : gen_state gen) :
  engine_ready m -> 0 < h < volatility (model_option m) ->
  exists v g', calc_vega norm gen m h g = (Ok v, g').
Proof.
  intros Hm Hh.
  destruct (with_volatility_ok (model_option m)
              (volatility (model_option m) + h) (proj1 Hm))
    as (ou & Hou & Hvu & Hsu); [lra |].
  destruct (with_volatility_ok (model_option m)
              (volatility (model_option m) - h) (proj1 Hm))
    as (od & Hod & Hvd & Hsd); [lra |].
  destruct (rebuild_ready m ou Hm Hvu Hsu) as (mu & Hmu & Hru).
  destruct (rebuild_ready m od Hm Hvd Hsd) as (md & Hmd & Hrd).
  destruct (price_ready norm gen mu g Hru) as (pu & g1 & Hpu).
  destruct (price_ready norm gen md g1 Hrd) as (pd & g2 & Hpd).
  unfold calc_vega, bind, ret, lift.
  rewrite Hou, Hod, Hmu, Hmd, Hpu, Hpd. now eexists _, _.
Qed.

Lemma calc_rho_ready (m : Model) (h : R) (g : gen_state gen) :
  engine_ready m ->
  exists r g', calc_rho norm gen m h g = (Ok r, g').
Proof.
  intros Hm.
  destruct (with_risk_free_rate_ok (model_option m)
              (risk_free_rate (model_option m) + h) (proj1 Hm))
    as (ou & Hou & Hvu & Hsu).
  destruct (with_risk_free_rate_ok (model_option m)
              (risk_free_rate (model_option m) - h) (proj1 Hm))
    as (od & Hod & Hvd & Hsd).
  destruct (rebuild_ready m ou Hm Hvu Hsu) as (mu & Hmu & Hru).
  destruct (rebuild_ready m od Hm Hvd Hsd) as (md & Hmd & Hrd).
  destruct (price_ready norm gen mu g Hru) as (pu & g1 & Hpu).
  destruct (price_ready norm gen md g1 Hrd) as (pd & g2 & Hpd).
  unfold calc_rho, bind, ret, lift.
  rewrite Hou, Hod, Hmu, Hmd, Hpu, Hpd. now eexists _, _.
Qed.

End GreeksReturn.

(** X21. For a model whose own price can be computed, the numerical
    calculator returns all five Greeks exactly when the volatility exceeds
    the vega bump 0.01. *)
Theorem numerical_greeks_return_iff (norm : NormalDist) (gen : Generator)
    (m : Model) (g : gen_state gen) :
  engine_ready m ->
  (exists greeks g', calculate_all_greeks norm gen m g = (Ok greeks, g'))
  <-> 1 / 100 < volatility (model_option m).
Proof.
  intros Hm. split.
  - intros (greeks & g' & Hrun).
    destruct (Rlt_dec (1 / 100) (volatility (model_option m)))
      as [Hvol | Hvol]; [exact Hvol |].
    exfalso.
    apply (all_greeks_never_returned norm gen m g greeks);
      [unfold default_vega_h; lra |].
    now rewrite Hrun.
  - intros Hvol. unfold calculate_all_greeks, bind, ret.
    destruct (calc_delta_ready norm gen m g Hm) as (d & g1 & ->).
    destruct (calc_gamma_ready norm gen m g1 Hm) as (ga & g2 & ->).
    destruct (calc_theta_ready norm gen m g2 Hm) as (t & g3 & ->).
    destruct (calc_vega_ready norm gen m default_vega_h g3 Hm) as (v & g4 & ->);
      [unfold default_vega_h; lra |].
    destruct (calc_rho_ready norm gen m default_rho_h g4 Hm) as (r & g5 & ->).
    now eexists _, _.
Qed.

(** ** Historical volatility *)

Lemma diff_cons (x y : R) (l : list R) :
  diff (x :: y :: l) = (y - x) :: diff (y :: l).
Proof. reflexivity. Qed.

Lemma diff_shift (c : R) (l : list R) :
  diff (map (fun x => c + x) l) = diff l.
Proof.
  induction l as [| x l IH]; [reflexivity |].
  destruct l as [| y l]; [reflexivity |].
  cbn [map] in *. rewrite !diff_cons, IH. f_equal. ring.
Qed.

Lemma map_ln_scaled (lambda : R) (l : list R) :
  0 < lambda ->
  Forall (fun p => 0 < p) l ->
  map ln (map (Rmult lambda) l) = map (fun x => ln lambda + x) (map ln l).
Proof.
  intros Hl Hall. induction Hall as [| p l Hp _ IH]; [reflexivity |].
  cbn [map]. rewrite IH. f_equal. now apply ln_mult.
Qed.

Lemma last_from_map (f : R -> R) (k : Z) (l : list R) :
  last_from k (map f l) = map f (last_from k l).
Proof.
  unfold last_from. rewrite length_map.
  destruct (0 <? k)%Z; now rewrite skipn_map.
Qed.

Lemma Forall_skipn (P : R -> Prop) (n : nat) (l : list R) :
  Forall P l -> Forall P (skipn n l).
Proof.
  intros Hall. rewrite Forall_forall in *. intros x Hin.
  apply Hall. rewrite <- (firstn_skipn n l). apply in_or_app. now right.
Qed.

(** X22. Historical volatility does not change when every (positive) price
    is multiplied by the same positive factor. *)
Theorem historical_volatility_scale_invariant (lambda : R) (prices : list R)
    (window : Z) (annualize : bool) :
  0 < lambda ->
  Forall (fun p => 0 < p) prices ->
  (2 <= window)%Z ->
  historical_volatility (map (Rmult lambda) prices) window annualize
  = historical_volatility prices window annualize.
Proof.
  intros Hl Hall _. unfold historical_volatility.
  rewrite length_map, last_from_map.
  rewrite map_ln_scaled; [| exact Hl |].
  - now rewrite diff_shift.
  - unfold last_from. destruct (0 <? window + 1)%Z; now apply Forall_skipn.
Qed.

Lemma diff_repeat (x : R) (n : nat) : diff (repeat x (S n)) = repeat 0 n.
Proof.
  induction n as [| n IH]; [reflexivity |].
  cbn [repeat] in *. rewrite diff_cons, IH. f_equal. ring.
Qed.

Lemma skipn_repeat (x : R) (k n : nat) :
  skipn k (repeat x n) = repeat x (n - k).
Proof.
  revert n. induction k as [| k IH]; intros n.
  - now rewrite Nat.sub_0_r.
  - destruct n as [| n]; [reflexivity |]. cbn [repeat skipn]. apply IH.
Qed.

(** X23. Historical volatility of a constant positive price series is 0. *)
Theorem historical_volatility_of_constant_prices (p : R) (n : nat)
    (window : Z) (annualize : bool) :
  0 < p ->
  (2 <= window)%Z ->
  (window + 1 <= Z.of_nat n)%Z ->
  historical_volatility (repeat p n) window annualize = Ok 0.
Proof.
  intros _ _ Hn. unfold historical_volatility. rewrite repeat_length.
  destruct (Z.of_nat n <? window + 1)%Z eqn:Hlt;
    [apply Z.ltb_lt in Hlt; lia |].
  assert (exists k, last_from (window + 1) (repeat p n) = repeat p k)
    as [k ->].
  { unfold last_from. rewrite repeat_length.
    destruct (0 <? window + 1)%Z; rewrite skipn_repeat; now eexists. }
  rewrite map_repeat.
  assert (std_ddof1 (diff (repeat (ln p) k)) = 0) as ->.
  { destruct k as [| k]; [| rewrite diff_repeat; apply std_repeat_0].
    change (diff (repeat (ln p) 0)) with (repeat 0 0). apply std_repeat_0. }
  f_equal. destruct annualize; ring.
Qed.

(** ** Closed instances *)

Lemma sample_rejected_run :
  ImpliedVol.implied_volatility logistic_law 2 1 1 0 (1 / 2) CALL 0
    IV_INITIAL_GUESS IV_SOLVER_TOLERANCE IV_SOLVER_MAX_ITERATIONS
  = (Err (ImpliedVolatilityError BelowIntrinsic), 0%nat).
Proof.
  unfold ImpliedVol.implied_volatility. rewrite intrinsic_of_two_over_one.
  destruct (Rlt_dec (1 / 2) 1); [reflexivity | lra].
Qed.

Lemma sample_solved_run :
  exists v n,
    ImpliedVol.implied_volatility logistic_law 2 1 1 0 1 CALL 0
      IV_INITIAL_GUESS IV_SOLVER_TOLERANCE IV_SOLVER_MAX_ITERATIONS
    = (Ok v, n).
Proof.
  unfold ImpliedVol.implied_volatility. rewrite intrinsic_of_two_over_one.
  destruct (Rlt_dec 1 1) as [H | _]; [lra |].
  destruct (Rle_dec 1 0) as [H | _]; [lra |].
  destruct (Rlt_dec (1 - 1) (1 / 100)) as [_ | H]; [| lra].
  change (Z.to_nat IV_SOLVER_MAX_ITERATIONS) with 50%nat.
  unfold ImpliedVol._bisection_method.
  apply bisection_converges; try lra.
  - unfold IV_MIN_VALUE, IV_MAX_VALUE; lra.
  - unfold IV_MIN_VALUE, IV_MAX_VALUE, IV_SOLVER_TOLERANCE. simpl pow. lra.
Qed.

Lemma default_budget_suffices :
  IV_MAX_VALUE - IV_MIN_VALUE
  < IV_SOLVER_TOLERANCE * 2 ^ Z.to_nat IV_SOLVER_MAX_ITERATIONS.
Proof.
  change (Z.to_nat IV_SOLVER_MAX_ITERATIONS) with 50%nat.
  unfold IV_MIN_VALUE, IV_MAX_VALUE, IV_SOLVER_TOLERANCE. simpl pow. lra.
Qed.

Lemma implied_volatility_failures_witness :
  ImpliedVolatilityError BelowIntrinsic = ImpliedVolatilityError BelowIntrinsic
  \/ ImpliedVolatilityError BelowIntrinsic
     = ImpliedVolatilityError PriceNotPositive
  \/ ImpliedVolatilityError BelowIntrinsic
     = ImpliedVolatilityError BisectionNoConvergence
  \/ ImpliedVolatilityError BelowIntrinsic = ValidationError.
Proof.
  exact (implied_volatility_failures logistic_law 2 1 1 0 (1 / 2) CALL 0
           IV_INITIAL_GUESS IV_SOLVER_TOLERANCE IV_SOLVER_MAX_ITERATIONS
           _ _ sample_rejected_run).
Defined.

Lemma implied_volatility_result_in_range_witness :
  exists v n,
    ImpliedVol.implied_volatility logistic_law 2 1 1 0 1 CALL 0
      IV_INITIAL_GUESS IV_SOLVER_TOLERANCE IV_SOLVER_MAX_ITERATIONS
    = (Ok v, n) /\
    IV_MIN_VALUE <= v <= IV_MAX_VALUE.
Proof.
  destruct sample_solved_run as (v & n & Hrun).
  exists v, n. split; [exact Hrun |].
  apply (implied_volatility_result_in_range logistic_law 2 1 1 0 1 CALL 0
           IV_INITIAL_GUESS IV_SOLVER_TOLERANCE IV_SOLVER_MAX_ITERATIONS
           v n).
  - unfold IV_MIN_VALUE, IV_INITIAL_GUESS, IV_MAX_VALUE. lra.
  - exact Hrun.
Defined.

Lemma implied_volatility_result_criterion_witness :
  exists v n,
    ImpliedVol.implied_volatility logistic_law 2 1 1 0 1 CALL 0
      IV_INITIAL_GUESS IV_SOLVER_TOLERANCE IV_SOLVER_MAX_ITERATIONS
    = (Ok v, n) /\
    let price_at := fun vol =>
      BlackScholes.price logistic_law (mkOption 2 1 1 vol 0 CALL EUROPEAN 0) in
    (Rabs (price_at v - 1) < IV_SOLVER_TOLERANCE
     \/ exists lo hi k,
          bisection_bracket price_at 1 lo hi k /\
          (1 <= k)%nat /\
          hi - lo < IV_SOLVER_TOLERANCE /\
          IV_SOLVER_TOLERANCE <= Rabs (price_at v - 1) /\
          (v = lo /\ price_at v < 1 \/ v = hi /\ 1 <= price_at v)).
Proof.
  destruct sample_solved_run as (v & n & Hrun).
  exists v, n. split; [exact Hrun |].
  exact (implied_volatility_result_criterion logistic_law 2 1 1 0 1 CALL 0
           IV_INITIAL_GUESS IV_SOLVER_TOLERANCE IV_SOLVER_MAX_ITERATIONS
           v n Hrun).
Defined.

Lemma implied_volatility_returns_within_budget_witness :
  exists v n,
    ImpliedVol.implied_volatility logistic_law 2 1 1 0 (3 / 2) CALL 0
      IV_INITIAL_GUESS IV_SOLVER_TOLERANCE IV_SOLVER_MAX_ITERATIONS
    = (Ok v, n).
Proof.
  apply implied_volatility_returns_within_budget; try lra.
  - unfold IV_INITIAL_GUESS. lra.
  - rewrite intrinsic_of_two_over_one. lra.
  - unfold IV_SOLVER_MAX_ITERATIONS. lia.
  - exact default_budget_suffices.
Defined.

Lemma implied_volatility_rejects_invalid_contract_witness :
  ImpliedVol.implied_volatility logistic_law (-1) 1 1 0 1 CALL 0
    IV_INITIAL_GUESS IV_SOLVER_TOLERANCE IV_SOLVER_MAX_ITERATIONS
  = (Err ValidationError, 0%nat).
Proof.
  apply implied_volatility_rejects_invalid_contract.
  - left. lra.
  - unfold ImpliedVol._calculate_intrinsic_value.
    replace (- 0 * 1) with 0 by ring. rewrite exp_0.
    rewrite Rmax_right; lra.
  - lra.
  - unfold IV_SOLVER_MAX_ITERATIONS. lia.
Defined.

Lemma implied_volatility_without_budget_witness :
  ImpliedVol.implied_volatility logistic_law 2 1 1 0 (3 / 2) CALL 0
    IV_INITIAL_GUESS IV_SOLVER_TOLERANCE 0
  = (Err (ImpliedVolatilityError BisectionNoConvergence), 0%nat).
Proof.
  apply implied_volatility_without_budget.
  - rewrite intrinsic_of_two_over_one. lra.
  - lra.
  - lia.
Defined.

Lemma black_scholes_greeks_parity_witness :
  BlackScholes.delta logistic_law (with_option_type atm_option CALL)
  - BlackScholes.delta logistic_law (with_option_type atm_option PUT)
  = exp (- dividend_yield atm_option * time_to_expiry atm_option) /\
  BlackScholes.theta logistic_law (with_option_type atm_option CALL)
  - BlackScholes.theta logistic_law (with_option_type atm_option PUT)
  = (dividend_yield atm_option * spot_price atm_option
     * exp (- dividend_yield atm_option * time_to_expiry atm_option)
     - risk_free_rate atm_option * strike_price atm_option
       * exp (- risk_free_rate atm_option * time_to_expiry atm_option)) / 365 /\
  BlackScholes.rho logistic_law (with_option_type atm_option CALL)
  - BlackScholes.rho logistic_law (with_option_type atm_option PUT)
  = strike_price atm_option * time_to_expiry atm_option
    * exp (- risk_free_rate atm_option * time_to_expiry atm_option) / 100.
Proof.
  apply (black_scholes_greeks_parity logistic_law atm_option).
  exact atm_option_valid.
Defined.

Lemma black_scholes_price_bounds_witness :
  BlackScholes.price logistic_law (with_option_type atm_option CALL)
  < spot_price atm_option
    * exp (- dividend_yield atm_option * time_to_expiry atm_option) /\
  BlackScholes.price logistic_law (with_option_type atm_option PUT)
  < strike_price atm_option
    * exp (- risk_free_rate atm_option * time_to_expiry atm_option) /\
  - (strike_price atm_option
     * exp (- risk_free_rate atm_option * time_to_expiry atm_option))
  < BlackScholes.price logistic_law (with_option_type atm_option CALL) /\
  - (spot_price atm_option
     * exp (- dividend_yield atm_option * time_to_expiry atm_option))
  < BlackScholes.price logistic_law (with_option_type atm_option PUT).
Proof.
  apply (black_scholes_price_bounds logistic_law atm_option).
  exact atm_option_valid.
Defined.

Lemma black_scholes_homogeneous_witness :
  let o' := mkOption (2 * 100) (2 * 100) 1 (1 / 5) (1 / 20) CALL EUROPEAN 0 in
  BlackScholes.price logistic_law o'
  = 2 * BlackScholes.price logistic_law atm_option /\
  BlackScholes.delta logistic_law o' = BlackScholes.delta logistic_law atm_option /\
  2 * BlackScholes.gamma logistic_law o'
  = BlackScholes.gamma logistic_law atm_option /\
  BlackScholes.vega logistic_law o'
  = 2 * BlackScholes.vega logistic_law atm_option.
Proof.
  apply (black_scholes_homogeneous logistic_law 2 atm_option).
  - lra.
  - exact atm_option_valid.
  - unfold scale_contract, atm_option; simpl.
    apply Option_new_ok_iff. lra.
Defined.

Lemma unit_call_valid : valid_option unit_call.
Proof. unfold valid_option, unit_call; simpl. lra. Qed.

Lemma lattice_recombines_and_is_risk_neutral_witness :
  Binomial.stock_tree unit_call 100 0 0 = spot_price unit_call /\
  Binomial.stock_tree unit_call 100 2 1 = Binomial.stock_tree unit_call 100 0 0 /\
  let p := Binomial._calculate_risk_neutral_probability unit_call 100 in
  p * Binomial.stock_tree unit_call 100 1 1
  + (1 - p) * Binomial.stock_tree unit_call 100 1 0
  = exp ((risk_free_rate unit_call - dividend_yield unit_call)
         * Binomial.dt unit_call 100)
    * Binomial.stock_tree unit_call 100 0 0.
Proof.
  apply (lattice_recombines_and_is_risk_neutral unit_call 100 0 0).
  - exact unit_call_valid.
  - lia.
  - lia.
Defined.

Lemma lattice_put_call_parity_witness :
  exists c p,
    Binomial.price
      (with_option_type (with_exercise_style atm_option EUROPEAN) CALL)
      DEFAULT_NUM_STEPS = Ok c /\
    Binomial.price
      (with_option_type (with_exercise_style atm_option EUROPEAN) PUT)
      DEFAULT_NUM_STEPS = Ok p /\
    c - p
    = spot_price atm_option
      * exp (- dividend_yield atm_option * time_to_expiry atm_option)
      - strike_price atm_option
        * exp (- risk_free_rate atm_option * time_to_expiry atm_option).
Proof.
  apply (lattice_put_call_parity atm_option DEFAULT_NUM_STEPS).
  - exact atm_option_valid.
  - unfold DEFAULT_NUM_STEPS. lia.
Defined.

Lemma american_price_at_least_exercise_value_witness :
  exists a,
    Binomial.price (with_exercise_style atm_option AMERICAN) DEFAULT_NUM_STEPS
    = Ok a /\
    Binomial._get_payoff (with_exercise_style atm_option AMERICAN)
      (spot_price (with_exercise_style atm_option AMERICAN)) <= a /\
    0 <= a.
Proof.
  apply american_price_at_least_exercise_value.
  - exact atm_option_valid.
  - unfold DEFAULT_NUM_STEPS. lia.
  - reflexivity.
Defined.

Lemma lattice_price_nonnegative_witness :
  exists v, Binomial.price unit_call 1 = Ok v /\ 0 <= v.
Proof.
  apply lattice_price_nonnegative.
  - exact unit_call_valid.
  - lia.
  - exact unit_call_one_step_probability.
Defined.

Lemma atm_put_model_paths :
  exists paths g',
    MonteCarlo._generate_price_paths cycle_generator atm_put_model 0%Z
    = (Ok paths, g').
Proof.
  apply monte_carlo_paths_ready.
  - unfold atm_put_model, DEFAULT_NUM_SIMULATIONS; simpl. lia.
  - unfold atm_put_model, DEFAULT_RANDOM_SEED; simpl. lia.
Qed.

Lemma monte_carlo_sample_size_witness :
  exists paths g',
    MonteCarlo._generate_price_paths cycle_generator atm_put_model 0%Z
    = (Ok paths, g') /\
    (0 <= MonteCarlo.num_simulations atm_put_model)%Z /\
    length paths = Z.to_nat (MonteCarlo.num_simulations atm_put_model).
Proof.
  destruct atm_put_model_paths as (paths & g' & Hpaths).
  exists paths, g'. split; [exact Hpaths |].
  apply (monte_carlo_sample_size cycle_generator atm_put_model 0%Z g' paths
           Hpaths).
  right. reflexivity.
Defined.

Lemma terminal_prices_positive_witness :
  exists paths g',
    MonteCarlo._generate_price_paths cycle_generator atm_put_model 0%Z
    = (Ok paths, g') /\
    Forall (fun s => 0 < s) paths.
Proof.
  destruct atm_put_model_paths as (paths & g' & Hpaths).
  exists paths, g'. split; [exact Hpaths |].
  apply (terminal_prices_positive cycle_generator atm_put_model 0%Z g' paths).
  - unfold atm_put_model, atm_option; simpl. lra.
  - exact Hpaths.
Defined.

Lemma antithetic_paths_are_mirrored_witness :
  exists paths g',
    MonteCarlo._generate_price_paths cycle_generator atm_put_model 0%Z
    = (Ok paths, g') /\
    let o := MonteCarlo.option atm_put_model in
    let drift :=
      (risk_free_rate o - dividend_yield o - 1 / 2 * volatility o ^ 2)
      * time_to_expiry o in
    exists first second,
      paths = first ++ second /\
      length first
      = Z.to_nat (MonteCarlo.num_simulations atm_put_model / 2) /\
      Forall2 (fun a b => a * b = (spot_price o * exp drift) ^ 2)
        first second.
Proof.
  destruct atm_put_model_paths as (paths & g' & Hpaths).
  exists paths, g'. split; [exact Hpaths |].
  exact (antithetic_paths_are_mirrored cycle_generator atm_put_model 0%Z g'
           paths eq_refl Hpaths).
Defined.

Lemma monte_carlo_price_bounds_witness :
  exists p se g',
    MonteCarlo.price_and_standard_error cycle_generator atm_put_model 0%Z
    = (Ok (p, se), g') /\
    0 <= p /\
    0 <= se /\
    p <= strike_price (MonteCarlo.option atm_put_model)
         * exp (- risk_free_rate (MonteCarlo.option atm_put_model)
                * time_to_expiry (MonteCarlo.option atm_put_model)).
Proof.
  destruct atm_put_model_paths as (paths & g' & Hpaths).
  pose proof (run_from_paths cycle_generator atm_put_model 0%Z g' paths
                Hpaths) as Hrun.
  eexists _, _, g'. split; [exact Hrun |].
  assert (valid_option (MonteCarlo.option atm_put_model)) as Hvalid
    by (unfold atm_put_model, valid_option, atm_option; simpl; lra).
  assert (2 <= MonteCarlo.num_simulations atm_put_model)%Z as Hsims
    by (unfold atm_put_model, DEFAULT_NUM_SIMULATIONS; simpl; lia).
  destruct (monte_carlo_price_bounds cycle_generator atm_put_model 0%Z g' _ _
              Hvalid Hsims Hrun) as (Hp & Hse & Hput).
  split; [exact Hp |]. split; [exact Hse |]. apply Hput. reflexivity.
Defined.

Lemma greeks_reproducible_witness :
  fst (model_greeks logistic_law cycle_generator
         (MonteCarloModel atm_put_model) 0%Z)
  = fst (model_greeks logistic_law cycle_generator
           (MonteCarloModel atm_put_model) 7%Z).
Proof.
  apply greeks_reproducible. simpl. discriminate.
Defined.

Lemma atm_lattice_ready :
  engine_ready (BinomialTreeModel atm_option DEFAULT_NUM_STEPS).
Proof.
  split; [exact atm_option_valid | unfold DEFAULT_NUM_STEPS; simpl; lia].
Qed.

Lemma numerical_greeks_return_iff_witness :
  exists greeks g',
    calculate_all_greeks logistic_law cycle_generator
      (BinomialTreeModel atm_option DEFAULT_NUM_STEPS) 0%Z = (Ok greeks, g').
Proof.
  apply (numerical_greeks_return_iff logistic_law cycle_generator
           (BinomialTreeModel atm_option DEFAULT_NUM_STEPS) 0%Z
           atm_lattice_ready).
  unfold atm_option; simpl. lra.
Defined.

Lemma sample_prices_positive : Forall (fun p => 0 < p) sample_prices.
Proof.
  unfold sample_prices.
  repeat (apply Forall_cons; [lra |]). apply Forall_nil.
Qed.

Lemma historical_volatility_scale_invariant_witness :
  historical_volatility (map (Rmult 2) sample_prices) 3 true
  = historical_volatility sample_prices 3 true.
Proof.
  apply historical_volatility_scale_invariant.
  - lra.
  - exact sample_prices_positive.
  - lia.
Defined.

Lemma historical_volatility_of_constant_prices_witness :
  historical_volatility (repeat 100 31) 30 true = Ok 0.
Proof.
  apply historical_volatility_of_constant_prices.
  - lra.
  - lia.
  - vm_compute. discriminate.
Defined.
